(** * redux-api-middleware: the API-call middleware and its type-descriptor helpers

    A shallow embedding of [src/lib/middleware.js] (the compiled
    [apiMiddleware] and the helpers [getJSON], [_fakeHeader],
    [fakeJsonResponse], [normalizeTypeDescriptors] and [actionWith]).

    JavaScript values are first-order data: objects are finite maps from
    property names to values, functions are references.  Values are trees,
    so an object that [actionWith] updates in place is threaded through the
    code that holds it.  One object is reached along two ways: the request
    type descriptor, when the first slot of the types array holds an object,
    is that very object, and the action handed to every resolver holds it.
    An argument can therefore say that it holds the descriptor under
    resolution at some place ([AHolds]); a resolver is given the holder with
    the descriptor as it stands at the moment of the call.  A function the
    caller supplies is a reference [FUser n]; what it does when applied is
    given by the host.  The host also supplies the store ([getState]), the
    next dispatch stage ([next]), the transport ([fetch]) and the two helpers
    of [validation.js].  Effects are threaded through a state monad over the
    host's world that also keeps a trace of what was called, and that carries
    JavaScript's two abrupt completions, [throw] and [return].

    A promise is not a value: a call whose result is awaited stands for the
    way that result settles, and only such runs are described in which every
    awaited call does settle.  An object with a callable [then] is a value,
    and [await] calls its [then]. *)

From stdpp Require Import gmap strings list fin_maps pretty.
From Stdlib Require Import ZArith Ascii String.

Local Open Scope Z_scope.
Local Open Scope string_scope.

(** ** Values *)

(** Function references.  [FSuccessPayload] and [FFailurePayload] are the two
    arrow functions that [normalizeTypeDescriptors] creates; the program
    puts them nowhere but in the [payload] of the success and failure
    descriptors, and hands them to no caller function. *)
Inductive fn :=
| FUser (n : nat)
| FSuccessPayload
| FFailurePayload.

(** Every object kind carries its own properties [ps]; arrays carry their
    elements as a list, error instances the name of their class.  Numbers
    are integers (status codes and indices are all the program computes
    with); a symbol is identified by its description. *)
#[warnings="-register-all"]
Inductive value :=
| VUndef
| VNull
| VBool (b : bool)
| VNum (n : Z)
| VStr (s : string)
| VSym (s : string)
| VObj (ps : gmap string value)
| VArr (items : list value) (ps : gmap string value)
| VFun (f : fn) (ps : gmap string value)
| VErr (cls : string) (ps : gmap string value).

(** The completion of an expression: a value, or a thrown value (a rejected
    promise, once awaited, is a throw). *)
Inductive result (A : Type) :=
| Done (a : A)
| Fail (e : value).
Arguments Done {A} a.
Arguments Fail {A} e.

Definition arr (items : list value) : value := VArr items ∅.
Definition obj (ps : list (string * value)) : value := VObj (list_to_map ps).

Definition typeof (v : value) : string :=
  match v with
  | VUndef => "undefined"
  | VNull => "object"
  | VBool _ => "boolean"
  | VNum _ => "number"
  | VStr _ => "string"
  | VSym _ => "symbol"
  | VObj _ => "object"
  | VArr _ _ => "object"
  | VFun _ _ => "function"
  | VErr _ _ => "object"
  end.

(** ToBoolean. *)
Definition truthy (v : value) : bool :=
  match v with
  | VUndef | VNull => false
  | VBool b => b
  | VNum n => negb (n =? 0)%Z
  | VStr s => negb (String.eqb s "")
  | _ => true
  end.

Definition isArray (v : value) : bool :=
  match v with VArr _ _ => true | _ => false end.

(** The engine's [TypeError]; the message text is the engine's own. *)
Definition TypeError (message : string) : value :=
  VErr "TypeError" {[ "message" := VStr message ]}.

(** [o.k].  Reading a property of [undefined] or [null] throws; a primitive
    has none of the properties the program reads.  (The names the program
    reads are never an array index or a built-in such as [length]; array
    elements are read with [get_index].) *)
Definition get_prop (o : value) (k : string) : result value :=
  match o with
  | VUndef | VNull => Fail (TypeError ("Cannot read property " ++ k))
  | VObj ps | VArr _ ps | VFun _ ps | VErr _ ps => Done (default VUndef (ps !! k))
  | _ => Done VUndef
  end.

(** [a[i]] on a value that passed [Array.isArray]. *)
Definition get_index (a : value) (i : nat) : value :=
  match a with
  | VArr items _ => nth i items VUndef
  | _ => VUndef
  end.

(** [o.k = v] in strict mode: only objects take properties. *)
Definition set_prop (o : value) (k : string) (v : value) : result value :=
  match o with
  | VObj ps => Done (VObj (<[k := v]> ps))
  | VArr items ps => Done (VArr items (<[k := v]> ps))
  | VFun f ps => Done (VFun f (<[k := v]> ps))
  | VErr c ps => Done (VErr c (<[k := v]> ps))
  | _ => Fail (TypeError ("Cannot set property " ++ k))
  end.

(** [delete o.k]. *)
Definition delete_prop (o : value) (k : string) : result value :=
  match o with
  | VUndef | VNull => Fail (TypeError ("Cannot convert undefined or null to object"))
  | VObj ps => Done (VObj (delete k ps))
  | VArr items ps => Done (VArr items (delete k ps))
  | VFun f ps => Done (VFun f (delete k ps))
  | VErr c ps => Done (VErr c (delete k ps))
  | _ => Done o
  end.

(** ** Places inside a value *)

(** A step from an object to one of its properties, or from an array to
    one of its elements. *)
Inductive step :=
| Key (k : string)
| Item (i : nat).

Definition child (v : value) (s : step) : option value :=
  match s, v with
  | Key k, (VObj ps | VArr _ ps | VFun _ ps | VErr _ ps) => ps !! k
  | Item i, VArr items _ => items !! i
  | _, _ => None
  end.

Definition put_child (v : value) (s : step) (c : value) : value :=
  match s, v with
  | Key k, VObj ps => VObj (<[k := c]> ps)
  | Key k, VArr items ps => VArr items (<[k := c]> ps)
  | Key k, VFun f ps => VFun f (<[k := c]> ps)
  | Key k, VErr cls ps => VErr cls (<[k := c]> ps)
  | Item i, VArr items ps => VArr (<[i := c]> items) ps
  | _, _ => v
  end.

(** The value found at a place, if the place exists. *)
Fixpoint get_at (v : value) (place : list step) : option value :=
  match place with
  | [] => Some v
  | s :: place => c ← child v s; get_at c place
  end.

(** [holder] with [d] at [place]; a place that does not exist holds
    nothing. *)
Fixpoint plug (holder : value) (place : list step) (d : value) : value :=
  match place with
  | [] => d
  | s :: place =>
      match child holder s with
      | Some c => put_child holder s (plug c place d)
      | None => holder
      end
  end.

(** ** Thenables *)

(** [v.then] when [v] is an object and its [then] can be called: what
    [await v] looks for. *)
Definition then_of (v : value) : option value :=
  match v with
  | VObj ps | VArr _ ps | VFun _ ps | VErr _ ps =>
      match ps !! "then" with
      | Some (VFun f fps) => Some (VFun f fps)
      | _ => None
      end
  | _ => None
  end.

Definition thenable (v : value) : bool :=
  match then_of v with Some _ => true | None => false end.

Definition indexed (items : list value) : gmap string value :=
  list_to_map (imap (λ i v, (pretty i, v)) items).

Definition chars (s : string) : list value :=
  (λ c, VStr (String c EmptyString)) <$> list_ascii_of_string s.

(** The own enumerable properties that an object spread or [Object.assign]
    copies from a source. *)
Definition own_props (v : value) : gmap string value :=
  match v with
  | VObj ps | VFun _ ps | VErr _ ps => ps
  | VArr items ps => ps ∪ indexed items
  | VStr s => indexed (chars s)
  | _ => ∅
  end.

(** [_extends({}, a, b)] and the spread [{ ...a, ...b }]: a fresh plain
    object, later sources win. *)
Definition _extends (sources : list value) : value :=
  VObj (foldl (λ acc src, own_props src ∪ acc) ∅ sources).

(** What array destructuring [let [a, b, c] = v] iterates over. *)
Definition iterate (v : value) : result (list value) :=
  match v with
  | VArr items _ => Done items
  | VStr s => Done (chars s)
  | _ => Fail (TypeError "undefined is not iterable")
  end.

(** ** Error classes *)

(** Modelled from the spec: the four error classes of [errors.js], which is
    not among the sources.  The spec gives their shapes as
    Invalid-Request-Error(violations), Request-Error(message),
    API-Error(status, statusText, body) and Internal-Error(message); this
    one is Invalid-Request-Error. *)
Definition InvalidRSAA (validationErrors : list string) : value :=
  VErr "InvalidRSAA" {[ "validationErrors" := arr (VStr <$> validationErrors) ]}.

(** Modelled from the spec: Request-Error(message), for bailout, field and
    network failures. *)
Definition RequestError (message : value) : value :=
  VErr "RequestError" {[ "message" := message ]}.

(** Modelled from the spec: Internal-Error(message), for payload and meta
    resolver failures. *)
Definition InternalError (message : value) : value :=
  VErr "InternalError" {[ "message" := message ]}.

(** Modelled from the spec: API-Error(status, statusText, body), for
    responses that are not ok. *)
Definition ApiError (status : Z) (statusText : string) (response : value) : value :=
  VErr "ApiError"
    (<[ "status" := VNum status ]>
     (<[ "statusText" := VStr statusText ]>
      {[ "response" := response ]})).

(** ** Responses *)

(** The transport's response, by the contract the program relies on:
    [res.headers.get(name)] is a string or [null], [res.json()] resolves to
    a value or rejects.  [json] is what [await res.json()] gives: the value
    it yields, or the value it throws. *)
Record response := Response {
  headers_get : string → option string;
  ok : bool;
  status : Z;
  statusText : string;
  json : result value
}.

(** An argument of a function the program calls.  A payload or meta
    function gets [(action, state, res)]: values and the response.
    [AHolds holder place] is a value that holds, at [place], the descriptor
    that [actionWith] is resolving (the action, when its first types slot is
    the request type descriptor).  [AResolve] and [AReject] are the two
    resolving functions that [await] hands to the [then] of a thenable. *)
Inductive arg :=
| AVal (v : value)
| ARes (r : response)
| AHolds (holder : value) (place : list step)
| AResolve
| AReject.

(** The arguments as the callee gets them while the descriptor under
    resolution stands as [descriptor]. *)
Definition present (descriptor : value) (args : list arg) : list arg :=
  (λ a, match a with
        | AHolds holder place => AVal (plug holder place descriptor)
        | _ => a
        end) <$> args.

(** ** [indexOf] and [toLowerCase] *)

Fixpoint array_indexOf_from (i : Z) (l : list Z) (x : Z) : Z :=
  match l with
  | [] => -1
  | y :: l' => if (y =? x)%Z then i else array_indexOf_from (i + 1) l' x
  end.

Definition array_indexOf (l : list Z) (x : Z) : Z := array_indexOf_from 0 l x.

Definition string_indexOf (s sub : string) : Z :=
  match String.index 0 sub s with
  | Some n => Z.of_nat n
  | None => -1
  end.

Definition lower_ascii (c : ascii) : ascii :=
  let n := nat_of_ascii c in
  if ((65 <=? n) && (n <=? 90))%nat then ascii_of_nat (n + 32) else c.

Fixpoint toLowerCase (s : string) : string :=
  match s with
  | EmptyString => EmptyString
  | String c s' => String (lower_ascii c) (toLowerCase s')
  end.

(** [~x] followed by a truthiness test, as in [!~a.indexOf(x)]. *)
Definition bitnot_truthy (x : Z) : bool := negb (Z.lnot x =? 0)%Z.

(** ** [_fakeHeader] and [fakeJsonResponse] *)

Definition _fakeHeader (header : option string) : string :=
  let header := default "" header in
  if String.eqb (toLowerCase header) "content-type" then "application/json"
  else "faked header - cache is only supported for json responses".

(** [fakeJsonResponse(json)] answers [json()] with [json] itself, which is
    what awaiting it gives for a JSON value. *)
Definition fakeJsonResponse (json : value) : response :=
  {| headers_get := λ name, Some (_fakeHeader (Some name));
     ok := true;
     status := 200;
     statusText := "OK";
     json := Done json |}.


(** ** Vocabulary of the specification *)

(** A bare identifier of the types triple: a string or a symbol. *)
Definition is_identifier (t : value) : bool :=
  match t with VStr _ | VSym _ => true | _ => false end.

(** The Content-Type header is present and mentions [json]. *)
Definition indicates_json (contentType : option string) : bool :=
  match contentType with
  | Some contentType => negb (string_indexOf contentType "json" =? -1)%Z
  | None => false
  end.

(** The responses whose body is not decoded: status 204 or 205, or no JSON
    content type. *)
Definition empty_body (res : response) : bool :=
  (status res =? 204)%Z || (status res =? 205)%Z
  || negb (indicates_json (headers_get res "Content-Type")).

(** The type descriptor a slot of the types triple stands for: a bare
    identifier stands for [{ type: identifier }]. *)
Definition descriptor_of (t : value) : gmap string value :=
  if is_identifier t then {[ "type" := t ]} else own_props t.

(** A default payload resolver is put in only where there is no payload. *)
Definition with_default (resolver : fn) (ps : gmap string value) : gmap string value :=
  match ps !! "payload" with
  | Some _ => ps
  | None => <[ "payload" := VFun resolver ∅ ]> ps
  end.

(** The request carries the property [k] as one of its own. *)
Definition carries (a : value) (k : string) : Prop :=
  match a with
  | VObj ps | VArr _ ps | VFun _ ps | VErr _ ps => is_Some (ps !! k)
  | _ => False
  end.

(** The request-type identifier of a types field, in the spec's words: the
    bare identifier in the first slot of the triple, or the [type] field of
    a full descriptor there. *)
Definition request_type_identifier (types : value) : option value :=
  match types with
  | VArr (slot :: _) _ =>
      if is_identifier slot then Some slot
      else match slot with
           | VObj ps =>
               match ps !! "type" with
               | Some t => if is_identifier t then Some t else None
               | None => None
               end
           | _ => None
           end
  | _ => None
  end.

(** The [type] that lines 65-69 give the notification for an invalid
    request: the first slot's [type] when both are truthy, else the slot. *)
Definition invalid_type (types : value) : value :=
  let slot := get_index types 0 in
  match get_prop slot "type" with
  | Done t => if truthy slot && truthy t then t else slot
  | Fail _ => slot
  end.

Definition invalid_fsa (types : value) (validationErrors : list string) : value :=
  obj [("type", invalid_type types);
       ("payload", InvalidRSAA validationErrors);
       ("error", VBool true)].

(** ** Thrown values and the handlers that read their message *)

(** The value has a [message] that can be read: it is not [undefined] or
    [null]. *)
Definition has_message (e : value) : Prop :=
  ∃ message, get_prop e "message" = Done message.

(** A response whose decoder, when it rejects, rejects with such a value. *)
Definition polite (res : response) : Prop :=
  ∀ e, json res = Fail e → has_message e.

(** The arguments of a resolver hold only such responses. *)
Definition polite_args (args : list arg) : Prop :=
  ∀ res, ARes res ∈ args → polite res.

(** The text [_fakeHeader] answers for every header but Content-Type. *)
Definition faked_header : string :=
  "faked header - cache is only supported for json responses".

(** [d'] is [d] with, at most, its [payload] and [meta] changed and its
    [error] raised to [true]. *)
Definition only_resolved (d d' : value) : Prop :=
  (∀ k, k ≠ "payload" → k ≠ "meta" → k ≠ "error" → get_prop d' k = get_prop d k)
  ∧ (get_prop d' "error" = get_prop d "error"
     ∨ get_prop d' "error" = Done (VBool true)).

Definition is_obj (d : value) : Prop :=
  match d with VObj _ => True | _ => False end.

(** ** A small host to run the middleware in

    The world is the number of notifications the store has reduced; the
    store's state shows that number. *)

Definition demo_getState (w : nat) : value := VNum (Z.of_nat w).

(** The next stage reduces the notification and returns it. *)
Definition demo_next (action : value) (w : nat) : result value * nat :=
  (Done action, S w).

Definition json_headers (name : string) : option string :=
  if String.eqb (toLowerCase name) "content-type" then Some "application/json"
  else None.

Definition response_ok : response :=
  {| headers_get := json_headers;
     ok := true;
     status := 200;
     statusText := "OK";
     json := Done (obj [("a", VNum 1)]) |}.

(** 404 with an empty body and no content type. *)
Definition response_not_found : response :=
  {| headers_get := λ _, None;
     ok := false;
     status := 404;
     statusText := "Not Found";
     json := Fail (VErr "SyntaxError" {[ "message" := VStr "Unexpected end of JSON input" ]}) |}.

Definition network_error : value :=
  VErr "TypeError" {[ "message" := VStr "Failed to fetch" ]}.

Definition demo_fetch (endpoint config : value) (w : nat) : result response * nat :=
  match endpoint with
  | VStr url =>
      if String.eqb url "http://api/ok" then (Done response_ok, w)
      else if String.eqb url "http://api/missing" then (Done response_not_found, w)
      else (Fail network_error, w)
  | _ => (Fail network_error, w)
  end.

(** The functions callers put in their actions:
    0 throws an error, 1 returns an endpoint, 2 rejects with no reason,
    3 returns [true], 4 returns a headers object; the others return
    [undefined]. *)
Definition demo_call_user (n : nat) (args : list arg) (w : nat) : result value * nat :=
  match n with
  | 0%nat => (Fail (VErr "Error" {[ "message" := VStr "boom" ]}), w)
  | 1%nat => (Done (VStr "http://api/ok"), w)
  | 2%nat => (Fail VUndef, w)
  | 3%nat => (Done (VBool true), w)
  | 4%nat => (Done (obj [("X-Token", VStr "t")]), w)
  | _ => (Done VUndef, w)
  end.

Definition demo_CALL_API : string := "[CALL_API]".

(** Modelled from the spec: [isRSAA] of [validation.js], which is not among
    the sources.  A request is an API-call request when it carries the
    call-descriptor property. *)
Definition demo_isRSAA (action : value) : bool :=
  match action with
  | VObj ps => bool_decide (is_Some (ps !! demo_CALL_API))
  | _ => false
  end.

(** Modelled from the spec: a rule set for [validateRSAA], which is
    pluggable; this one wants a call descriptor that is an object and whose
    types are an array of three. *)
Definition demo_validateRSAA (action : value) : list string :=
  match get_prop action demo_CALL_API with
  | Done (VObj ps) =>
      match ps !! "types" with
      | Some (VArr [_; _; _] _) => []
      | _ => ["[CALL_API].types property must be an array of length 3"]
      end
  | _ => ["[CALL_API] property must be a plain JavaScript object"]
  end.

Definition rsaa_action (callAPI : list (string * value)) : value :=
  obj [(demo_CALL_API, obj callAPI)].

Definition bare_types : value :=
  arr [VStr "REQUEST"; VStr "SUCCESS"; VStr "FAILURE"].

Definition user (n : nat) : value := VFun (FUser n) ∅.

Definition plain_action : value := obj [("type", VStr "PING")].

Definition static_action (url : string) : value :=
  rsaa_action [("endpoint", VStr url); ("method", VStr "GET"); ("types", bare_types)].

(** The success slot brings a payload of its own. *)
Definition own_success_payload_action : value :=
  rsaa_action [("endpoint", VStr "http://api/ok"); ("method", VStr "GET");
               ("types", arr [VStr "REQUEST";
                              obj [("type", VStr "SUCCESS"); ("payload", VStr "cached")];
                              VStr "FAILURE"])].

(** The failure slot brings a payload of its own. *)
Definition own_failure_payload_action : value :=
  rsaa_action [("endpoint", VStr "http://api/missing"); ("method", VStr "GET");
               ("types", arr [VStr "REQUEST"; VStr "SUCCESS";
                              obj [("type", VStr "FAILURE"); ("payload", VStr "gone")]])].

(** Validation fails and the types array is empty. *)
Definition empty_types_action : value :=
  rsaa_action [("endpoint", VStr "http://api/ok"); ("types", arr [])].

(** Validation fails and the types are not an array. *)
Definition no_types_action : value :=
  rsaa_action [("endpoint", VStr "http://api/ok")].

Definition bailout_action (bailout : value) : value :=
  rsaa_action [("endpoint", VStr "http://api/ok"); ("method", VStr "GET");
               ("bailout", bailout); ("types", bare_types)].

(** The endpoint is function 1, the headers function 0 (which throws), the
    options function 4. *)
Definition headers_throw_action : value :=
  rsaa_action [("endpoint", user 1); ("headers", user 0); ("options", user 4);
               ("method", VStr "GET"); ("types", bare_types)].

Definition dynamic_action : value :=
  rsaa_action [("endpoint", user 1); ("headers", user 4); ("options", user 5);
               ("method", VStr "GET"); ("types", bare_types)].

(** The request descriptor has a meta function that throws; so do the
    bailout function and the endpoint function. *)
Definition meta_throws_types : value :=
  arr [obj [("type", VStr "REQUEST"); ("meta", user 0)]; VStr "SUCCESS"; VStr "FAILURE"].

Definition meta_and_endpoint_throw_action : value :=
  rsaa_action [("endpoint", user 0); ("method", VStr "GET");
               ("types", meta_throws_types)].

Definition meta_and_bailout_throw_action : value :=
  rsaa_action [("endpoint", VStr "http://api/ok"); ("method", VStr "GET");
               ("bailout", user 0); ("types", meta_throws_types)].

(** A descriptor whose payload function rejects with no reason. *)
Definition rejecting_descriptor : value :=
  obj [("type", VStr "REQUEST"); ("payload", user 2)].

(** Caller functions none of which throws [undefined] or [null]: as
    [demo_call_user], but function 2 returns [null]. *)
Definition polite_call_user (n : nat) (args : list arg) (w : nat) : result value * nat :=
  match n with
  | 2%nat => (Done VNull, w)
  | _ => demo_call_user n args w
  end.

(** A transport that answers every call from a cache. *)
Definition cached_body : value := obj [("cached", VBool true)].

Definition cache_fetch (endpoint config : value) (w : nat) : result response * nat :=
  (Done (fakeJsonResponse cached_body), w).

(** A 200 that says it is JSON and is not. *)
Definition response_garbled : response :=
  {| headers_get := json_headers;
     ok := true;
     status := 200;
     statusText := "OK";
     json := Fail (VErr "SyntaxError" {[ "message" := VStr "Unexpected token <" ]}) |}.

Definition garbled_fetch (endpoint config : value) (w : nat) : result response * nat :=
  (Done response_garbled, w).

(** The call descriptor is there and is [undefined]. *)
Definition undefined_descriptor_action : value := obj [(demo_CALL_API, VUndef)].

(** A descriptor with a payload function that throws, a meta function that
    returns, and a field of its own. *)
Definition busy_descriptor : value :=
  obj [("type", VStr "REQUEST"); ("payload", user 0); ("meta", user 4);
       ("source", VStr "test")].

(** Validation fails on a types array that is too short; a request-type
    identifier can be told from it all the same. *)
Definition short_types_action : value :=
  rsaa_action [("endpoint", VStr "http://api/ok");
               ("types", arr [obj [("type", VStr "REQUEST")]])].

(** As [demo_call_user], with three functions more: 6 returns the payload
    it finds in the first types slot of the action it is given, 7 is a
    [then] that resolves with 'adopted', 8 a [then] that rejects with an
    error. *)
Definition more_call_user (n : nat) (args : list arg) (w : nat) : result value * nat :=
  match n with
  | 6%nat =>
      (Done (match args with
             | AVal action :: _ =>
                 default VUndef
                   (get_at action
                      [Key demo_CALL_API; Key "types"; Item 0; Key "payload"])
             | _ => VUndef
             end), w)
  | 7%nat => (Done (VStr "adopted"), w)
  | 8%nat => (Fail (VErr "Error" {[ "message" := VStr "too late" ]}), w)
  | _ => demo_call_user n args w
  end.

(** The first types slot is a descriptor whose payload function returns a
    string and whose meta function looks that payload up in the action; the
    payload function of the success slot looks it up too. *)
Definition sharing_action : value :=
  rsaa_action [("endpoint", VStr "http://api/ok"); ("method", VStr "GET");
               ("types", arr [obj [("type", VStr "REQUEST"); ("payload", user 1);
                                   ("meta", user 6)];
                              obj [("type", VStr "SUCCESS"); ("payload", user 6)];
                              VStr "FAILURE"])].

(** Descriptors whose payload is a thenable: one that resolves, one that
    rejects. *)
Definition resolving_thenable : value := obj [("then", user 7)].

Definition rejecting_thenable : value := obj [("then", user 8)].

Definition thenable_descriptor (payload : value) : value :=
  obj [("type", VStr "REQUEST"); ("payload", payload)].

(** The request type descriptor has a [then] of its own: one that resolves
    with 'adopted', one that rejects with an error. *)
Definition then_action (then_ : value) : value :=
  rsaa_action [("endpoint", VStr "http://api/ok"); ("method", VStr "GET");
               ("types", arr [obj [("type", VStr "REQUEST"); ("then", then_)];
                              VStr "SUCCESS"; VStr "FAILURE"])].
(** ** What the program does to its environment *)

Inductive event :=
| ENext (action : value)
| EFetch (endpoint config : value)
| ECall (n : nat) (args : list arg)
| EJson (r : response).

(** How a statement completes: normally, by [throw], or by [return]. *)
Inductive outcome (A : Type) :=
| Ok (a : A)
| Throw (e : value)
| Return (v : value).
Arguments Ok {A} a.
Arguments Throw {A} e.
Arguments Return {A} v.

(** The local variables of [apiMiddleware] once the validated RSAA is
    parsed (lines 79-92). *)
Record rsaa := RSAA {
  c_endpoint : value;
  c_headers : value;
  c_options : value;
  c_method : value;
  c_body : value;
  c_credentials : value;
  c_bailout : value;
  c_requestType : value;
  c_successType : value;
  c_failureType : value
}.

Section Middleware.

(** The host: the store and the next stage that Redux hands to the
    middleware, the transport, the functions the caller put in the action,
    and [validation.js] and [CALL_API.js], which are not among the sources
    and are taken as parameters.  Each call may change the world. *)
Context {W : Type}.
Variable getState : W → value.
Variable next : value → W → result value * W.
Variable fetch : value → value → W → result response * W.
Variable call_user : nat → list arg → W → result value * W.
Variable isRSAA : value → bool.
Variable validateRSAA : value → list string.
Variable CALL_API : string.

Record state := State { world : W; trace : list event }.

Definition eff (A : Type) : Type := state → outcome A * state.

#[export] Instance eff_ret : MRet eff := λ A a σ, (Ok a, σ).

#[export] Instance eff_bind : MBind eff := λ A B f m σ,
  match m σ with
  | (Ok a, σ') => f a σ'
  | (Throw e, σ') => (Throw e, σ')
  | (Return v, σ') => (Return v, σ')
  end.

Definition throw {A} (e : value) : eff A := λ σ, (Throw e, σ).

Definition return_ {A} (v : value) : eff A := λ σ, (Return v, σ).

Definition lift {A} (r : result A) : eff A :=
  match r with
  | Done a => mret a
  | Fail e => throw e
  end.

(** [try { m } catch (e) { ... }]: a throw is handed to the handler, a
    [return] leaves the function. *)
Definition try_ {A} (m : eff A) : eff (result A) := λ σ,
  match m σ with
  | (Ok a, σ') => (Ok (Done a), σ')
  | (Throw e, σ') => (Ok (Fail e), σ')
  | (Return v, σ') => (Return v, σ')
  end.

Definition log (ev : event) : eff unit := λ σ,
  (Ok tt, {| world := world σ; trace := trace σ ++ [ev] |}).

Definition host {A} (f : W → result A * W) : eff A := λ σ,
  match f (world σ) with
  | (Done a, w) => (Ok a, {| world := w; trace := trace σ |})
  | (Fail e, w) => (Throw e, {| world := w; trace := trace σ |})
  end.

Definition getState_ : eff value := λ σ, (Ok (getState (world σ)), σ).

Definition next_ (action : value) : eff value :=
  log (ENext action);; host (next action).

Definition fetch_ (endpoint config : value) : eff response :=
  log (EFetch endpoint config);; host (fetch endpoint config).

(** [return next(action)] *)
Definition return_next {A} (action : value) : eff A :=
  v ← next_ action;
  return_ v.

(** ** [getJSON] (lines 289-298) *)

Definition getJSON (res : response) : eff value :=
  let contentType := headers_get res "Content-Type" in
  let emptyCodes := [204; 205] in
  if negb (bitnot_truthy (array_indexOf emptyCodes (status res)))
     && match contentType with
        | Some contentType =>
            truthy (VStr contentType) && bitnot_truthy (string_indexOf contentType "json")
        | None => false
        end
  then log (EJson res);; lift (json res)
  else mret VUndef.

(** ** Calling a function value *)

(** The completion of a call whose result the program awaits says how that
    result settles; the completion of any other call (bailout, endpoint,
    headers, options, [next]) is what the call returns or throws.  The two
    default resolvers are only ever called with [(action, state, res)]. *)

Definition apply_fn (f : fn) (args : list arg) : eff value :=
  match f with
  | FUser n => log (ECall n args);; host (call_user n args)
  | FSuccessPayload =>
      (* (action, state, res) => getJSON(res) *)
      match args !! 2%nat with
      | Some (ARes res) => getJSON res
      | _ => throw (TypeError "Cannot read property headers")
      end
  | FFailurePayload =>
      (* (action, state, res) =>
           getJSON(res).then((json) => new ApiError(res.status, res.statusText, json)) *)
      match args !! 2%nat with
      | Some (ARes res) =>
          json ← getJSON res;
          mret (ApiError (status res) (statusText res) json)
      | _ => throw (TypeError "Cannot read property headers")
      end
  end.

Definition call (f : value) (args : list arg) : eff value :=
  match f with
  | VFun f _ => apply_fn f args
  | _ => throw (TypeError "not a function")
  end.

(** ** [normalizeTypeDescriptors] (lines 335-362) *)

Definition wrap (t : value) : value :=
  if String.eqb (typeof t) "string" || String.eqb (typeof t) "symbol"
  then obj [("type", t)] else t.

Definition normalizeTypeDescriptors (types : value) : result (list value) :=
  match iterate types with
  | Fail e => Fail e
  | Done items =>
      let requestType := nth 0 items VUndef in
      let successType := nth 1 items VUndef in
      let failureType := nth 2 items VUndef in
      let requestType := wrap requestType in
      let successType := wrap successType in
      let successType :=
        _extends [obj [("payload", VFun FSuccessPayload ∅)]; successType] in
      let failureType := wrap failureType in
      let failureType :=
        _extends [obj [("payload", VFun FFailurePayload ∅)]; failureType] in
      Done [requestType; successType; failureType]
  end.

(** ** [actionWith] (lines 373-398) *)

(** [await v] on a value (lines 375 and 386).  An object whose [then] can
    be called is adopted: the engine calls [v.then(resolve, reject)], and the
    await settles as the two functions are called.  The completion of that
    call stands for it: [Done x] for [resolve(x)], with [x] what the await
    yields, and [Fail e] for [reject(e)] or a throw; a [then] that calls
    neither leaves the await pending, and such runs are not described.  Any
    other value is the result. *)
Definition await_ (v : value) : eff value :=
  match then_of v with
  | Some then_ => call then_ [AResolve; AReject]
  | None => mret v
  end.

(** [typeof p === 'function' ? p(...args) : p] *)
Definition evaluate (p : value) (args : list arg) : eff value :=
  if String.eqb (typeof p) "function" then call p args else mret p.

(** [await (typeof p === 'function' ? p(...args) : p)], where [p] is
    [descriptor.payload] or [descriptor.meta]. *)
Definition settle (p : value) (args : list arg) : eff value :=
  v ← evaluate p args;
  await_ v.

(** The arguments are spread when the call is made: an argument that
    holds the descriptor shows it as it stands then. *)
Definition resolve (descriptor : value) (k : string) (args : list arg) : eff value :=
  p ← lift (get_prop descriptor k);
  settle p (present descriptor args).

(** The descriptor is updated in place; the updated descriptor is what
    the caller holds from then on, and it is the result: [Ok d] says that
    the promise of [actionWith] is resolved with [d].  Awaiting that promise
    adopts [d] when [d] is a thenable; the middleware's [await] does. *)
Definition actionWith (descriptor : value) (args : list arg) : eff value :=
  r ← try_ (v ← resolve descriptor "payload" args;
            lift (set_prop descriptor "payload" v));
  descriptor ← match r with
               | Done d => mret d
               | Fail e =>
                   message ← lift (get_prop e "message");
                   d ← lift (set_prop descriptor "payload" (InternalError message));
                   lift (set_prop d "error" (VBool true))
               end;
  r ← try_ (v ← resolve descriptor "meta" args;
            lift (set_prop descriptor "meta" v));
  match r with
  | Done d => mret d
  | Fail e =>
      d ← lift (delete_prop descriptor "meta");
      message ← lift (get_prop e "message");
      d ← lift (set_prop d "payload" (InternalError message));
      lift (set_prop d "error" (VBool true))
  end.

(** ** [apiMiddleware] (lines 35-255) *)

Definition is_undefined (v : value) : bool :=
  match v with VUndef => true | _ => false end.

(** Lines 62-76: try to dispatch an error request FSA for an invalid RSAA. *)
Definition dispatch_invalid (action : value) (validationErrors : list string) : eff value :=
  _callAPI ← lift (get_prop action CALL_API);
  types ← lift (get_prop _callAPI "types");
  (if truthy types && isArray types then
     let _requestType := get_index types 0 in
     _requestType ←
       (if truthy _requestType then
          type ← lift (get_prop _requestType "type");
          mret (if truthy type then type else _requestType)
        else mret _requestType);
     next_ (obj [("type", _requestType);
                 ("payload", InvalidRSAA validationErrors);
                 ("error", VBool true)]);;
     mret tt
   else mret tt);;
  return_ VUndef.

(** Lines 79-92: parse the validated RSAA action. *)
Definition parse (action : value) : eff rsaa :=
  callAPI ← lift (get_prop action CALL_API);
  endpoint ← lift (get_prop callAPI "endpoint");
  headers ← lift (get_prop callAPI "headers");
  _callAPI_options ← lift (get_prop callAPI "options");
  let options := if is_undefined _callAPI_options then obj [] else _callAPI_options in
  method ← lift (get_prop callAPI "method");
  body ← lift (get_prop callAPI "body");
  credentials ← lift (get_prop callAPI "credentials");
  bailout ← lift (get_prop callAPI "bailout");
  types ← lift (get_prop callAPI "types");
  _normalizeTypeDescriptors ← lift (normalizeTypeDescriptors types);
  mret {| c_endpoint := endpoint;
          c_headers := headers;
          c_options := options;
          c_method := method;
          c_body := body;
          c_credentials := credentials;
          c_bailout := bailout;
          c_requestType := nth 0 _normalizeTypeDescriptors VUndef;
          c_successType := nth 1 _normalizeTypeDescriptors VUndef;
          c_failureType := nth 2 _normalizeTypeDescriptors VUndef |}.

(** The handler that lines 110-117, 135-142, 160-167, 185-192 and 216-223
    repeat: dispatch the request type with a [RequestError], and return. *)
Definition request_error {A} (action requestType message : value) : eff A :=
  state ← getState_;
  fsa ← actionWith
          (_extends [requestType;
                     obj [("payload", RequestError message); ("error", VBool true)]])
          [AVal action; AVal state];
  fsa ← await_ fsa;
  return_next fsa.

(** Lines 93-117: should we bail out? *)
Definition bail_out (action : value) (c : rsaa) : eff unit :=
  let bailout := c_bailout c in
  r ← try_ (if String.eqb (typeof bailout) "boolean" && truthy bailout then mret true
            else if String.eqb (typeof bailout) "function" then
              state ← getState_;
              b ← call bailout [AVal state];
              mret (truthy b)
            else mret false);
  match r with
  | Done true => return_ VUndef
  | Done false => mret tt
  | Fail _ =>
      request_error action (c_requestType c) (VStr "[CALL_API].bailout function failed")
  end.

(** Lines 119-142, 144-167 and 169-192: process the [CALL_API].endpoint,
    .headers and .options functions; [name] is the field's name. *)
Definition process (action : value) (c : rsaa) (name : string) (field : value) : eff value :=
  if String.eqb (typeof field) "function" then
    r ← try_ (state ← getState_; call field [AVal state]);
    match r with
    | Done v => mret v
    | Fail _ =>
        request_error action (c_requestType c)
          (VStr ("[CALL_API]." ++ name ++ " function failed"))
    end
  else mret field.

(** Where the request type descriptor sits in the action. *)
Definition request_slot : list step := [Key CALL_API; Key "types"; Item 0].

(** [normalizeTypeDescriptors] wraps a first slot that is a string or a
    symbol in a fresh object (lines 338-340); any other first slot is the
    request type descriptor itself, and the action shares it. *)
Definition shared (action : value) : bool :=
  match get_at action request_slot with
  | Some slot =>
      negb (String.eqb (typeof slot) "string" || String.eqb (typeof slot) "symbol")
  | None => false
  end.

(** The action as an argument of the request type descriptor's
    resolvers. *)
Definition held (action : value) : arg :=
  if shared action then AHolds action request_slot else AVal action.

(** The action as it stands when its request type descriptor stands as
    [requestType]. *)
Definition seen (action requestType : value) : value :=
  if shared action then plug action request_slot requestType else action.

(** Lines 194-200: we can now dispatch the request FSA.  [actionWith]
    updates the request type descriptor in place, inside the action when the
    action shares it.  What is forwarded is what awaiting [actionWith]
    yields; the result is the descriptor as [actionWith] left it, which the
    variable [requestType] goes on to hold. *)
Definition dispatch_request (action : value) (c : rsaa) : eff value :=
  state ← getState_;
  requestType ← actionWith (c_requestType c) [held action; AVal state];
  fsa ← await_ requestType;
  next_ fsa;;
  mret requestType.

(** [_extends({}, options, { method, body, credentials, headers })] *)
Definition config_of (c : rsaa) (options headers : value) : value :=
  _extends [options;
            obj [("method", c_method c); ("body", c_body c);
                 ("credentials", c_credentials c); ("headers", headers)]].

(** Lines 201-246: make the API call and process the server response.
    [requestType] is the request type descriptor as [dispatch_request] left
    it; the action the resolvers are given from here on shows it. *)
Definition call_api (action : value) (c : rsaa)
    (endpoint headers options requestType : value) : eff value :=
  let action := seen action requestType in
  r ← try_ (fetch_ endpoint (config_of c options headers));
  match r with
  | Fail e =>
      (* the request was malformed, or there was a network error *)
      message ← lift (get_prop e "message");
      request_error action requestType message
  | Done res =>
      if ok res then
        state ← getState_;
        fsa ← actionWith (c_successType c) [AVal action; AVal state; ARes res];
        fsa ← await_ fsa;
        return_next fsa
      else
        state ← getState_;
        fsa ← actionWith (_extends [c_failureType c; obj [("error", VBool true)]])
                [AVal action; AVal state; ARes res];
        fsa ← await_ fsa;
        return_next fsa
  end.

Definition apiMiddleware (action : value) : eff value :=
  if negb (isRSAA action) then
    (* do not process actions without a [CALL_API] property *)
    return_next action
  else
    let validationErrors := validateRSAA action in
    if negb (List.length validationErrors =? 0)%nat then
      dispatch_invalid action validationErrors
    else
      c ← parse action;
      bail_out action c;;
      endpoint ← process action c "endpoint" (c_endpoint c);
      headers ← process action c "headers" (c_headers c);
      options ← process action c "options" (c_options c);
      requestType ← dispatch_request action c;
      call_api action c endpoint headers options requestType.

(** The promise the middleware returns: resolved with the returned value
    (which it follows, should that be a thenable), or rejected with the
    thrown one. *)
Definition run (action : value) (σ : state) : result value * state :=
  match apiMiddleware action σ with
  | (Return v, σ') => (Done v, σ')
  | (Ok v, σ') => (Done VUndef, σ')
  | (Throw e, σ') => (Fail e, σ')
  end.

(** How the promise settles, and the state it leaves, when the middleware
    ends with [return next(action)] in state [σ]. *)
Definition handed_to_next (action : value) (σ : state) : result value * state :=
  (fst (next action (world σ)),
   {| world := snd (next action (world σ)); trace := trace σ ++ [ENext action] |}).

(** The notifications forwarded to the next stage, in order, and whether the
    transport was invoked. *)
Definition forwarded (t : list event) : list value :=
  omap (λ ev, match ev with ENext a => Some a | _ => None end) t.

Definition fetched (t : list event) : bool :=
  existsb (λ ev, match ev with EFetch _ _ => true | _ => false end) t.



(** ** Traces *)

(** [emits P m]: whatever [m] does, it only adds events to the trace, and
    every event it adds satisfies [P]. *)
Definition emits (P : event → Prop) {A} (m : eff A) : Prop :=
  ∀ σ r σ', m σ = (r, σ') → ∃ evs : list event, trace σ' = (trace σ ++ evs)%list ∧ Forall P evs.

(** Calls of caller-supplied functions and of the body decoder: the events
    that are neither a notification nor a transport call. *)
Definition silent (ev : event) : Prop :=
  match ev with
  | ECall _ _ | EJson _ => True
  | ENext _ | EFetch _ _ => False
  end.

Definition any_event (ev : event) : Prop := True.

(** ** The notifications of the error paths *)

(** The request type descriptor turned into an error notification: [error]
    is true, the payload is a [RequestError], [meta] is what the
    descriptor's meta resolved to. *)
Definition error_fsa (requestType message meta : value) : value :=
  VObj (<["meta" := meta]>
        (<["payload" := RequestError message]>
         (<["error" := VBool true]> (own_props requestType)))).

(** The value of [descriptor.meta] before it is resolved. *)
Definition meta_of (descriptor : value) : value :=
  default VUndef (own_props descriptor !! "meta").

(** Dynamic field resolution in the spec's words: one field after the
    other, each function applied to the state current at that moment and
    standing for its result from then on. *)
Fixpoint evaluate_fields (fields : list value) : eff (list value) :=
  match fields with
  | [] => mret []
  | field :: fields =>
      state ← getState_;
      v ← evaluate field [AVal state];
      vs ← evaluate_fields fields;
      mret (v :: vs)
  end.

Definition field_names : list string := ["endpoint"; "headers"; "options"].

Definition fields_of (c : rsaa) : list value :=
  [c_endpoint c; c_headers c; c_options c].

(** The request got as far as the transport: it parsed, passed the bailout
    check, its three fields resolved to [endpoint], [headers] and [options],
    and its request type descriptor was resolved to [requestType], which is
    no thenable and was forwarded as the request notification; [σ1] is the
    state in which the transport is about to be called. *)
Definition reaches_transport (action : value) (c : rsaa)
    (endpoint headers options requestType : value) (σ0 σ1 : state) : Prop :=
  ∃ σa σb σc σd,
    parse action σ0 = (Ok c, σ0)
    ∧ bail_out action c σ0 = (Ok tt, σa)
    ∧ process action c "endpoint" (c_endpoint c) σa = (Ok endpoint, σb)
    ∧ process action c "headers" (c_headers c) σb = (Ok headers, σc)
    ∧ process action c "options" (c_options c) σc = (Ok options, σd)
    ∧ dispatch_request action c σd = (Ok requestType, σ1)
    ∧ thenable requestType = false.

(** The state right after the transport was called and left the world [w]. *)
Definition after_fetch (σ : state) (endpoint config : value) (w : W) : state :=
  {| world := w; trace := trace σ ++ [EFetch endpoint config] |}.

(** A descriptor turned into a notification with the given payload and
    meta. *)
Definition fsa_of (ps : gmap string value) (payload meta : value) : value :=
  VObj (<["meta" := meta]> (<["payload" := payload]> ps)).

Definition is_function (v : value) : bool := String.eqb (typeof v) "function".

(** A payload or meta that [actionWith] leaves as it is: not a function to
    call, not a thenable to adopt. *)
Definition is_static (p : value) : bool := negb (is_function p) && negb (thenable p).

(** A notification made of the descriptor is no thenable: the descriptor
    has no [then] of its own that can be called. *)
Definition no_then (descriptor : value) : Prop :=
  thenable (VObj (own_props descriptor)) = false.

(** The value of [descriptor.type]. *)
Definition type_of (descriptor : value) : value :=
  default VUndef (own_props descriptor !! "type").

(** The request type descriptor turned into an error notification when its
    meta resolver failed: [actionWith] deletes [meta], and the payload is
    the internal error of that failure. *)
Definition meta_error_fsa (requestType message : value) : value :=
  VObj (<["error" := VBool true]>
        (<["payload" := InternalError message]>
         (delete "meta" (own_props requestType)))).

(** How a run that started in [σ0] ends when, in state [σ1] and with
    nothing forwarded yet, it hands the request type descriptor, which has
    no [then] that can be called, to the error handler with the request
    error of [message] (lines 110-117, 135-142, 160-167 and 185-192).  The
    handler builds its notification with [actionWith], so the descriptor's
    meta resolver runs first.  When it settles, the one notification
    forwarded carries the request error.  When it fails with a value that
    has a message, the one notification forwarded carries the internal error
    of that failure.  When it fails with [undefined] or [null], nothing is
    forwarded and the promise rejects.  The transport is not called in any
    of the three. *)
Definition ends_in_error (action : value) (σ0 : state)
    (requestType message : value) (σ1 : state) : Prop :=
  let args := [AVal action; AVal (getState (world σ1))] in
  (∀ m σ2,
     settle (meta_of requestType) args σ1 = (Ok m, σ2) →
     let fsa := error_fsa requestType message m in
     run action σ0 = handed_to_next fsa σ2
     ∧ forwarded (trace (snd (run action σ0))) = (forwarded (trace σ0) ++ [fsa])%list
     ∧ fetched (trace (snd (run action σ0))) = fetched (trace σ0)
     ∧ type_of fsa = type_of requestType
     ∧ get_prop fsa "error" = Done (VBool true)
     ∧ get_prop fsa "payload" = Done (RequestError message))
  ∧ (∀ e message' σ2,
       settle (meta_of requestType) args σ1 = (Throw e, σ2) →
       get_prop e "message" = Done message' →
       let fsa := meta_error_fsa requestType message' in
       run action σ0 = handed_to_next fsa σ2
       ∧ forwarded (trace (snd (run action σ0))) = (forwarded (trace σ0) ++ [fsa])%list
       ∧ fetched (trace (snd (run action σ0))) = fetched (trace σ0)
       ∧ type_of fsa = type_of requestType
       ∧ get_prop fsa "error" = Done (VBool true)
       ∧ get_prop fsa "payload" = Done (InternalError message'))
  ∧ (∀ e σ2,
       settle (meta_of requestType) args σ1 = (Throw e, σ2) →
       e = VUndef ∨ e = VNull →
       run action σ0 = (Fail (TypeError "Cannot read property message"), σ2)
       ∧ forwarded (trace σ2) = forwarded (trace σ0)
       ∧ fetched (trace σ2) = fetched (trace σ0)).

(** ** The shape of a run's trace *)

(** How many times the transport was called. *)
Fixpoint fetches (t : list event) : nat :=
  match t with
  | [] => 0
  | EFetch _ _ :: t => S (fetches t)
  | _ :: t => fetches t
  end.

(** Only resolver and decoder calls. *)
Definition quiet (evs : list event) : Prop := Forall silent evs.

(** Resolver and decoder calls, then at most one notification, which comes
    last. *)
Definition closes (evs : list event) : Prop :=
  quiet evs ∨ ∃ (s : list event) a, evs = (s ++ [ENext a])%list ∧ quiet s.

(** What one run of the middleware adds to the trace: either it closes
    before any transport call, or it forwards one notification, calls the
    transport right after it, and closes. *)
Definition run_shape (evs : list event) : Prop :=
  closes evs
  ∨ ∃ (s : list event) a endpoint config t,
      evs = (s ++ ENext a :: EFetch endpoint config :: t)%list ∧ quiet s ∧ closes t.

(** A step of the middleware: it goes on quietly, or it leaves the function
    and closes. *)
Definition step_shape {A} (m : eff A) : Prop :=
  ∀ σ r σ', m σ = (r, σ') →
    ∃ evs : list event,
      trace σ' = (trace σ ++ evs)%list
      ∧ match r with Ok _ => quiet evs | _ => closes evs end.

Definition full_shape {A} (m : eff A) : Prop :=
  ∀ σ r σ', m σ = (r, σ') →
    ∃ evs : list event, trace σ' = (trace σ ++ evs)%list ∧ run_shape evs.

(** The computation never throws. *)
Definition safe {A} (m : eff A) : Prop := ∀ σ e σ', m σ ≠ (Throw e, σ').

(** Every notification the computation forwards has one of the given
    types. *)
Definition typed (types : list value) (ev : event) : Prop :=
  match ev with
  | ENext a => type_of a ∈ types
  | _ => True
  end.
(** ** Running computations *)

Local Open Scope list_scope.

Lemma bind_run {A B} (m : eff A) (f : A → eff B) σ :
  (m ≫= f) σ =
  match m σ with
  | (Ok a, σ') => f a σ'
  | (Throw e, σ') => (Throw e, σ')
  | (Return v, σ') => (Return v, σ')
  end.
Proof. reflexivity. Qed.

Lemma bind_ok {A B} (m : eff A) (f : A → eff B) σ a σ' :
  m σ = (Ok a, σ') → (m ≫= f) σ = f a σ'.
Proof. intros H. rewrite bind_run, H. reflexivity. Qed.

Lemma next_run action σ :
  next_ action σ =
  match next action (world σ) with
  | (Done v, w) => (Ok v, {| world := w; trace := trace σ ++ [ENext action] |})
  | (Fail e, w) => (Throw e, {| world := w; trace := trace σ ++ [ENext action] |})
  end.
Proof. reflexivity. Qed.

Lemma return_next_run {A} action σ :
  @return_next A action σ =
  match next action (world σ) with
  | (Done v, w) => (Return v, {| world := w; trace := trace σ ++ [ENext action] |})
  | (Fail e, w) => (Throw e, {| world := w; trace := trace σ ++ [ENext action] |})
  end.
Proof.
  unfold return_next. rewrite bind_run, next_run.
  destruct (next action (world σ)) as [[v|e] w]; reflexivity.
Qed.

(** Nothing runs after [return next(fsa)]. *)
Lemma return_next_bind {A B} fsa (f : A → eff B) σ :
  match @return_next A fsa σ with
  | (Ok a, σ') => f a σ'
  | (Throw e, σ') => (Throw e, σ')
  | (Return v, σ') => (Return v, σ')
  end = @return_next B fsa σ.
Proof.
  rewrite !return_next_run. destruct (next fsa (world σ)) as [[v|e] w]; reflexivity.
Qed.

(** The promise of a middleware that ends with [return next(fsa)]. *)
Lemma run_return_next action σ fsa σ' :
  apiMiddleware action σ = return_next fsa σ' →
  run action σ = handed_to_next fsa σ'.
Proof.
  intros H. unfold run, handed_to_next. rewrite H, return_next_run.
  destruct (next fsa (world σ')) as [[v|e] w]; reflexivity.
Qed.

(** ** [getJSON] and [fakeJsonResponse] *)

Lemma bitnot_truthy_spec x : bitnot_truthy x = negb (x =? -1)%Z.
Proof.
  unfold bitnot_truthy. f_equal.
  destruct (Z.eqb_spec x (-1)) as [->|Hne]; [reflexivity|].
  apply Z.eqb_neq. unfold Z.lnot. lia.
Qed.

Lemma emptyCodes_indexOf s :
  negb (bitnot_truthy (array_indexOf [204; 205] s)) = negb ((s =? 204) || (s =? 205))%Z.
Proof.
  unfold array_indexOf. cbn [array_indexOf_from].
  rewrite (Z.eqb_sym 204), (Z.eqb_sym 205).
  destruct (s =? 204)%Z; [reflexivity|]. destruct (s =? 205)%Z; reflexivity.
Qed.

Lemma json_content_type ct :
  truthy (VStr ct) && bitnot_truthy (string_indexOf ct "json") = indicates_json (Some ct).
Proof.
  simpl. rewrite bitnot_truthy_spec.
  destruct ct as [|c ct]; [reflexivity|]. reflexivity.
Qed.

(** [getJSON], case by case. *)
Lemma getJSON_run (res : response) (σ : state) :
  getJSON res σ =
    if empty_body res then (Ok VUndef, σ)
    else (match json res with Done v => Ok v | Fail e => Throw e end,
          {| world := world σ; trace := trace σ ++ [EJson res] |}).
Proof.
  unfold getJSON, empty_body. rewrite emptyCodes_indexOf.
  destruct (headers_get res "Content-Type") as [ct|].
  - rewrite json_content_type.
    destruct (indicates_json (Some ct));
      destruct ((status res =? 204) || (status res =? 205))%Z; try reflexivity.
    cbn [negb andb orb]. rewrite bind_run. simpl. destruct (json res); reflexivity.
  - rewrite andb_false_r, orb_true_r. reflexivity.
Qed.

(** C8.  [getJSON] resolves to [undefined], and leaves the decoder alone (no
    [EJson] event, the state is untouched), exactly when the status is 204
    or 205 or the Content-Type header is absent or does not mention [json],
    whatever the other of the two says; in every other case it invokes the
    decoder and settles as the decoder does. *)
Theorem getJSON_empty_or_decoded (res : response) (σ : state) :
  getJSON res σ =
    if (status res =? 204)%Z || (status res =? 205)%Z
       || negb (indicates_json (headers_get res "Content-Type"))
    then (Ok VUndef, σ)
    else (match json res with Done v => Ok v | Fail e => Throw e end,
          {| world := world σ; trace := trace σ ++ [EJson res] |}).
Proof. exact (getJSON_run res σ). Qed.

(** C10.  [fakeJsonResponse j] has [ok] true, status 200 and status text
    'OK', answers the Content-Type lookup with a JSON content type, and
    [getJSON] applied to it invokes its decoder and resolves to [j]. *)
Theorem fakeJsonResponse_roundtrip (j : value) (σ : state) :
  ok (fakeJsonResponse j) = true
  ∧ status (fakeJsonResponse j) = 200
  ∧ statusText (fakeJsonResponse j) = "OK"
  ∧ headers_get (fakeJsonResponse j) "Content-Type" = Some "application/json"
  ∧ indicates_json (headers_get (fakeJsonResponse j) "Content-Type") = true
  ∧ json (fakeJsonResponse j) = Done j
  ∧ getJSON (fakeJsonResponse j) σ =
      (Ok j, {| world := world σ; trace := trace σ ++ [EJson (fakeJsonResponse j)] |}).
Proof.
  repeat split; reflexivity.
Qed.

(** ** [normalizeTypeDescriptors] *)

Lemma own_props_wrap t : own_props (wrap t) = descriptor_of t.
Proof.
  unfold wrap, descriptor_of.
  destruct t; simpl; try reflexivity; apply insert_empty.
Qed.

Lemma wrap_identifier t :
  wrap t = if is_identifier t then obj [("type", t)] else t.
Proof. destruct t; reflexivity. Qed.

Lemma union_default (resolver : fn) (ps : gmap string value) :
  ps ∪ {[ "payload" := VFun resolver ∅ ]} = with_default resolver ps.
Proof.
  unfold with_default. destruct (ps !! "payload") as [p|] eqn:Hp.
  - apply map_eq. intros k. rewrite lookup_union.
    destruct (decide (k = "payload")) as [->|Hk].
    + rewrite Hp. reflexivity.
    + rewrite lookup_singleton_ne by congruence. destruct (ps !! k); reflexivity.
  - symmetry. apply insert_union_singleton_r, Hp.
Qed.

Lemma spread_default (resolver : fn) (t : value) :
  _extends [obj [("payload", VFun resolver ∅)]; t]
  = VObj (with_default resolver (own_props t)).
Proof.
  unfold _extends. simpl. rewrite (right_id ∅ (∪)), insert_empty.
  f_equal. apply union_default.
Qed.

Lemma with_default_set resolver ps :
  is_Some (ps !! "payload") → with_default resolver ps = ps.
Proof. intros [p Hp]. unfold with_default. rewrite Hp. reflexivity. Qed.

Lemma with_default_payload resolver ps :
  is_Some (with_default resolver ps !! "payload").
Proof.
  unfold with_default. destruct (ps !! "payload") as [p|] eqn:Hp.
  - rewrite Hp. eauto.
  - rewrite lookup_insert_eq. eauto.
Qed.

Lemma normalize_array r s f ps :
  normalizeTypeDescriptors (VArr [r; s; f] ps) =
    Done [if is_identifier r then obj [("type", r)] else r;
          VObj (with_default FSuccessPayload (descriptor_of s));
          VObj (with_default FFailurePayload (descriptor_of f))].
Proof.
  unfold normalizeTypeDescriptors. cbn [iterate nth].
  rewrite !spread_default, !own_props_wrap, wrap_identifier. reflexivity.
Qed.

Lemma normalize_shape types l :
  normalizeTypeDescriptors types = Done l →
  ∃ r sp fp, l = [wrap r; VObj sp; VObj fp]
             ∧ is_Some (sp !! "payload") ∧ is_Some (fp !! "payload").
Proof.
  unfold normalizeTypeDescriptors. destruct (iterate types) as [items|e]; [|discriminate].
  rewrite !spread_default. intros [= <-].
  eexists _, _, _. split; [reflexivity|]. split; apply with_default_payload.
Qed.

Lemma wrap_wrap t : wrap (wrap t) = wrap t.
Proof. destruct t; reflexivity. Qed.

(** C7.  The normalizer turns a bare identifier (string or symbol) into
    [{ type: identifier }]; in the success and failure slots it puts its
    default payload resolver exactly where the slot carries no payload of
    its own, and keeps every field the slot carries; a triple of full
    descriptors whose success and failure payloads are set comes back as it
    is; normalizing what the normalizer returned changes nothing; and the
    two default resolvers are the one that extracts the JSON body of the
    response and the one that builds an API error from it. *)
Theorem normalize_defaults :
  (∀ r s f ps,
     normalizeTypeDescriptors (VArr [r; s; f] ps) =
       Done [if is_identifier r then obj [("type", r)] else r;
             VObj (with_default FSuccessPayload (descriptor_of s));
             VObj (with_default FFailurePayload (descriptor_of f))])
  ∧ (∀ resolver slot k v,
       descriptor_of slot !! k = Some v →
       with_default resolver (descriptor_of slot) !! k = Some v)
  ∧ (∀ rp sp fp : gmap string value,
       is_Some (sp !! "payload") → is_Some (fp !! "payload") →
       normalizeTypeDescriptors (arr [VObj rp; VObj sp; VObj fp])
       = Done [VObj rp; VObj sp; VObj fp])
  ∧ (∀ types l,
       normalizeTypeDescriptors types = Done l →
       normalizeTypeDescriptors (arr l) = Done l)
  ∧ (∀ action state res σ,
       apply_fn FSuccessPayload [action; state; ARes res] σ = getJSON res σ)
  ∧ (∀ action state res σ,
       apply_fn FFailurePayload [action; state; ARes res] σ
       = (body ← getJSON res;
          mret (ApiError (status res) (statusText res) body)) σ).
Proof.
  split; [exact normalize_array|]. split; [|split; [|split; [|split; reflexivity]]].
  - intros resolver slot k v Hk. unfold with_default.
    destruct (descriptor_of slot !! "payload") eqn:Hp; [exact Hk|].
    rewrite lookup_insert_ne; [exact Hk|]. intros <-. congruence.
  - intros rp sp fp Hs Hf. unfold arr. rewrite normalize_array.
    cbn [is_identifier descriptor_of own_props].
    rewrite !with_default_set by assumption. reflexivity.
  - intros types l Hl. destruct (normalize_shape _ _ Hl) as (r & sp & fp & -> & Hs & Hf).
    unfold arr. rewrite normalize_array.
    cbn [is_identifier descriptor_of own_props].
    rewrite !with_default_set by assumption.
    rewrite <- wrap_identifier, wrap_wrap. reflexivity.
Qed.

(** ** What a computation adds to the trace *)

Section Emits.
Variable P : event → Prop.

Lemma emits_ret {A} (a : A) : emits P (mret a).
Proof. intros σ r σ' [= <- <-]. exists []. rewrite app_nil_r. auto. Qed.

Lemma emits_throw {A} e : emits P (@throw A e).
Proof. intros σ r σ' [= <- <-]. exists []. rewrite app_nil_r. auto. Qed.

Lemma emits_return {A} v : emits P (@return_ A v).
Proof. intros σ r σ' [= <- <-]. exists []. rewrite app_nil_r. auto. Qed.

Lemma emits_lift {A} (r : result A) : emits P (lift r).
Proof. destruct r; [apply emits_ret|apply emits_throw]. Qed.

Lemma emits_getState : emits P getState_.
Proof. intros σ r σ' [= <- <-]. exists []. rewrite app_nil_r. auto. Qed.

Lemma emits_host {A} (f : W → result A * W) : emits P (host f).
Proof.
  intros σ r σ'. unfold host. destruct (f (world σ)) as [[a|e] w];
    intros [= <- <-]; exists []; simpl; rewrite app_nil_r; auto.
Qed.

Lemma emits_log ev : P ev → emits P (log ev).
Proof. intros Hev σ r σ' [= <- <-]. exists [ev]. simpl. auto. Qed.

Lemma emits_bind {A B} (m : eff A) (f : A → eff B) :
  emits P m → (∀ a, emits P (f a)) → emits P (m ≫= f).
Proof.
  intros Hm Hf σ r σ' H. rewrite bind_run in H.
  destruct (m σ) as [[a|e|v] σ1] eqn:E.
  - destruct (Hm _ _ _ E) as (evs1 & T1 & F1).
    destruct (Hf a _ _ _ H) as (evs2 & T2 & F2).
    exists (evs1 ++ evs2). rewrite T2, T1, app_assoc. split; [reflexivity|].
    apply Forall_app; auto.
  - injection H as <- <-. eauto.
  - injection H as <- <-. eauto.
Qed.

Lemma emits_try {A} (m : eff A) : emits P m → emits P (try_ m).
Proof.
  intros Hm σ r σ' H. unfold try_ in H.
  destruct (m σ) as [[a|e|v] σ1] eqn:E; injection H as <- <-; eauto.
Qed.

Lemma emits_if {A} (b : bool) (m1 m2 : eff A) :
  emits P m1 → emits P m2 → emits P (if b then m1 else m2).
Proof. destruct b; auto. Qed.

End Emits.

Lemma emits_weaken (P Q : event → Prop) {A} (m : eff A) :
  (∀ ev, P ev → Q ev) → emits P m → emits Q m.
Proof.
  intros HPQ Hm σ r σ' H. destruct (Hm _ _ _ H) as (evs & T & F).
  exists evs. split; [exact T|]. eapply Forall_impl; eauto.
Qed.

Create HintDb emits.
#[local] Hint Resolve emits_ret emits_throw emits_return emits_lift emits_getState
  emits_host emits_bind emits_try emits_if : emits.

Lemma silent_getJSON res : emits silent (getJSON res).
Proof.
  unfold getJSON. apply emits_if; [|auto with emits].
  apply emits_bind; [apply emits_log; exact I|auto with emits].
Qed.

Lemma silent_apply_fn f args : emits silent (apply_fn f args).
Proof.
  destruct f as [n| |]; simpl.
  - apply emits_bind; [apply emits_log; exact I|auto with emits].
  - destruct (args !! 2%nat) as [[]|]; auto using silent_getJSON with emits.
  - destruct (args !! 2%nat) as [[]|]; auto using silent_getJSON with emits.
Qed.

Lemma silent_call f args : emits silent (call f args).
Proof. destruct f; simpl; auto using silent_apply_fn with emits. Qed.

Lemma silent_await v : emits silent (await_ v).
Proof. unfold await_. destruct (then_of v); auto using silent_call with emits. Qed.

Lemma silent_evaluate p args : emits silent (evaluate p args).
Proof. unfold evaluate. auto using silent_call with emits. Qed.

Lemma silent_settle p args : emits silent (settle p args).
Proof. unfold settle. auto using silent_evaluate, silent_await with emits. Qed.

Lemma silent_resolve d k args : emits silent (resolve d k args).
Proof. unfold resolve. auto using silent_settle with emits. Qed.

Lemma silent_actionWith d args : emits silent (actionWith d args).
Proof.
  unfold actionWith.
  apply emits_bind; [auto 6 using silent_resolve with emits|]. intros r1.
  apply emits_bind; [destruct r1; auto 8 with emits|]. intros d1.
  apply emits_bind; [auto 6 using silent_resolve with emits|]. intros r2.
  destruct r2; auto 10 with emits.
Qed.

Lemma forwarded_app t1 t2 : forwarded (t1 ++ t2) = forwarded t1 ++ forwarded t2.
Proof. apply omap_app. Qed.

Lemma fetched_app t1 t2 : fetched (t1 ++ t2) = fetched t1 || fetched t2.
Proof. apply existsb_app. Qed.

Lemma silent_forwarded evs : Forall silent evs → forwarded evs = [] ∧ fetched evs = false.
Proof.
  induction 1 as [|ev evs Hev _ [IH1 IH2]]; [auto|].
  destruct ev; try contradiction; simpl; auto.
Qed.

(** A computation that adds only silent events forwards nothing and leaves
    the transport alone. *)
Lemma silent_run {A} (m : eff A) σ r σ' :
  emits silent m → m σ = (r, σ') →
  forwarded (trace σ') = forwarded (trace σ) ∧ fetched (trace σ') = fetched (trace σ).
Proof.
  intros Hm H. destruct (Hm _ _ _ H) as (evs & -> & F).
  destruct (silent_forwarded _ F) as [F1 F2].
  rewrite forwarded_app, fetched_app, F1, F2, app_nil_r, orb_false_r. auto.
Qed.

(** ** Places and thenables *)

Lemma plug_get holder place d :
  get_at holder place = Some d → plug holder place d = holder.
Proof.
  revert holder. induction place as [|s place IH]; intros holder; cbn [get_at plug].
  - intros [= ->]. reflexivity.
  - destruct (child holder s) as [c|] eqn:Hc; [|discriminate].
    cbn [mbind option_bind]. intros Hd. rewrite (IH _ Hd).
    destruct s as [k|i], holder; cbn [child] in Hc; try discriminate; cbn [put_child];
      f_equal; first [apply insert_id, Hc | apply list_insert_id, Hc].
Qed.

Lemma present_values (d : value) (vs : list value) :
  present d (AVal <$> vs) = AVal <$> vs.
Proof. induction vs as [|v vs IH]; [reflexivity|]. cbn. f_equal. exact IH. Qed.

Lemma thenable_error cls (message : value) :
  thenable (VErr cls {[ "message" := message ]}) = false.
Proof. reflexivity. Qed.

Lemma thenable_ApiError status statusText response :
  thenable (ApiError status statusText response) = false.
Proof. reflexivity. Qed.

Lemma await_plain v σ : thenable v = false → await_ v σ = (Ok v, σ).
Proof. unfold thenable, await_. destruct (then_of v); [discriminate|reflexivity]. Qed.

Lemma thenable_insert ps k v :
  k ≠ "then" → thenable (VObj (<[k := v]> ps)) = thenable (VObj ps).
Proof.
  intros Hk. unfold thenable, then_of. rewrite lookup_insert_ne by exact Hk. reflexivity.
Qed.

Lemma thenable_delete ps k :
  k ≠ "then" → thenable (VObj (delete k ps)) = thenable (VObj ps).
Proof.
  intros Hk. unfold thenable, then_of. rewrite lookup_delete_ne by exact Hk. reflexivity.
Qed.

Lemma no_then_obj ps : no_then (VObj ps) ↔ thenable (VObj ps) = false.
Proof. reflexivity. Qed.

Lemma thenable_fsa_of ps payload meta :
  thenable (fsa_of ps payload meta) = thenable (VObj ps).
Proof. unfold fsa_of. rewrite !thenable_insert by discriminate. reflexivity. Qed.

Lemma thenable_error_fsa requestType message m :
  thenable (error_fsa requestType message m) = thenable (VObj (own_props requestType)).
Proof. unfold error_fsa. rewrite !thenable_insert by discriminate. reflexivity. Qed.

Lemma thenable_meta_error_fsa requestType message :
  thenable (meta_error_fsa requestType message)
  = thenable (VObj (own_props requestType)).
Proof.
  unfold meta_error_fsa. rewrite !thenable_insert by discriminate.
  apply thenable_delete. discriminate.
Qed.

(** ** [actionWith] *)

Lemma try_run {A} (m : eff A) σ :
  try_ m σ =
  match m σ with
  | (Ok a, σ') => (Ok (Done a), σ')
  | (Throw e, σ') => (Ok (Fail e), σ')
  | (Return v, σ') => (Return v, σ')
  end.
Proof. reflexivity. Qed.

Ltac eff_simpl :=
  repeat first
    [ rewrite bind_run
    | rewrite try_run
    | progress cbn [mret eff_ret lift throw return_ try_ getState_
                    set_prop get_prop delete_prop fst snd world trace] ].

Lemma settle_run p args σ :
  settle p args σ =
  match evaluate p args σ with
  | (Ok v, σ1) => await_ v σ1
  | (Throw e, σ1) => (Throw e, σ1)
  | (Return v, σ1) => (Return v, σ1)
  end.
Proof. reflexivity. Qed.

Lemma evaluate_static p args σ :
  is_function p = false → evaluate p args σ = (Ok p, σ).
Proof. intros H. unfold evaluate. unfold is_function in H. rewrite H. reflexivity. Qed.

(** A payload or meta that is neither a function nor a thenable is what
    it settles to. *)
Lemma settle_static p args σ :
  is_static p = true → settle p args σ = (Ok p, σ).
Proof.
  unfold is_static. intros H. apply andb_prop in H as [Hf Ht].
  apply negb_true_iff in Hf, Ht.
  rewrite settle_run, (evaluate_static _ _ _ Hf). apply await_plain, Ht.
Qed.

(** The function is called and what it returns is no thenable. *)
Lemma settle_called p args σ v σ1 :
  is_function p = true →
  call p args σ = (Ok v, σ1) →
  thenable v = false →
  settle p args σ = (Ok v, σ1).
Proof.
  intros Hf Hcall Ht. rewrite settle_run. unfold evaluate.
  unfold is_function in Hf. rewrite Hf, Hcall. apply await_plain, Ht.
Qed.

Lemma settle_call_throws p args σ e σ1 :
  is_function p = true →
  call p args σ = (Throw e, σ1) →
  settle p args σ = (Throw e, σ1).
Proof.
  intros Hf Hcall. rewrite settle_run. unfold evaluate.
  unfold is_function in Hf. rewrite Hf, Hcall. reflexivity.
Qed.

Lemma resolve_obj ps k args σ :
  resolve (VObj ps) k args σ
  = settle (default VUndef (ps !! k)) (present (VObj ps) args) σ.
Proof. reflexivity. Qed.

(** Both resolvers settle: the descriptor gets the two values.  The meta
    resolver is given the descriptor with its payload resolved. *)
Lemma actionWith_settled ps args σ p σ1 m σ2 :
  settle (default VUndef (ps !! "payload")) (present (VObj ps) args) σ = (Ok p, σ1) →
  settle (default VUndef (ps !! "meta"))
    (present (VObj (<["payload" := p]> ps)) args) σ1 = (Ok m, σ2) →
  actionWith (VObj ps) args σ
  = (Ok (VObj (<["meta" := m]> (<["payload" := p]> ps))), σ2).
Proof.
  intros Hp Hm. unfold actionWith. eff_simpl.
  rewrite resolve_obj, Hp. eff_simpl.
  rewrite resolve_obj, lookup_insert_ne by discriminate.
  rewrite Hm. reflexivity.
Qed.

(** The payload resolver throws a value that has a [message]. *)
Lemma actionWith_payload_throws ps args σ e message σ1 m σ2 :
  settle (default VUndef (ps !! "payload")) (present (VObj ps) args) σ = (Throw e, σ1) →
  get_prop e "message" = Done message →
  settle (default VUndef (ps !! "meta"))
    (present (VObj (<["error" := VBool true]>
                    (<["payload" := InternalError message]> ps))) args) σ1
    = (Ok m, σ2) →
  actionWith (VObj ps) args σ
  = (Ok (VObj (<["meta" := m]>
               (<["error" := VBool true]>
                (<["payload" := InternalError message]> ps)))), σ2).
Proof.
  intros Hp He Hm. unfold actionWith. eff_simpl.
  rewrite resolve_obj, Hp. eff_simpl. rewrite He. eff_simpl.
  rewrite resolve_obj, !lookup_insert_ne by discriminate.
  rewrite Hm. reflexivity.
Qed.

(** The meta resolver throws a value that has a [message]: [meta] is
    deleted and the payload, though it had resolved, is overwritten. *)
Lemma actionWith_meta_throws ps args σ p σ1 e message σ2 :
  settle (default VUndef (ps !! "payload")) (present (VObj ps) args) σ = (Ok p, σ1) →
  settle (default VUndef (ps !! "meta"))
    (present (VObj (<["payload" := p]> ps)) args) σ1 = (Throw e, σ2) →
  get_prop e "message" = Done message →
  actionWith (VObj ps) args σ
  = (Ok (VObj (<["error" := VBool true]>
               (<["payload" := InternalError message]>
                (delete "meta" (<["payload" := p]> ps))))), σ2).
Proof.
  intros Hp Hm He. unfold actionWith. eff_simpl.
  rewrite resolve_obj, Hp. eff_simpl.
  rewrite resolve_obj, lookup_insert_ne by discriminate.
  rewrite Hm. eff_simpl. rewrite He. eff_simpl. reflexivity.
Qed.

(** Both resolvers throw: the meta handler has the last word. *)
Lemma actionWith_both_throw ps args σ e1 message1 σ1 e2 message2 σ2 :
  settle (default VUndef (ps !! "payload")) (present (VObj ps) args) σ = (Throw e1, σ1) →
  get_prop e1 "message" = Done message1 →
  settle (default VUndef (ps !! "meta"))
    (present (VObj (<["error" := VBool true]>
                    (<["payload" := InternalError message1]> ps))) args) σ1
    = (Throw e2, σ2) →
  get_prop e2 "message" = Done message2 →
  actionWith (VObj ps) args σ
  = (Ok (VObj (<["error" := VBool true]>
               (<["payload" := InternalError message2]>
                (delete "meta"
                   (<["error" := VBool true]>
                    (<["payload" := InternalError message1]> ps)))))), σ2).
Proof.
  intros Hp He1 Hm He2. unfold actionWith. eff_simpl.
  rewrite resolve_obj, Hp. eff_simpl. rewrite He1. eff_simpl.
  rewrite resolve_obj, !lookup_insert_ne by discriminate.
  rewrite Hm. eff_simpl. rewrite He2. eff_simpl. reflexivity.
Qed.

(** The slip in the two handlers: they read [e.message], which throws when
    the resolver threw (or rejected with) [undefined] or [null]. *)
Lemma actionWith_payload_throws_nullish ps args σ e σ1 :
  settle (default VUndef (ps !! "payload")) (present (VObj ps) args) σ = (Throw e, σ1) →
  e = VUndef ∨ e = VNull →
  actionWith (VObj ps) args σ
  = (Throw (TypeError "Cannot read property message"), σ1).
Proof.
  intros Hp He. unfold actionWith. eff_simpl.
  rewrite resolve_obj, Hp. eff_simpl.
  destruct He as [-> | ->]; reflexivity.
Qed.

Lemma actionWith_meta_throws_nullish ps args σ p σ1 e σ2 :
  settle (default VUndef (ps !! "payload")) (present (VObj ps) args) σ = (Ok p, σ1) →
  settle (default VUndef (ps !! "meta"))
    (present (VObj (<["payload" := p]> ps)) args) σ1 = (Throw e, σ2) →
  e = VUndef ∨ e = VNull →
  actionWith (VObj ps) args σ
  = (Throw (TypeError "Cannot read property message"), σ2).
Proof.
  intros Hp Hm He. unfold actionWith. eff_simpl.
  rewrite resolve_obj, Hp. eff_simpl.
  rewrite resolve_obj, lookup_insert_ne by discriminate.
  rewrite Hm. eff_simpl.
  destruct He as [-> | ->]; reflexivity.
Qed.

Lemma call_no_return f args σ v σ' : call f args σ ≠ (Return v, σ').
Proof.
  destruct f as [| | | | | | | |f ps|]; try discriminate. cbn [call].
  destruct f as [n| |]; cbn [apply_fn].
  - rewrite bind_run. cbn [log]. unfold host. cbn [world trace].
    destruct (call_user n args (world σ)) as [[a|e] w]; discriminate.
  - destruct (args !! 2%nat) as [[a|res|h pl| |]|]; try discriminate.
    rewrite getJSON_run. destruct (empty_body res); [discriminate|].
    destruct (json res); discriminate.
  - destruct (args !! 2%nat) as [[a|res|h pl| |]|]; try discriminate.
    rewrite bind_run, getJSON_run. destruct (empty_body res); [discriminate|].
    destruct (json res); discriminate.
Qed.

Lemma await_no_return x σ v σ' : await_ x σ ≠ (Return v, σ').
Proof.
  unfold await_. destruct (then_of x); [apply call_no_return|discriminate].
Qed.

Lemma evaluate_no_return p args σ v σ' : evaluate p args σ ≠ (Return v, σ').
Proof.
  unfold evaluate. destruct (String.eqb (typeof p) "function");
    [apply call_no_return|discriminate].
Qed.

Lemma settle_no_return p args σ v σ' : settle p args σ ≠ (Return v, σ').
Proof.
  rewrite settle_run. destruct (evaluate p args σ) as [[x|e|x] σ1] eqn:E.
  - apply await_no_return.
  - discriminate.
  - destruct (evaluate_no_return _ _ _ _ _ E).
Qed.

(** When every value that a resolver throws has a [message], [actionWith]
    returns a notification for every object descriptor. *)
Lemma actionWith_returns ps args σ :
  (∀ d p σa e σb, settle p (present d args) σa = (Throw e, σb) →
                  ∃ message, get_prop e "message" = Done message) →
  ∃ fsa σ', actionWith (VObj ps) args σ = (Ok fsa, σ').
Proof.
  intros Hmsg.
  destruct (settle (default VUndef (ps !! "payload")) (present (VObj ps) args) σ)
    as [[p|e1|v] σ1] eqn:Hp.
  - destruct (settle (default VUndef (ps !! "meta"))
                (present (VObj (<["payload" := p]> ps)) args) σ1)
      as [[m|e2|v] σ2] eqn:Hm.
    + eexists _, _. eapply actionWith_settled; eauto.
    + destruct (Hmsg _ _ _ _ _ Hm) as [message2 He2].
      eexists _, _. eapply actionWith_meta_throws; eauto.
    + destruct (settle_no_return _ _ _ _ _ Hm).
  - destruct (Hmsg _ _ _ _ _ Hp) as [message1 He1].
    destruct (settle (default VUndef (ps !! "meta"))
                (present (VObj (<["error" := VBool true]>
                                (<["payload" := InternalError message1]> ps))) args) σ1)
      as [[m|e2|v] σ2] eqn:Hm.
    + eexists _, _. eapply actionWith_payload_throws; eauto.
    + destruct (Hmsg _ _ _ _ _ Hm) as [message2 He2].
      eexists _, _. eapply actionWith_both_throw; eauto.
    + destruct (settle_no_return _ _ _ _ _ Hm).
  - destruct (settle_no_return _ _ _ _ _ Hp).
Qed.

(** ** The steps of [apiMiddleware] *)

Lemma extends_error requestType message :
  _extends [requestType; obj [("payload", RequestError message); ("error", VBool true)]]
  = VObj (<["payload" := RequestError message]>
          (<["error" := VBool true]> (own_props requestType))).
Proof.
  unfold _extends, obj. cbn [foldl own_props list_to_map foldr uncurry].
  rewrite (right_id ∅ (∪)), <- !insert_union_l, (left_id ∅ (∪)). reflexivity.
Qed.

Lemma extends_failure failureType :
  _extends [failureType; obj [("error", VBool true)]]
  = VObj (<["error" := VBool true]> (own_props failureType)).
Proof.
  unfold _extends, obj. cbn [foldl own_props list_to_map foldr uncurry].
  rewrite (right_id ∅ (∪)), <- !insert_union_l, (left_id ∅ (∪)). reflexivity.
Qed.

(** The error handler, when the request type's meta resolver settles. *)
Lemma request_error_run {A} action requestType message σ m σ1 :
  no_then requestType →
  settle (meta_of requestType) [AVal action; AVal (getState (world σ))] σ = (Ok m, σ1) →
  @request_error A action requestType message σ
  = return_next (error_fsa requestType message m) σ1.
Proof.
  intros Hthen Hm. unfold request_error. eff_simpl. rewrite extends_error.
  erewrite actionWith_settled.
  - rewrite insert_insert_eq, bind_run, await_plain; [reflexivity|].
    rewrite !thenable_insert by discriminate. exact Hthen.
  - rewrite lookup_insert_eq. apply settle_static. reflexivity.
  - rewrite !lookup_insert_ne by discriminate. exact Hm.
Qed.

Lemma process_run action c name field σ :
  process action c name field σ =
  match evaluate field [AVal (getState (world σ))] σ with
  | (Ok v, σ1) => (Ok v, σ1)
  | (Throw e, σ1) =>
      request_error action (c_requestType c)
        (VStr ("[CALL_API]." ++ name ++ " function failed")%string) σ1
  | (Return v, σ1) => (Return v, σ1)
  end.
Proof.
  unfold process, evaluate. destruct (String.eqb (typeof field) "function").
  - eff_simpl. destruct (call field _ σ) as [[v|e|v] σ1]; reflexivity.
  - reflexivity.
Qed.

Lemma bail_out_run action c σ :
  bail_out action c σ =
  if String.eqb (typeof (c_bailout c)) "boolean" && truthy (c_bailout c)
  then (Return VUndef, σ)
  else if String.eqb (typeof (c_bailout c)) "function" then
    match call (c_bailout c) [AVal (getState (world σ))] σ with
    | (Ok b, σ1) => if truthy b then (Return VUndef, σ1) else (Ok tt, σ1)
    | (Throw e, σ1) =>
        request_error action (c_requestType c)
          (VStr "[CALL_API].bailout function failed") σ1
    | (Return v, σ1) => (Return v, σ1)
    end
  else (Ok tt, σ).
Proof.
  unfold bail_out. eff_simpl.
  destruct (String.eqb (typeof (c_bailout c)) "boolean" && truthy (c_bailout c));
    [reflexivity|].
  destruct (String.eqb (typeof (c_bailout c)) "function"); [|reflexivity].
  eff_simpl.
  destruct (call (c_bailout c) _ σ) as [[b|e|v] σ1]; eff_simpl; try reflexivity.
  destruct (truthy b); reflexivity.
Qed.

Lemma bail_out_function action c σ :
  typeof (c_bailout c) = "function" →
  bail_out action c σ =
  match call (c_bailout c) [AVal (getState (world σ))] σ with
  | (Ok b, σ1) => if truthy b then (Return VUndef, σ1) else (Ok tt, σ1)
  | (Throw e, σ1) =>
      request_error action (c_requestType c)
        (VStr "[CALL_API].bailout function failed") σ1
  | (Return v, σ1) => (Return v, σ1)
  end.
Proof. intros Hty. rewrite bail_out_run, Hty. reflexivity. Qed.

(** Parsing reads the action and touches nothing. *)
Lemma parse_pure action σ r σ' : parse action σ = (r, σ') → σ' = σ.
Proof.
  unfold parse.
  repeat (rewrite bind_run;
          match goal with
          | |- context [lift ?x σ] => destruct x; cbn [lift throw mret eff_ret]
          end; [|intros [= _ <-]; reflexivity]).
  intros [= _ <-]; reflexivity.
Qed.

Lemma apiMiddleware_valid action σ c :
  isRSAA action = true → validateRSAA action = [] →
  parse action σ = (Ok c, σ) →
  apiMiddleware action σ =
    (bail_out action c;;
     endpoint ← process action c "endpoint" (c_endpoint c);
     headers ← process action c "headers" (c_headers c);
     options ← process action c "options" (c_options c);
     requestType ← dispatch_request action c;
     call_api action c endpoint headers options requestType) σ.
Proof.
  intros Hr Hv Hp. unfold apiMiddleware. rewrite Hr, Hv. cbn [negb List.length Nat.eqb].
  rewrite bind_run, Hp. reflexivity.
Qed.

Lemma request_error_abrupt {A} action requestType message σ (a : A) σ' :
  request_error action requestType message σ ≠ (Ok a, σ').
Proof.
  unfold request_error. eff_simpl.
  destruct (actionWith _ _ σ) as [[fsa|e|v] σ1]; try discriminate.
  rewrite bind_run. destruct (await_ fsa σ1) as [[x|e|v] σ2]; try discriminate.
  rewrite return_next_run. destruct (next x (world σ2)) as [[v|e] w]; discriminate.
Qed.

Lemma bail_out_passed action c σ σ1 :
  bail_out action c σ = (Ok tt, σ1) →
  forwarded (trace σ1) = forwarded (trace σ) ∧ fetched (trace σ1) = fetched (trace σ).
Proof.
  rewrite bail_out_run.
  destruct (_ && _); [discriminate|].
  destruct (String.eqb _ _); [|intros [= <-]; auto].
  destruct (call _ _ σ) as [[b|e|v] σ2] eqn:Hcall; try discriminate.
  - destruct (truthy b); [discriminate|]. intros [= <-].
    exact (silent_run _ _ _ _ (silent_call _ _) Hcall).
  - intros H. destruct (request_error_abrupt _ _ _ _ _ _ H).
Qed.

Lemma evaluate_fields_cons field fields σ vs σ' :
  evaluate_fields (field :: fields) σ = (Ok vs, σ') →
  ∃ v vs' σ1,
    evaluate field [AVal (getState (world σ))] σ = (Ok v, σ1)
    ∧ evaluate_fields fields σ1 = (Ok vs', σ')
    ∧ vs = v :: vs'.
Proof.
  cbn [evaluate_fields]. eff_simpl.
  destruct (evaluate field _ σ) as [[v|e|v] σ1]; try discriminate.
  eff_simpl.
  destruct (evaluate_fields fields σ1) as [[vs'|e|v'] σ2] eqn:Hrest; try discriminate.
  eff_simpl. intros [= <- <-]. eauto 6.
Qed.

Lemma evaluate_fields_nil σ vs σ' :
  evaluate_fields [] σ = (Ok vs, σ') → vs = [] ∧ σ' = σ.
Proof. intros [= <- <-]. auto. Qed.

Lemma silent_evaluate_fields fields : emits silent (evaluate_fields fields).
Proof.
  induction fields as [|field fields IH]; cbn [evaluate_fields];
    auto 8 using silent_evaluate with emits.
Qed.

Lemma process_settled action c name field σ v σ1 :
  evaluate field [AVal (getState (world σ))] σ = (Ok v, σ1) →
  process action c name field σ = (Ok v, σ1).
Proof. intros H. rewrite process_run, H. reflexivity. Qed.

Lemma process_failed action c name field σ e σ1 m σ2 :
  no_then (c_requestType c) →
  evaluate field [AVal (getState (world σ))] σ = (Throw e, σ1) →
  settle (meta_of (c_requestType c)) [AVal action; AVal (getState (world σ1))] σ1
    = (Ok m, σ2) →
  process action c name field σ
  = return_next
      (error_fsa (c_requestType c)
         (VStr ("[CALL_API]." ++ name ++ " function failed")%string) m) σ2.
Proof.
  intros Hthen H Hm. rewrite process_run, H. apply request_error_run; assumption.
Qed.

Lemma process_passed action c name field σ v σ1 :
  process action c name field σ = (Ok v, σ1) →
  forwarded (trace σ1) = forwarded (trace σ) ∧ fetched (trace σ1) = fetched (trace σ).
Proof.
  rewrite process_run.
  destruct (evaluate field _ σ) as [[v'|e|v'] σ2] eqn:Hs; try discriminate.
  - intros [= <- <-]. exact (silent_run _ _ _ _ (silent_evaluate _ _) Hs).
  - intros H. destruct (request_error_abrupt _ _ _ _ _ _ H).
Qed.

Lemma dispatch_request_passed action c σ requestType σ1 :
  dispatch_request action c σ = (Ok requestType, σ1) →
  thenable requestType = false →
  forwarded (trace σ1) = forwarded (trace σ) ++ [requestType]
  ∧ fetched (trace σ1) = fetched (trace σ).
Proof.
  unfold dispatch_request. eff_simpl.
  destruct (actionWith _ _ σ) as [[fsa|e|v] σ2] eqn:Ha; try discriminate.
  destruct (silent_run _ _ _ _ (silent_actionWith _ _) Ha) as [Hf Hg].
  eff_simpl. intros H Hthen.
  destruct (await_ fsa σ2) as [[x|e|v] σ3] eqn:Hx; try discriminate.
  rewrite bind_run, next_run in H.
  destruct (next x (world σ3)) as [[v|e] w]; try discriminate.
  cbn [mret eff_ret] in H. injection H as -> <-.
  rewrite (await_plain _ _ Hthen) in Hx. injection Hx as <- <-. cbn [trace].
  rewrite forwarded_app, fetched_app, Hf, Hg. simpl. rewrite orb_false_r. auto.
Qed.

Lemma reaches_transport_forwarded action c endpoint headers options requestType σ0 σ1 :
  reaches_transport action c endpoint headers options requestType σ0 σ1 →
  forwarded (trace σ1) = forwarded (trace σ0) ++ [requestType]
  ∧ fetched (trace σ1) = fetched (trace σ0).
Proof.
  intros (σa & σb & σc & σd & _ & Hb & He & Hh & Ho & Hd & Hthen).
  destruct (bail_out_passed _ _ _ _ Hb) as [Hf1 Hg1].
  destruct (process_passed _ _ _ _ _ _ _ He) as [Hf2 Hg2].
  destruct (process_passed _ _ _ _ _ _ _ Hh) as [Hf3 Hg3].
  destruct (process_passed _ _ _ _ _ _ _ Ho) as [Hf4 Hg4].
  destruct (dispatch_request_passed _ _ _ _ _ Hd Hthen) as [Hf5 Hg5].
  split; congruence.
Qed.

Lemma reaches_transport_run action c endpoint headers options requestType σ0 σ1 :
  isRSAA action = true → validateRSAA action = [] →
  reaches_transport action c endpoint headers options requestType σ0 σ1 →
  apiMiddleware action σ0 = call_api action c endpoint headers options requestType σ1.
Proof.
  intros Hr Hv (σa & σb & σc & σd & Hp & Hb & He & Hh & Ho & Hd & _).
  rewrite (apiMiddleware_valid _ _ _ Hr Hv Hp).
  rewrite bind_run, Hb, bind_run, He, bind_run, Hh, bind_run, Ho, bind_run, Hd.
  reflexivity.
Qed.

Lemma fetch_run endpoint config σ :
  fetch_ endpoint config σ =
  match fetch endpoint config (world σ) with
  | (Done res, w) => (Ok res, after_fetch σ endpoint config w)
  | (Fail e, w) => (Throw e, after_fetch σ endpoint config w)
  end.
Proof. reflexivity. Qed.

(** The default resolvers, when the body extraction settles. *)
Lemma settle_success_default action state res σ body σ1 :
  getJSON res σ = (Ok body, σ1) →
  thenable body = false →
  settle (VFun FSuccessPayload ∅) [AVal action; AVal state; ARes res] σ = (Ok body, σ1).
Proof.
  intros Hjson Ht. apply settle_called; [reflexivity|exact Hjson|exact Ht].
Qed.

Lemma settle_failure_default action state res σ body σ1 :
  getJSON res σ = (Ok body, σ1) →
  settle (VFun FFailurePayload ∅) [AVal action; AVal state; ARes res] σ
  = (Ok (ApiError (status res) (statusText res) body), σ1).
Proof.
  intros Hjson. apply settle_called; [reflexivity| |apply thenable_ApiError].
  cbn [call apply_fn lookup list_lookup]. rewrite bind_run, Hjson. reflexivity.
Qed.

(** The transport answered with a response that is not [ok]; the failure
    descriptor carries the default payload resolver. *)
Lemma call_api_failure action c endpoint headers options requestType σ res w
      body σ3 m σ4 :
  fetch endpoint (config_of c options headers) (world σ) = (Done res, w) →
  ok res = false →
  no_then (c_failureType c) →
  own_props (c_failureType c) !! "payload" = Some (VFun FFailurePayload ∅) →
  getJSON res (after_fetch σ endpoint (config_of c options headers) w) = (Ok body, σ3) →
  settle (meta_of (c_failureType c))
    [AVal (seen action requestType); AVal (getState w); ARes res] σ3
    = (Ok m, σ4) →
  call_api action c endpoint headers options requestType σ
  = return_next
      (fsa_of (<["error" := VBool true]> (own_props (c_failureType c)))
         (ApiError (status res) (statusText res) body) m) σ4.
Proof.
  intros Hfetch Hok Hthen Hpayload Hjson Hmeta. unfold call_api.
  rewrite bind_run, try_run, fetch_run, Hfetch, Hok. eff_simpl.
  rewrite extends_failure. erewrite actionWith_settled.
  - rewrite bind_run, await_plain; [reflexivity|].
    rewrite !thenable_insert by discriminate. exact Hthen.
  - rewrite lookup_insert_ne by discriminate. rewrite Hpayload.
    apply settle_failure_default. exact Hjson.
  - rewrite lookup_insert_ne by discriminate. exact Hmeta.
Qed.

(** The transport threw a value that has a [message]. *)
Lemma call_api_throw action c endpoint headers options requestType σ e w
      message m σ3 :
  fetch endpoint (config_of c options headers) (world σ) = (Fail e, w) →
  get_prop e "message" = Done message →
  no_then requestType →
  settle (meta_of requestType) [AVal (seen action requestType); AVal (getState w)]
    (after_fetch σ endpoint (config_of c options headers) w) = (Ok m, σ3) →
  call_api action c endpoint headers options requestType σ
  = return_next (error_fsa requestType message m) σ3.
Proof.
  intros Hfetch He Hthen Hmeta. unfold call_api.
  rewrite bind_run, try_run, fetch_run, Hfetch. eff_simpl. rewrite He. eff_simpl.
  apply request_error_run; assumption.
Qed.

(** What [parse] leaves in the three type descriptors. *)
Lemma parse_normalized action σ c σ' :
  parse action σ = (Ok c, σ') →
  ∃ slot sp fp,
    c_requestType c = wrap slot
    ∧ c_successType c = VObj sp ∧ is_Some (sp !! "payload")
    ∧ c_failureType c = VObj fp ∧ is_Some (fp !! "payload").
Proof.
  unfold parse.
  repeat (rewrite bind_run;
          match goal with
          | |- context [lift ?x σ] => destruct x eqn:?; cbn [lift throw mret eff_ret]
          end; [|discriminate]).
  intros [= <- _].
  match goal with
  | H : normalizeTypeDescriptors _ = Done _ |- _ =>
      destruct (normalize_shape _ _ H) as (r & sp & fp & -> & Hs & Hf)
  end.
  cbn [c_requestType c_successType c_failureType nth]. eauto 10.
Qed.

(** The transport answered with a response that is [ok]; the success
    descriptor carries the default payload resolver. *)
Lemma call_api_success action c endpoint headers options requestType σ res w
      body σ3 m σ4 :
  fetch endpoint (config_of c options headers) (world σ) = (Done res, w) →
  ok res = true →
  (∃ sp, c_successType c = VObj sp) →
  no_then (c_successType c) →
  own_props (c_successType c) !! "payload" = Some (VFun FSuccessPayload ∅) →
  getJSON res (after_fetch σ endpoint (config_of c options headers) w) = (Ok body, σ3) →
  thenable body = false →
  settle (meta_of (c_successType c))
    [AVal (seen action requestType); AVal (getState w); ARes res] σ3
    = (Ok m, σ4) →
  call_api action c endpoint headers options requestType σ
  = return_next (fsa_of (own_props (c_successType c)) body m) σ4.
Proof.
  intros Hfetch Hok [sp Hsp] Hthen Hpayload Hjson Hbody Hmeta. unfold call_api.
  rewrite bind_run, try_run, fetch_run, Hfetch, Hok. eff_simpl.
  rewrite Hsp in *. unfold no_then in Hthen.
  cbn [own_props] in *. unfold meta_of in Hmeta. cbn [own_props] in Hmeta.
  erewrite actionWith_settled.
  - rewrite bind_run, await_plain; [reflexivity|].
    rewrite !thenable_insert by discriminate. exact Hthen.
  - rewrite Hpayload. apply settle_success_default; [exact Hjson|exact Hbody].
  - exact Hmeta.
Qed.

Lemma any_actionWith d args : emits any_event (actionWith d args).
Proof. eapply emits_weaken; [|apply silent_actionWith]. intros; exact I. Qed.

Lemma any_return_next {A} fsa : emits any_event (@return_next A fsa).
Proof.
  unfold return_next, next_.
  apply emits_bind; [|auto with emits].
  apply emits_bind; [apply emits_log; exact I|auto with emits].
Qed.

Lemma any_await v : emits any_event (await_ v).
Proof. eapply emits_weaken; [|apply silent_await]. intros; exact I. Qed.

Lemma any_request_error {A} action requestType message :
  emits any_event (@request_error A action requestType message).
Proof.
  unfold request_error.
  auto 8 using any_actionWith, any_await, any_return_next with emits.
Qed.

(** Whatever the transport does, the call to it is the first thing that
    [call_api] adds to the trace. *)
Lemma call_api_grows action c endpoint headers options requestType σ r σ' :
  call_api action c endpoint headers options requestType σ = (r, σ') →
  ∃ rest, trace σ' = trace σ ++ EFetch endpoint (config_of c options headers) :: rest.
Proof.
  unfold call_api. rewrite bind_run, try_run, fetch_run.
  set (config := config_of c options headers).
  assert (Hgrow : ∀ (m : eff value) w,
            emits any_event m →
            m (after_fetch σ endpoint config w) = (r, σ') →
            ∃ rest, trace σ' = trace σ ++ EFetch endpoint config :: rest).
  { intros m w Hm H. destruct (Hm _ _ _ H) as (evs & -> & _).
    exists evs. cbn [after_fetch trace]. rewrite <- app_assoc. reflexivity. }
  destruct (fetch endpoint config (world σ)) as [[res|e] w]; apply Hgrow.
  - destruct (ok res);
      auto 8 using any_actionWith, any_await, any_return_next with emits.
  - auto 8 using any_request_error with emits.
Qed.

(** ** The error handler *)

Lemma present_held action d state :
  present d [held action; AVal state] = [AVal (seen action d); AVal state].
Proof. unfold held, seen. destruct (shared action); reflexivity. Qed.

(** The action shows a request type descriptor that was not touched as it
    is. *)
Lemma seen_untouched action c σ σ' :
  parse action σ = (Ok c, σ') → seen action (c_requestType c) = action.
Proof.
  unfold seen, shared. intros Hp.
  destruct (get_at action request_slot) as [slot|] eqn:Hslot; [|reflexivity].
  destruct (String.eqb (typeof slot) "string" || String.eqb (typeof slot) "symbol")
    eqn:Hid; [reflexivity|]. cbn [negb].
  apply plug_get. rewrite Hslot. f_equal.
  unfold request_slot in Hslot. cbn [get_at] in Hslot.
  destruct (child action (Key CALL_API)) as [callAPI|] eqn:Hc; [|discriminate].
  cbn [mbind option_bind] in Hslot.
  destruct (child callAPI (Key "types")) as [types|] eqn:Ht; [|discriminate].
  cbn [mbind option_bind] in Hslot.
  destruct (child types (Item 0)) as [slot'|] eqn:Hs; [|discriminate].
  cbn [mbind option_bind] in Hslot. injection Hslot as ->.
  assert (Hgc : get_prop action CALL_API = Done callAPI).
  { destruct action; try discriminate; cbn [child] in Hc; cbn [get_prop];
      rewrite Hc; reflexivity. }
  destruct types as [| | | | | | |items ps| |]; try discriminate.
  cbn [child] in Hs.
  unfold parse in Hp. rewrite bind_run, Hgc in Hp. cbn [lift mret eff_ret] in Hp.
  assert (Hgt : ∀ k, ∃ v, get_prop callAPI k = Done v
                          ∧ (k = "types" → v = VArr items ps)).
  { intros k. destruct callAPI; try discriminate; cbn [child] in Ht; cbn [get_prop];
      eexists; (split; [reflexivity|]); intros ->; rewrite Ht; reflexivity. }
  repeat match type of Hp with
         | context [get_prop callAPI ?k] =>
             let v := fresh "v" in let Hv := fresh "Hv" in let Hk := fresh "Hk" in
             destruct (Hgt k) as (v & Hv & Hk); rewrite Hv in Hp; clear Hv;
             try (rewrite (Hk eq_refl) in Hp); clear Hk
         end.
  repeat (rewrite bind_run in Hp; cbn [lift mret eff_ret throw iterate
                                       normalizeTypeDescriptors] in Hp).
  injection Hp as <- _. cbn [c_requestType nth].
  destruct items as [|slot0 items]; [discriminate|]. injection Hs as ->.
  cbn [nth]. unfold wrap. rewrite Hid. reflexivity.
Qed.

Lemma request_error_meta_throws {A} action requestType message σ e message' σ1 :
  no_then requestType →
  settle (meta_of requestType) [AVal action; AVal (getState (world σ))] σ = (Throw e, σ1) →
  get_prop e "message" = Done message' →
  @request_error A action requestType message σ
  = return_next (meta_error_fsa requestType message') σ1.
Proof.
  intros Hthen Hm He. unfold request_error. eff_simpl. rewrite extends_error.
  erewrite actionWith_meta_throws; [| |  |exact He].
  - assert (Hfsa : VObj (<["error" := VBool true]>
                         (<["payload" := InternalError message']>
                          (delete "meta"
                             (<["payload" := RequestError message]>
                              (<["payload" := RequestError message]>
                               (<["error" := VBool true]> (own_props requestType)))))))
                   = meta_error_fsa requestType message'); [|rewrite Hfsa; clear Hfsa;
      rewrite bind_run, await_plain; [reflexivity|];
      rewrite thenable_meta_error_fsa; exact Hthen].
    unfold meta_error_fsa. f_equal. apply map_eq. intros k.
    destruct (decide (k = "error")) as [->|Hk1]; [rewrite !lookup_insert_eq; reflexivity|].
    rewrite !(lookup_insert_ne _ "error") by congruence.
    destruct (decide (k = "payload")) as [->|Hk2]; [rewrite !lookup_insert_eq; reflexivity|].
    rewrite !(lookup_insert_ne _ "payload") by congruence.
    destruct (decide (k = "meta")) as [->|Hk3]; [rewrite !lookup_delete_eq; reflexivity|].
    rewrite !lookup_delete_ne by congruence.
    rewrite !lookup_insert_ne by congruence. reflexivity.
  - rewrite lookup_insert_eq. apply settle_static. reflexivity.
  - rewrite !lookup_insert_ne by discriminate. exact Hm.
Qed.

Lemma request_error_meta_nullish {A} action requestType message σ e σ1 :
  settle (meta_of requestType) [AVal action; AVal (getState (world σ))] σ = (Throw e, σ1) →
  e = VUndef ∨ e = VNull →
  @request_error A action requestType message σ
  = (Throw (TypeError "Cannot read property message"), σ1).
Proof.
  intros Hm He. unfold request_error. eff_simpl. rewrite extends_error.
  erewrite actionWith_meta_throws_nullish; [reflexivity| | |exact He].
  - rewrite lookup_insert_eq. apply settle_static. reflexivity.
  - rewrite !lookup_insert_ne by discriminate. exact Hm.
Qed.

(** Nothing runs after the error handler, which leaves the function. *)
Lemma request_error_bind {A B} action requestType message (f : A → eff B) σ :
  match @request_error A action requestType message σ with
  | (Ok a, σ') => f a σ'
  | (Throw e, σ') => (Throw e, σ')
  | (Return v, σ') => (Return v, σ')
  end = @request_error B action requestType message σ.
Proof.
  unfold request_error. eff_simpl.
  destruct (actionWith _ _ σ) as [[fsa|e|v] σ1]; try reflexivity.
  rewrite !bind_run. destruct (await_ fsa σ1) as [[x|e|v] σ2]; try reflexivity.
  apply return_next_bind.
Qed.

Lemma handed_forwarded σ0 fsa σ :
  forwarded (trace σ) = forwarded (trace σ0) →
  fetched (trace σ) = fetched (trace σ0) →
  forwarded (trace (snd (handed_to_next fsa σ))) = forwarded (trace σ0) ++ [fsa]
  ∧ fetched (trace (snd (handed_to_next fsa σ))) = fetched (trace σ0).
Proof.
  intros Hf Hg. unfold handed_to_next. cbn [snd trace].
  rewrite forwarded_app, fetched_app, Hf, Hg. simpl. rewrite orb_false_r. auto.
Qed.

Lemma error_fsa_fields requestType message m :
  type_of (error_fsa requestType message m) = type_of requestType
  ∧ get_prop (error_fsa requestType message m) "error" = Done (VBool true)
  ∧ get_prop (error_fsa requestType message m) "payload" = Done (RequestError message).
Proof.
  unfold type_of, error_fsa. cbn [own_props get_prop].
  rewrite !lookup_insert_ne by discriminate. split; [reflexivity|].
  rewrite lookup_insert_eq. split; [reflexivity|].
  rewrite lookup_insert_ne, lookup_insert_eq by discriminate. reflexivity.
Qed.

Lemma meta_error_fsa_fields requestType message :
  type_of (meta_error_fsa requestType message) = type_of requestType
  ∧ get_prop (meta_error_fsa requestType message) "error" = Done (VBool true)
  ∧ get_prop (meta_error_fsa requestType message) "payload"
    = Done (InternalError message).
Proof.
  unfold type_of, meta_error_fsa. cbn [own_props get_prop].
  rewrite !lookup_insert_ne by discriminate.
  rewrite lookup_delete_ne by discriminate. split; [reflexivity|].
  rewrite lookup_insert_eq. split; [reflexivity|].
  rewrite lookup_insert_ne, lookup_insert_eq by discriminate. reflexivity.
Qed.

(** A run that comes to the error handler with nothing forwarded ends as
    [ends_in_error] says. *)
Lemma run_ends_in_error action σ0 requestType message σ1 :
  no_then requestType →
  apiMiddleware action σ0 = request_error action requestType message σ1 →
  forwarded (trace σ1) = forwarded (trace σ0) →
  fetched (trace σ1) = fetched (trace σ0) →
  ends_in_error action σ0 requestType message σ1.
Proof.
  intros Hthen Hrun Hf Hg. split; [|split].
  - intros m σ2 Hm fsa.
    destruct (silent_run _ _ _ _ (silent_settle _ _) Hm) as [Hf2 Hg2].
    assert (Hrun' : run action σ0 = handed_to_next fsa σ2).
    { apply run_return_next. rewrite Hrun. apply request_error_run; assumption. }
    rewrite Hrun'. split; [reflexivity|].
    destruct (handed_forwarded σ0 fsa σ2) as [H1 H2]; [congruence..|].
    split; [exact H1|]. split; [exact H2|]. apply error_fsa_fields.
  - intros e message' σ2 Hm He fsa.
    destruct (silent_run _ _ _ _ (silent_settle _ _) Hm) as [Hf2 Hg2].
    assert (Hrun' : run action σ0 = handed_to_next fsa σ2).
    { apply run_return_next. rewrite Hrun.
      exact (request_error_meta_throws _ _ _ _ _ _ _ Hthen Hm He). }
    rewrite Hrun'. split; [reflexivity|].
    destruct (handed_forwarded σ0 fsa σ2) as [H1 H2]; [congruence..|].
    split; [exact H1|]. split; [exact H2|]. apply meta_error_fsa_fields.
  - intros e σ2 Hm He.
    destruct (silent_run _ _ _ _ (silent_settle _ _) Hm) as [Hf2 Hg2].
    split; [|split; congruence].
    unfold run. rewrite Hrun, (request_error_meta_nullish _ _ _ _ _ _ Hm He).
    reflexivity.
Qed.

(** ** The middleware's paths *)

(** C9.  A request that lacks the call-descriptor property, which the
    recognizer [isRSAA] therefore rejects, is handed to the next stage as
    it is: the promise settles as [next(action)] does, that call is the only
    event added to the trace, and the result mentions neither
    [validateRSAA] nor the normalizer, the transport or any caller-supplied
    function. *)
Theorem passthrough_unchanged (action : value) (σ : state) :
  (∀ a, isRSAA a = true → carries a CALL_API) →
  ¬ carries action CALL_API →
  run action σ = handed_to_next action σ
  ∧ forwarded (trace (snd (run action σ))) = forwarded (trace σ) ++ [action]
  ∧ fetched (trace (snd (run action σ))) = fetched (trace σ).
Proof.
  intros Hrec Hlacks.
  assert (Hno : isRSAA action = false).
  { destruct (isRSAA action) eqn:E; [|reflexivity]. destruct Hlacks. auto. }
  assert (Hrun : run action σ = handed_to_next action σ).
  { apply run_return_next. unfold apiMiddleware. rewrite Hno. reflexivity. }
  rewrite Hrun. split; [reflexivity|]. unfold handed_to_next. simpl.
  rewrite forwarded_app, fetched_app. simpl. rewrite orb_false_r. auto.
Qed.


Lemma invalid_type_identifier types id :
  request_type_identifier types = Some id → truthy id = true →
  invalid_type types = id.
Proof.
  unfold request_type_identifier, invalid_type.
  destruct types as [| | | | | | |items ps| |]; try discriminate.
  destruct items as [|slot items]; [discriminate|]. cbn [get_index nth].
  destruct slot as [| | | |s|s|sp| | |]; cbn [is_identifier]; try discriminate.
  - intros [= <-] _. cbn [get_prop]. rewrite andb_false_r. reflexivity.
  - intros [= <-] _. reflexivity.
  - cbn [get_prop truthy andb]. destruct (sp !! "type") as [t|]; [|discriminate].
    destruct (is_identifier t); [|discriminate]. intros [= <-] Ht.
    simpl. rewrite Ht. reflexivity.
Qed.

Lemma dispatch_invalid_run action errors callAPI types σ :
  get_prop action CALL_API = Done callAPI →
  get_prop callAPI "types" = Done types →
  dispatch_invalid action errors σ =
  if isArray types then
    match next (invalid_fsa types errors) (world σ) with
    | (Done _, w) =>
        (Return VUndef,
         {| world := w; trace := trace σ ++ [ENext (invalid_fsa types errors)] |})
    | (Fail e, w) =>
        (Throw e,
         {| world := w; trace := trace σ ++ [ENext (invalid_fsa types errors)] |})
    end
  else (Return VUndef, σ).
Proof.
  intros Hc Ht. unfold dispatch_invalid. rewrite bind_run, Hc. eff_simpl.
  rewrite Ht. eff_simpl.
  destruct types as [| | | | | | |items ps| |]; cbn [isArray truthy andb];
    try (destruct b); try (destruct (negb _)); try reflexivity.
  unfold invalid_fsa, invalid_type. cbn [get_index].
  set (slot := nth 0 items VUndef).
  assert (Hslot :
    (if truthy slot
     then lift (get_prop slot "type")
          ≫= (λ type, mret (if truthy type then type else slot))
     else mret slot) σ
    = (Ok (match get_prop slot "type" with
           | Done t => if truthy slot && truthy t then t else slot
           | Fail _ => slot
           end), σ)).
  { destruct slot; try reflexivity; cbn [truthy]; try (destruct b; reflexivity);
      try (destruct (negb _); reflexivity). }
  rewrite bind_run, Hslot. eff_simpl. rewrite next_run.
  destruct (next _ (world σ)) as [[v|e] w]; reflexivity.
Qed.

(** X15.  For a request on which validation reports a violation (and
    whose call descriptor is not [null] or [undefined]): when the types
    field is an array, exactly one notification is forwarded, with [error]
    true and the violations in its payload, whether or not a request-type
    identifier can be told from the array.  Its type is the [type] of the
    first slot when the slot and that [type] are both truthy, and the first
    slot itself otherwise ([undefined] for an empty array); so it is the
    request-type identifier whenever the first slot holds a truthy one.
    When the types field is not an array nothing is forwarded.  Either way
    the middleware stops there and the transport is not called. *)
Theorem invalid_request (action callAPI types : value) (σ : state) :
  isRSAA action = true →
  validateRSAA action ≠ [] →
  get_prop action CALL_API = Done callAPI →
  get_prop callAPI "types" = Done types →
  let fsa := invalid_fsa types (validateRSAA action) in
  if isArray types
  then trace (snd (run action σ)) = trace σ ++ [ENext fsa]
       ∧ fst (run action σ)
         = match fst (next fsa (world σ)) with
           | Done _ => Done VUndef
           | Fail e => Fail e
           end
       ∧ get_prop fsa "error" = Done (VBool true)
       ∧ get_prop fsa "payload" = Done (InvalidRSAA (validateRSAA action))
       ∧ get_prop fsa "type" = Done (invalid_type types)
       ∧ (∀ id, request_type_identifier types = Some id → truthy id = true →
                get_prop fsa "type" = Done id)
  else run action σ = (Done VUndef, σ).
Proof.
  intros Hr Hv Hc Ht fsa.
  assert (Hrun : apiMiddleware action σ
                 = dispatch_invalid action (validateRSAA action) σ).
  { unfold apiMiddleware. rewrite Hr. destruct (validateRSAA action); [congruence|].
    reflexivity. }
  unfold run. rewrite Hrun, (dispatch_invalid_run _ _ _ _ _ Hc Ht).
  fold fsa. destruct (isArray types); [|reflexivity].
  split; [|split].
  - destruct (next fsa (world σ)) as [[v|e] w]; reflexivity.
  - destruct (next fsa (world σ)) as [[v|e] w]; reflexivity.
  - repeat split; try reflexivity.
    intros id Hid Htr. rewrite <- (invalid_type_identifier _ _ Hid Htr). reflexivity.
Qed.

Lemma valid_after_bailout action c σ0 σ1 :
  isRSAA action = true → validateRSAA action = [] →
  parse action σ0 = (Ok c, σ0) →
  bail_out action c σ0 = (Ok tt, σ1) →
  apiMiddleware action σ0 =
    (endpoint ← process action c "endpoint" (c_endpoint c);
     headers ← process action c "headers" (c_headers c);
     options ← process action c "options" (c_options c);
     requestType ← dispatch_request action c;
     call_api action c endpoint headers options requestType) σ1.
Proof.
  intros Hr Hv Hp Hb. rewrite (apiMiddleware_valid _ _ _ Hr Hv Hp), bind_run, Hb.
  reflexivity.
Qed.


(** C2, as the code has it.  For a validated request that got as far as the
    transport: when the response is not [ok], the failure descriptor
    carries the default payload resolver (the failure slot had no payload of
    its own) and no [then] that can be called, and the body extraction and
    the descriptor's meta resolver settle, the second notification
    forwarded is the failure type descriptor with [error] true and, as
    payload, the API error made of the response's status, its status text
    and the extracted body.  When the transport throws a value that has a
    message and the meta of the request type descriptor, which has no [then]
    that can be called, settles, the second notification is the request type
    descriptor with [error] true and the request error of that message; the
    failure type is not forwarded.  The resolvers are given the action as
    it stands after the request type descriptor was resolved. *)
Theorem transport_outcomes (action : value) (c : rsaa)
    (endpoint headers options requestType : value) (σ0 σ1 : state) :
  isRSAA action = true →
  validateRSAA action = [] →
  reaches_transport action c endpoint headers options requestType σ0 σ1 →
  let config := config_of c options headers in
  (∀ res w body σ3 m σ4,
     fetch endpoint config (world σ1) = (Done res, w) →
     ok res = false →
     no_then (c_failureType c) →
     own_props (c_failureType c) !! "payload" = Some (VFun FFailurePayload ∅) →
     getJSON res (after_fetch σ1 endpoint config w) = (Ok body, σ3) →
     thenable body = false →
     settle (meta_of (c_failureType c))
       [AVal (seen action requestType); AVal (getState w); ARes res] σ3 = (Ok m, σ4) →
     let fsa := fsa_of (<["error" := VBool true]> (own_props (c_failureType c)))
                  (ApiError (status res) (statusText res) body) m in
     run action σ0 = handed_to_next fsa σ4
     ∧ forwarded (trace (snd (run action σ0)))
       = forwarded (trace σ0) ++ [requestType; fsa]
     ∧ type_of fsa = type_of (c_failureType c)
     ∧ get_prop fsa "error" = Done (VBool true)
     ∧ get_prop fsa "payload" = Done (ApiError (status res) (statusText res) body))
  ∧ (∀ e w message m σ3,
       fetch endpoint config (world σ1) = (Fail e, w) →
       get_prop e "message" = Done message →
       no_then requestType →
       settle (meta_of requestType) [AVal (seen action requestType); AVal (getState w)]
         (after_fetch σ1 endpoint config w) = (Ok m, σ3) →
       let fsa := error_fsa requestType message m in
       run action σ0 = handed_to_next fsa σ3
       ∧ forwarded (trace (snd (run action σ0)))
         = forwarded (trace σ0) ++ [requestType; fsa]
       ∧ type_of fsa = type_of requestType
       ∧ get_prop fsa "error" = Done (VBool true)
       ∧ get_prop fsa "payload" = Done (RequestError message)).
Proof.
  intros Hr Hv Hreach config.
  pose proof (reaches_transport_run _ _ _ _ _ _ _ _ Hr Hv Hreach) as Hrun.
  destruct (reaches_transport_forwarded _ _ _ _ _ _ _ _ Hreach) as [Hf1 Hg1].
  split.
  - intros res w body σ3 m σ4 Hfetch Hok Hthen Hpayload Hjson _ Hmeta fsa.
    destruct (silent_run _ _ _ _ (silent_getJSON _) Hjson) as [Hf2 _].
    destruct (silent_run _ _ _ _ (silent_settle _ _) Hmeta) as [Hf3 _].
    assert (Hrun' : run action σ0 = handed_to_next fsa σ4).
    { apply run_return_next. rewrite Hrun.
      exact (call_api_failure _ _ _ _ _ _ _ _ _ _ _ _ _
               Hfetch Hok Hthen Hpayload Hjson Hmeta). }
    rewrite Hrun'. split; [reflexivity|]. split; [|split; [|split]].
    + unfold handed_to_next. cbn [snd trace].
      rewrite forwarded_app, Hf3, Hf2. cbn [after_fetch trace].
      rewrite forwarded_app, Hf1. simpl. rewrite app_nil_r, <- app_assoc. reflexivity.
    + unfold type_of, fsa, fsa_of. cbn [own_props].
      rewrite !lookup_insert_ne by discriminate. reflexivity.
    + unfold fsa, fsa_of. cbn [get_prop].
      rewrite lookup_insert_ne, lookup_insert_ne, lookup_insert_eq by discriminate.
      reflexivity.
    + unfold fsa, fsa_of. cbn [get_prop].
      rewrite lookup_insert_ne, lookup_insert_eq by discriminate. reflexivity.
  - intros e w message m σ3 Hfetch He Hthen Hmeta fsa.
    destruct (silent_run _ _ _ _ (silent_settle _ _) Hmeta) as [Hf2 _].
    assert (Hrun' : run action σ0 = handed_to_next fsa σ3).
    { apply run_return_next. rewrite Hrun.
      exact (call_api_throw _ _ _ _ _ _ _ _ _ _ _ _ Hfetch He Hthen Hmeta). }
    rewrite Hrun'. split; [reflexivity|]. split; [|split; [|split]].
    + unfold handed_to_next. cbn [snd trace].
      rewrite forwarded_app, Hf2. cbn [after_fetch trace].
      rewrite forwarded_app, Hf1. simpl. rewrite app_nil_r, <- app_assoc. reflexivity.
    + unfold type_of, fsa, error_fsa. cbn [own_props].
      rewrite !lookup_insert_ne by discriminate. reflexivity.
    + unfold fsa, error_fsa. cbn [get_prop].
      rewrite lookup_insert_ne, lookup_insert_ne, lookup_insert_eq by discriminate.
      reflexivity.
    + unfold fsa, error_fsa. cbn [get_prop].
      rewrite lookup_insert_ne, lookup_insert_eq by discriminate. reflexivity.
Qed.

Lemma static_reaches_transport action c σ rps v1 w1 :
  parse action σ = (Ok c, σ) →
  c_bailout c = VUndef ∨ c_bailout c = VBool false →
  is_function (c_endpoint c) = false →
  is_function (c_headers c) = false →
  is_function (c_options c) = false →
  c_requestType c = VObj rps →
  thenable (VObj rps) = false →
  is_static (default VUndef (rps !! "payload")) = true →
  is_static (default VUndef (rps !! "meta")) = true →
  let fsa := fsa_of rps (default VUndef (rps !! "payload"))
               (default VUndef (rps !! "meta")) in
  next fsa (world σ) = (Done v1, w1) →
  reaches_transport action c (c_endpoint c) (c_headers c) (c_options c) fsa σ
    {| world := w1; trace := trace σ ++ [ENext fsa] |}.
Proof.
  intros Hp Hb He Hh Ho Hreq Hthen Hrp Hrm fsa Hnext.
  assert (Hfsa : thenable fsa = false).
  { unfold fsa. rewrite thenable_fsa_of. exact Hthen. }
  exists σ, σ, σ, σ. split; [exact Hp|]. split; [|split; [|split; [|split; [|split]]]].
  - rewrite bail_out_run. destruct Hb as [-> | ->]; reflexivity.
  - apply process_settled, evaluate_static, He.
  - apply process_settled, evaluate_static, Hh.
  - apply process_settled, evaluate_static, Ho.
  - unfold dispatch_request. eff_simpl. rewrite Hreq.
    erewrite actionWith_settled;
      [|apply settle_static, Hrp|apply settle_static, Hrm].
    fold (fsa_of rps (default VUndef (rps !! "payload"))
            (default VUndef (rps !! "meta"))). fold fsa.
    rewrite bind_run, (await_plain _ _ Hfsa), bind_run, next_run. cbn [world].
    rewrite Hnext. reflexivity.
  - exact Hfsa.
Qed.

(** C1, as the code has it.  Take a validated request whose endpoint,
    headers and options are not functions, whose bailout is absent or
    [false], whose request descriptor is a plain object with a payload and
    a meta that are neither functions nor thenables and with no [error]
    field, and whose success descriptor carries the default payload
    resolver (the success slot had no payload of its own) and a meta that
    is neither a function nor a thenable, neither descriptor having a
    [then] that can be called; let the next stage accept the request
    notification.  Then the request notification, without [error],
    is forwarded first and the transport is called right after it, whatever
    the transport then does.  When the transport answers [ok] with status
    200, status text 'OK', a JSON content type and a body that decodes to
    [body], which is no thenable, exactly two notifications are forwarded,
    the second being the success descriptor with payload [body]. *)
Theorem static_request_success (action : value) (c : rsaa) (σ : state)
    (rps : gmap string value) (v1 : value) (w1 : W) :
  isRSAA action = true →
  validateRSAA action = [] →
  parse action σ = (Ok c, σ) →
  c_bailout c = VUndef ∨ c_bailout c = VBool false →
  is_function (c_endpoint c) = false →
  is_function (c_headers c) = false →
  is_function (c_options c) = false →
  c_requestType c = VObj rps →
  thenable (VObj rps) = false →
  is_static (default VUndef (rps !! "payload")) = true →
  is_static (default VUndef (rps !! "meta")) = true →
  rps !! "error" = None →
  no_then (c_successType c) →
  own_props (c_successType c) !! "payload" = Some (VFun FSuccessPayload ∅) →
  is_static (meta_of (c_successType c)) = true →
  let request := fsa_of rps (default VUndef (rps !! "payload"))
                   (default VUndef (rps !! "meta")) in
  let config := config_of c (c_options c) (c_headers c) in
  next request (world σ) = (Done v1, w1) →
  (∃ rest, trace (snd (run action σ))
           = trace σ ++ ENext request :: EFetch (c_endpoint c) config :: rest)
  ∧ get_prop request "error" = Done VUndef
  ∧ type_of request = type_of (c_requestType c)
  ∧ (∀ res w2 body,
       fetch (c_endpoint c) config w1 = (Done res, w2) →
       ok res = true → status res = 200 → statusText res = "OK" →
       indicates_json (headers_get res "Content-Type") = true →
       json res = Done body →
       thenable body = false →
       let success := fsa_of (own_props (c_successType c)) body
                        (meta_of (c_successType c)) in
       run action σ
       = handed_to_next success
           {| world := w2;
              trace := trace σ ++ [ENext request; EFetch (c_endpoint c) config;
                                   EJson res] |}
       ∧ forwarded (trace (snd (run action σ)))
         = forwarded (trace σ) ++ [request; success]
       ∧ type_of success = type_of (c_successType c)
       ∧ get_prop success "payload" = Done body).
Proof.
  intros Hr Hv Hp Hb He Hh Ho Hreq Hthen Hrp Hrm Herr Hsthen Hsp Hsm request config
         Hnext.
  pose proof (static_reaches_transport _ _ _ _ _ _ Hp Hb He Hh Ho Hreq Hthen Hrp Hrm
                Hnext) as Hreach.
  fold request in Hreach.
  pose proof (reaches_transport_run _ _ _ _ _ _ _ _ Hr Hv Hreach) as Hrun.
  fold config in Hrun.
  split; [|split; [|split]].
  - unfold run. rewrite Hrun.
    destruct (call_api _ _ _ _ _ _ _) as [r σ'] eqn:Hcall.
    destruct (call_api_grows _ _ _ _ _ _ _ _ _ Hcall) as (rest & Hrest).
    exists rest. cbn [trace] in Hrest. rewrite <- app_assoc in Hrest.
    destruct r; exact Hrest.
  - unfold request, fsa_of. cbn [get_prop].
    rewrite !lookup_insert_ne by discriminate. rewrite Herr. reflexivity.
  - unfold type_of, request, fsa_of. rewrite Hreq. cbn [own_props].
    rewrite !lookup_insert_ne by discriminate. reflexivity.
  - intros res w2 body Hfetch Hok Hst _ Hct Hjson Hbody success.
    destruct (parse_normalized _ _ _ _ Hp) as (slot & sp & fp & _ & Hs & _).
    assert (Hrun' : run action σ = handed_to_next success
              {| world := w2;
                 trace := trace σ ++ [ENext request; EFetch (c_endpoint c) config;
                                      EJson res] |}).
    { apply run_return_next. rewrite Hrun.
      eapply call_api_success; eauto.
      - rewrite getJSON_run. unfold empty_body.
        rewrite Hst, Hct, Hjson. cbn [Z.eqb orb negb Pos.eqb after_fetch world trace].
        rewrite <- !app_assoc. reflexivity.
      - apply settle_static, Hsm. }
    rewrite Hrun'. split; [reflexivity|]. split; [|split].
    + unfold handed_to_next. cbn [snd trace]. rewrite !forwarded_app. simpl.
      rewrite <- app_assoc. reflexivity.
    + unfold type_of, success, fsa_of. cbn [own_props].
      rewrite !lookup_insert_ne by discriminate. reflexivity.
    + unfold success, fsa_of. cbn [get_prop].
      rewrite lookup_insert_ne, lookup_insert_eq by discriminate. reflexivity.
Qed.

(** ** More about [actionWith] *)

Lemma only_resolved_refl d : only_resolved d d.
Proof. split; auto. Qed.

Lemma only_resolved_trans d1 d2 d3 :
  only_resolved d1 d2 → only_resolved d2 d3 → only_resolved d1 d3.
Proof.
  intros [H1 E1] [H2 E2]. split.
  - intros k Hp Hm He. rewrite H2, H1; auto.
  - destruct E2 as [E2|E2]; [|auto]. rewrite E2. exact E1.
Qed.

Lemma only_resolved_set d k v d' :
  set_prop d k v = Done d' →
  k = "payload" ∨ k = "meta" ∨ (k = "error" ∧ v = VBool true) →
  only_resolved d d'.
Proof.
  intros Hset Hk.
  assert (Hget : ∀ k', get_prop d' k'
                       = if decide (k = k') then Done v else get_prop d k').
  { intros k'. destruct d; try discriminate; injection Hset as <-; cbn [get_prop];
      rewrite lookup_insert; destruct (decide (k = k')); reflexivity. }
  split.
  - intros k' Hp Hm He. rewrite Hget. destruct (decide (k = k')) as [<-|]; [|reflexivity].
    destruct Hk as [->|[->|[-> _]]]; congruence.
  - rewrite Hget. destruct (decide (k = "error")) as [->|]; [|auto].
    destruct Hk as [Hk|[Hk|[_ ->]]]; try discriminate. auto.
Qed.

Lemma only_resolved_delete d d' :
  delete_prop d "meta" = Done d' → only_resolved d d'.
Proof.
  intros Hdel.
  assert (Hget : ∀ k', k' ≠ "meta" → get_prop d' k' = get_prop d k').
  { intros k' Hk. destruct d; try discriminate; injection Hdel as <-; cbn [get_prop];
      rewrite ?lookup_delete_ne by congruence; reflexivity. }
  split.
  - intros k' _ Hm _. apply Hget, Hm.
  - left. apply Hget. discriminate.
Qed.

Ltac actionWith_step H :=
  first
    [ rewrite bind_run in H
    | rewrite try_run in H
    | progress cbn [mret eff_ret lift throw] in H
    | match type of H with
      | context [resolve ?d ?k ?args ?σ] =>
          destruct (resolve d k args σ) as [[?|?|?] ?] eqn:?
      | context [lift ?x _] => destruct x eqn:?
      end
    | discriminate H ].

Lemma actionWith_only_resolved d args σ fsa σ' :
  actionWith d args σ = (Ok fsa, σ') → only_resolved d fsa.
Proof.
  intros H. unfold actionWith in H. repeat actionWith_step H.
  all: injection H as <- <-.
  all: repeat match goal with
       | Hs : set_prop _ _ _ = Done _ |- _ =>
           apply only_resolved_set in Hs; [|auto]
       | Hd : delete_prop _ _ = Done _ |- _ => apply only_resolved_delete in Hd
       end.
  all: eauto using only_resolved_trans, only_resolved_refl.
Qed.

Lemma set_prop_obj d k v d' : is_obj d → set_prop d k v = Done d' → is_obj d'.
Proof. destruct d; try contradiction. intros _ [= <-]. exact I. Qed.

Lemma delete_prop_obj d k d' : is_obj d → delete_prop d k = Done d' → is_obj d'.
Proof. destruct d; try contradiction. intros _ [= <-]. exact I. Qed.

Lemma actionWith_obj d args σ fsa σ' :
  is_obj d → actionWith d args σ = (Ok fsa, σ') → is_obj fsa.
Proof.
  intros Hd H. unfold actionWith in H. repeat actionWith_step H.
  all: injection H as <- <-.
  all: repeat match goal with
       | Hs : set_prop ?a _ _ = Done ?b, Ha : is_obj ?a |- _ =>
           pose proof (set_prop_obj _ _ _ _ Ha Hs); clear Hs
       | Hs : delete_prop ?a _ = Done ?b, Ha : is_obj ?a |- _ =>
           pose proof (delete_prop_obj _ _ _ Ha Hs); clear Hs
       end.
  all: assumption.
Qed.

(** What [actionWith] makes of a descriptor that has no [then] to call is
    no thenable, and awaiting it changes nothing. *)
Lemma actionWith_no_then ps args σ fsa σ' :
  thenable (VObj ps) = false →
  actionWith (VObj ps) args σ = (Ok fsa, σ') → thenable fsa = false.
Proof.
  intros Hthen H.
  assert (Hobj : is_obj fsa) by exact (actionWith_obj (VObj ps) _ _ _ _ I H).
  destruct (actionWith_only_resolved _ _ _ _ _ H) as [Hk _].
  specialize (Hk "then"). destruct fsa as [| | | | | |fps| | |]; try contradiction.
  cbn [get_prop] in Hk.
  assert (Heq : default VUndef (fps !! "then") = default VUndef (ps !! "then")).
  { assert (Hd : Done (default VUndef (fps !! "then"))
                 = Done (A:=value) (default VUndef (ps !! "then")))
      by (apply Hk; discriminate).
    injection Hd as ->. reflexivity. }
  unfold thenable, then_of in *.
  destruct (fps !! "then") as [[| | | | | | | |f1 p1|]|], (ps !! "then") as [[| | | | | | | |f2 p2|]|];
    cbn [default] in Heq; try discriminate; reflexivity.
Qed.

Lemma type_of_obj d : is_obj d → get_prop d "type" = Done (type_of d).
Proof. destruct d; try contradiction. reflexivity. Qed.

Lemma actionWith_type ps args σ fsa σ' :
  actionWith (VObj ps) args σ = (Ok fsa, σ') →
  is_obj fsa ∧ type_of fsa = type_of (VObj ps).
Proof.
  intros H.
  assert (Hobj : is_obj fsa) by exact (actionWith_obj (VObj ps) _ _ _ _ I H).
  split; [exact Hobj|].
  destruct (actionWith_only_resolved _ _ _ _ _ H) as [Hk _].
  specialize (Hk "type"). rewrite (type_of_obj _ Hobj) in Hk.
  assert (Heq : Done (type_of fsa) = get_prop (VObj ps) "type")
    by (apply Hk; discriminate).
  injection Heq as ->. reflexivity.
Qed.

(** X1.  Whatever [actionWith] returns is the descriptor it was given with
    nothing but [payload], [meta] and [error] touched: every other
    property, the [type] among them, reads as before, and [error] is
    either as before or [true], so an [error] that was [true] stays. *)
Theorem actionWith_keeps_fields (d : value) (args : list arg) (σ : state)
    (fsa : value) (σ' : state) :
  actionWith d args σ = (Ok fsa, σ') →
  (∀ k, k ≠ "payload" → k ≠ "meta" → k ≠ "error" → get_prop fsa k = get_prop d k)
  ∧ get_prop fsa "type" = get_prop d "type"
  ∧ (get_prop fsa "error" = get_prop d "error"
     ∨ get_prop fsa "error" = Done (VBool true))
  ∧ (get_prop d "error" = Done (VBool true) →
     get_prop fsa "error" = Done (VBool true)).
Proof.
  intros H. destruct (actionWith_only_resolved _ _ _ _ _ H) as [Hk He].
  split; [exact Hk|]. split; [apply Hk; discriminate|]. split; [exact He|].
  intros Hd. destruct He as [He|He]; congruence.
Qed.

Lemma call_throws_message f args σ e σ' :
  (∀ n a w e w', call_user n a w = (Fail e, w') → has_message e) →
  polite_args args →
  call f args σ = (Throw e, σ') → has_message e.
Proof.
  intros Huser Hargs.
  assert (Htype : has_message (TypeError "Cannot read property headers")).
  { eexists. reflexivity. }
  destruct f as [| | | | | | | |f ps|]; cbn [call];
    try (intros [= <- _]; eexists; reflexivity).
  destruct f as [n| |]; cbn [apply_fn].
  - rewrite bind_run. cbn [log]. unfold host. cbn [world trace].
    destruct (call_user n args (world σ)) as [[a|e'] w] eqn:Hcall; [discriminate|].
    intros [= <- _]. eauto.
  - destruct (args !! 2%nat) as [[a|res|h pl| |]|] eqn:Harg;
      try (intros [= <- _]; exact Htype).
    rewrite getJSON_run. destruct (empty_body res); [discriminate|].
    destruct (json res) as [v|e'] eqn:Hjson; [discriminate|]. intros [= <- _].
    apply (Hargs res); [|exact Hjson]. eapply list_elem_of_lookup_2, Harg.
  - destruct (args !! 2%nat) as [[a|res|h pl| |]|] eqn:Harg;
      try (intros [= <- _]; exact Htype).
    rewrite bind_run, getJSON_run. destruct (empty_body res); [discriminate|].
    destruct (json res) as [v|e'] eqn:Hjson; [discriminate|]. intros [= <- _].
    apply (Hargs res); [|exact Hjson]. eapply list_elem_of_lookup_2, Harg.
Qed.

Lemma polite_resolving : polite_args [AResolve; AReject].
Proof.
  intros res Hin.
  repeat (apply elem_of_cons in Hin as [Hin|Hin]; [discriminate|]).
  apply elem_of_nil in Hin. destruct Hin.
Qed.

Lemma polite_present d args : polite_args args → polite_args (present d args).
Proof.
  intros Hargs res Hin. apply Hargs.
  unfold present in Hin. apply list_elem_of_fmap in Hin as (a & Ha & Hin).
  destruct a; try discriminate. injection Ha as ->. exact Hin.
Qed.

Lemma settle_throws_message p args σ e σ' :
  (∀ n a w e w', call_user n a w = (Fail e, w') → has_message e) →
  polite_args args →
  settle p args σ = (Throw e, σ') → has_message e.
Proof.
  intros Huser Hargs. rewrite settle_run.
  destruct (evaluate p args σ) as [[v|e'|v] σ1] eqn:He.
  - unfold await_. destruct (then_of v); [|discriminate].
    apply (call_throws_message _ _ _ _ _ Huser polite_resolving).
  - intros [= <- <-]. unfold evaluate in He.
    destruct (String.eqb (typeof p) "function"); [|discriminate].
    exact (call_throws_message _ _ _ _ _ Huser Hargs He).
  - discriminate.
Qed.

Lemma actionWith_polite ps args σ :
  (∀ n a w e w', call_user n a w = (Fail e, w') → has_message e) →
  polite_args args →
  ∃ fsa σ', actionWith (VObj ps) args σ = (Ok fsa, σ').
Proof.
  intros Huser Hargs. apply actionWith_returns.
  intros d p σa e σb Hs.
  exact (settle_throws_message _ _ _ _ _ Huser (polite_present d _ Hargs) Hs).
Qed.


(** ** The shape of a run *)

Lemma quiet_closes evs : quiet evs → closes evs.
Proof. intros H. left. exact H. Qed.

Lemma closes_quiet_app s evs : quiet s → closes evs → closes (s ++ evs).
Proof.
  intros Hs [He | (s' & a & -> & Hs')].
  - left. apply Forall_app; auto.
  - right. exists (s ++ s'), a. rewrite app_assoc. split; [reflexivity|].
    apply Forall_app; auto.
Qed.

Lemma closes_run_shape evs : closes evs → run_shape evs.
Proof. intros H. left. exact H. Qed.

Lemma run_shape_quiet_app s evs : quiet s → run_shape evs → run_shape (s ++ evs).
Proof.
  intros Hs [He | (s' & a & endpoint & config & t & -> & Hs' & Ht)].
  - left. apply closes_quiet_app; auto.
  - right. exists (s ++ s'), a, endpoint, config, t. rewrite app_assoc.
    split; [reflexivity|]. split; [apply Forall_app; auto|exact Ht].
Qed.

Lemma step_of_silent {A} (m : eff A) : emits silent m → step_shape m.
Proof.
  intros Hm σ r σ' H. destruct (Hm _ _ _ H) as (evs & T & F).
  exists evs. split; [exact T|]. destruct r; [exact F|left; exact F..].
Qed.

Lemma step_bind {A B} (m : eff A) (f : A → eff B) :
  step_shape m → (∀ a, step_shape (f a)) → step_shape (m ≫= f).
Proof.
  intros Hm Hf σ r σ' H. rewrite bind_run in H.
  destruct (m σ) as [[a|e|v] σ1] eqn:E; destruct (Hm _ _ _ E) as (evs1 & T1 & S1).
  - destruct (Hf a _ _ _ H) as (evs2 & T2 & S2).
    exists (evs1 ++ evs2). rewrite T2, T1, app_assoc. split; [reflexivity|].
    destruct r; [apply Forall_app; auto|apply closes_quiet_app; auto..].
  - injection H as <- <-. eauto.
  - injection H as <- <-. eauto.
Qed.

Lemma step_return {A} v : step_shape (@return_ A v).
Proof.
  intros σ r σ' [= <- <-]. exists []. rewrite app_nil_r.
  split; [reflexivity|]. left. constructor.
Qed.

Lemma step_return_next {A} fsa : step_shape (@return_next A fsa).
Proof.
  intros σ r σ' H. rewrite return_next_run in H.
  exists [ENext fsa].
  destruct (next fsa (world σ)) as [[v|e] w]; injection H as <- <-;
    (split; [reflexivity|]); right; exists [], fsa; split; [reflexivity|constructor
    |reflexivity|constructor].
Qed.

Lemma step_if {A} (b : bool) (m1 m2 : eff A) :
  step_shape m1 → step_shape m2 → step_shape (if b then m1 else m2).
Proof. destruct b; auto. Qed.

#[local] Hint Resolve step_bind step_return step_return_next step_if : emits.

Lemma step_request_error {A} action requestType message :
  step_shape (@request_error A action requestType message).
Proof.
  unfold request_error.
  apply step_bind; [apply step_of_silent; auto with emits|]. intros state.
  apply step_bind; [apply step_of_silent, silent_actionWith|]. intros fsa.
  apply step_bind; [apply step_of_silent, silent_await|]. intros fsa'.
  apply step_return_next.
Qed.

Lemma step_bail_out action c : step_shape (bail_out action c).
Proof.
  unfold bail_out. apply step_bind.
  - apply step_of_silent. apply emits_try.
    repeat apply emits_if; auto 8 using silent_call with emits.
  - intros [[|]|e]; [apply step_return|apply step_of_silent; auto with emits
                    |apply step_request_error].
Qed.

Lemma step_process action c name field : step_shape (process action c name field).
Proof.
  unfold process. apply step_if; [|apply step_of_silent; auto with emits].
  apply step_bind.
  - apply step_of_silent. auto 8 using silent_call with emits.
  - intros [v|e]; [apply step_of_silent; auto with emits|apply step_request_error].
Qed.

Lemma step_parse action : step_shape (parse action).
Proof.
  apply step_of_silent. unfold parse. auto 30 with emits.
Qed.

Lemma full_of_step {A} (m : eff A) : step_shape m → full_shape m.
Proof.
  intros Hm σ r σ' H. destruct (Hm _ _ _ H) as (evs & T & S).
  exists evs. split; [exact T|]. left. destruct r; [left; exact S|exact S..].
Qed.

Lemma full_bind {A B} (m : eff A) (f : A → eff B) :
  step_shape m → (∀ a, full_shape (f a)) → full_shape (m ≫= f).
Proof.
  intros Hm Hf σ r σ' H. rewrite bind_run in H.
  destruct (m σ) as [[a|e|v] σ1] eqn:E; destruct (Hm _ _ _ E) as (evs1 & T1 & S1).
  - destruct (Hf a _ _ _ H) as (evs2 & T2 & S2).
    exists (evs1 ++ evs2). rewrite T2, T1, app_assoc. split; [reflexivity|].
    apply run_shape_quiet_app; auto.
  - injection H as <- <-. exists evs1. split; [exact T1|left; exact S1].
  - injection H as <- <-. exists evs1. split; [exact T1|left; exact S1].
Qed.

Lemma call_api_shape action c endpoint headers options requestType σ r σ' :
  call_api action c endpoint headers options requestType σ = (r, σ') →
  ∃ t, trace σ' = trace σ ++ EFetch endpoint (config_of c options headers) :: t
       ∧ closes t.
Proof.
  unfold call_api. rewrite bind_run, try_run, fetch_run.
  set (config := config_of c options headers).
  assert (Htail : ∀ (m : eff value) w,
            step_shape m →
            m (after_fetch σ endpoint config w) = (r, σ') →
            ∃ t, trace σ' = trace σ ++ EFetch endpoint config :: t ∧ closes t).
  { intros m w Hm H. destruct (Hm _ _ _ H) as (evs & -> & S).
    exists evs. cbn [after_fetch trace]. rewrite <- app_assoc.
    split; [reflexivity|]. destruct r; [left; exact S|exact S..]. }
  destruct (fetch endpoint config (world σ)) as [[res|e] w]; apply Htail.
  - destruct (ok res).
    + apply step_bind; [apply step_of_silent; auto with emits|]. intros state.
      apply step_bind; [apply step_of_silent, silent_actionWith|]. intros fsa.
      apply step_bind; [apply step_of_silent, silent_await|]. intros fsa'.
      apply step_return_next.
    + apply step_bind; [apply step_of_silent; auto with emits|]. intros state.
      apply step_bind; [apply step_of_silent, silent_actionWith|]. intros fsa.
      apply step_bind; [apply step_of_silent, silent_await|]. intros fsa'.
      apply step_return_next.
  - apply step_bind; [apply step_of_silent; auto with emits|]. intros message.
    apply step_request_error.
Qed.

Lemma dispatch_then_call_shape action c endpoint headers options :
  full_shape (requestType ← dispatch_request action c;
              call_api action c endpoint headers options requestType).
Proof.
  intros σ r σ' H. rewrite bind_run in H. unfold dispatch_request in H.
  rewrite bind_run in H. cbn [getState_] in H.
  assert (Hboth : emits silent
            (d ← actionWith (c_requestType c) [held action; AVal (getState (world σ))];
             fsa ← await_ d; mret (d, fsa))).
  { apply emits_bind; [apply silent_actionWith|]. intros d.
    apply emits_bind; [apply silent_await|]. intros fsa. apply emits_ret. }
  rewrite bind_run in H.
  destruct (actionWith _ _ σ) as [[d|e|v] σ1] eqn:Ha;
    destruct (silent_actionWith _ _ _ _ _ Ha) as (s1 & Ts1 & Qs1).
  2, 3: injection H as <- <-; exists s1; split; [exact Ts1|]; left; left; exact Qs1.
  rewrite bind_run in H.
  destruct (await_ d σ1) as [[fsa|e|v] σ2] eqn:Hw;
    destruct (silent_await _ _ _ _ Hw) as (s2 & Ts2 & Qs2).
  2, 3: injection H as <- <-; exists (s1 ++ s2); rewrite Ts2, Ts1, app_assoc;
        (split; [reflexivity|]); left; left; apply Forall_app; auto.
  assert (Qs : quiet (s1 ++ s2)) by (apply Forall_app; auto).
  assert (Ts : trace σ2 = trace σ ++ (s1 ++ s2)) by (rewrite Ts2, Ts1, app_assoc; reflexivity).
  clear Hboth. rewrite bind_run, next_run in H.
  destruct (next fsa (world σ2)) as [[v|e] w].
  - cbn [mret eff_ret] in H.
    destruct (call_api_shape _ _ _ _ _ _ _ _ _ H) as (t & Tt & Ct).
    exists ((s1 ++ s2) ++ ENext fsa :: EFetch endpoint (config_of c options headers) :: t).
    split.
    + rewrite Tt. cbn [trace]. rewrite Ts, <- !app_assoc. reflexivity.
    + right. eauto 10.
  - injection H as <- <-. exists ((s1 ++ s2) ++ [ENext fsa]). cbn [trace].
    rewrite Ts, <- !app_assoc. split; [reflexivity|]. left. right.
    exists (s1 ++ s2), fsa. rewrite <- app_assoc. eauto.
Qed.

Lemma dispatch_invalid_shape action errors : full_shape (dispatch_invalid action errors).
Proof.
  intros σ r σ' H. unfold dispatch_invalid in H.
  assert (Hnil : ∀ σ0 : state, trace σ0 = trace σ0 ++ [] ∧ run_shape ([] : list event)).
  { intros σ0. rewrite app_nil_r. split; [reflexivity|]. left. left. constructor. }
  rewrite bind_run in H. destruct (get_prop action CALL_API) as [callAPI|e];
    cbn [lift mret eff_ret throw] in H; [|injection H as <- <-; eauto].
  rewrite bind_run in H. destruct (get_prop callAPI "types") as [types|e];
    cbn [lift mret eff_ret throw] in H; [|injection H as <- <-; eauto].
  rewrite bind_run in H.
  destruct (truthy types && isArray types);
    [|cbn [mret eff_ret return_] in H; injection H as <- <-; eauto].
  rewrite bind_run in H.
  match type of H with
  | context [(if ?b then ?m1 else ?m2) σ] =>
      assert (Hslot : ∃ r1, (if b then m1 else m2) σ = (r1, σ))
  end.
  { destruct (truthy (get_index types 0)); [|eauto].
    rewrite bind_run. destruct (get_prop (get_index types 0) "type"); eauto. }
  destruct Hslot as [r1 Hslot]. rewrite Hslot in H.
  destruct r1 as [slot|e|v]; [|injection H as <- <-; eauto..].
  rewrite bind_run, next_run in H.
  match type of H with
  | context [next ?fsa (world σ)] =>
      destruct (next fsa (world σ)) as [[v|e] w];
        cbn [mret eff_ret return_] in H; injection H as <- <-;
        exists [ENext fsa]; (split; [reflexivity|]); left; right;
        exists [], fsa; (split; [reflexivity|constructor])
  end.
Qed.

Lemma apiMiddleware_shape action : full_shape (apiMiddleware action).
Proof.
  unfold apiMiddleware. destruct (negb (isRSAA action)).
  { apply full_of_step, step_return_next. }
  destruct (negb _); [apply dispatch_invalid_shape|].
  apply full_bind; [apply step_parse|]. intros c.
  apply full_bind; [apply step_bail_out|]. intros _.
  apply full_bind; [apply step_process|]. intros endpoint.
  apply full_bind; [apply step_process|]. intros headers.
  apply full_bind; [apply step_process|]. intros options.
  apply dispatch_then_call_shape.
Qed.

Lemma fetches_app t1 t2 : fetches (t1 ++ t2) = (fetches t1 + fetches t2)%nat.
Proof.
  induction t1 as [|ev t1 IH]; [reflexivity|].
  destruct ev; cbn [fetches app]; rewrite IH; reflexivity.
Qed.

Lemma quiet_counts evs : quiet evs → forwarded evs = [] ∧ fetches evs = 0%nat.
Proof.
  induction 1 as [|ev evs Hev _ [IH1 IH2]]; [auto|].
  destruct ev; try contradiction; simpl; auto.
Qed.

Lemma closes_counts evs :
  closes evs → (List.length (forwarded evs) ≤ 1)%nat ∧ fetches evs = 0%nat.
Proof.
  intros [Q | (s & a & -> & Q)]; destruct (quiet_counts _ Q) as [F1 F2].
  - rewrite F1, F2. simpl. lia.
  - rewrite forwarded_app, fetches_app, F1, F2. simpl. lia.
Qed.

Lemma run_shape_counts evs :
  run_shape evs →
  (List.length (forwarded evs) ≤ 2)%nat ∧ (fetches evs ≤ 1)%nat
  ∧ (fetches evs = 1%nat → (1 ≤ List.length (forwarded evs))%nat).
Proof.
  intros [C | (s & a & endpoint & config & t & -> & Q & C)].
  - destruct (closes_counts _ C) as [F1 F2]. lia.
  - destruct (quiet_counts _ Q) as [F1 F2]. destruct (closes_counts _ C) as [G1 G2].
    rewrite forwarded_app, fetches_app, F1, F2. cbn [forwarded omap fetches app].
    fold (forwarded t). rewrite G2. simpl. lia.
Qed.

(** X3.  What one call of the middleware adds to the trace, for every
    request and every host: calls of resolvers and of the decoder, then at
    most one notification; and if the transport is called at all, it is
    called once, right after that notification, and is followed by
    resolver and decoder calls and at most one more notification, which
    comes last.  So a request forwards at most two notifications and
    calls the transport at most once, never before a notification. *)
Theorem run_trace_shape (action : value) (σ : state) :
  ∃ evs,
    trace (snd (run action σ)) = trace σ ++ evs
    ∧ run_shape evs
    ∧ (List.length (forwarded evs) ≤ 2)%nat
    ∧ (fetches evs ≤ 1)%nat
    ∧ (fetches evs = 1%nat → (1 ≤ List.length (forwarded evs))%nat).
Proof.
  destruct (apiMiddleware action σ) as [r σ'] eqn:H.
  destruct (apiMiddleware_shape _ _ _ _ H) as (evs & T & S).
  exists evs. split; [|split; [exact S|exact (run_shape_counts _ S)]].
  unfold run. rewrite H. destruct r; exact T.
Qed.

(** ** When the middleware's promise cannot reject *)

Section Polite.

Hypothesis next_accepts : ∀ a w, ∃ v w', next a w = (Done v, w').
Hypothesis user_polite : ∀ n a w e w', call_user n a w = (Fail e, w') → has_message e.
Hypothesis fetch_polite : ∀ ep cf w e w', fetch ep cf w = (Fail e, w') → has_message e.
Hypothesis response_polite : ∀ ep cf w res w', fetch ep cf w = (Done res, w') → polite res.

Lemma safe_ret {A} (a : A) : safe (mret a).
Proof. intros σ e σ'. discriminate. Qed.

Lemma safe_return {A} v : safe (@return_ A v).
Proof. intros σ e σ'. discriminate. Qed.

Lemma safe_getState : safe getState_.
Proof. intros σ e σ'. discriminate. Qed.

Lemma safe_bind {A B} (m : eff A) (f : A → eff B) :
  safe m → (∀ a, safe (f a)) → safe (m ≫= f).
Proof.
  intros Hm Hf σ e σ'. rewrite bind_run.
  destruct (m σ) as [[a|e'|v] σ1] eqn:E; [apply Hf| |discriminate].
  destruct (Hm _ _ _ E).
Qed.

Lemma safe_try {A} (m : eff A) : safe (try_ m).
Proof.
  intros σ e σ'. rewrite try_run. destruct (m σ) as [[a|e'|v] σ1]; discriminate.
Qed.

Lemma safe_return_next {A} fsa : safe (@return_next A fsa).
Proof.
  intros σ e σ'. rewrite return_next_run.
  destruct (next_accepts fsa (world σ)) as (v & w & ->). discriminate.
Qed.

Lemma safe_next fsa : safe (next_ fsa).
Proof.
  intros σ e σ'. rewrite next_run.
  destruct (next_accepts fsa (world σ)) as (v & w & ->). discriminate.
Qed.

Lemma safe_actionWith ps args : polite_args args → safe (actionWith (VObj ps) args).
Proof.
  intros Hargs σ e σ'.
  destruct (actionWith_polite ps args σ user_polite Hargs) as (fsa & σ1 & ->).
  discriminate.
Qed.

Lemma polite_args_values (vs : list value) : polite_args (AVal <$> vs).
Proof.
  intros res Hin. apply list_elem_of_fmap in Hin as (v & Hv & _). discriminate.
Qed.

Lemma polite_args_response action state res :
  polite res → polite_args [AVal action; AVal state; ARes res].
Proof.
  intros Hres res' Hin.
  repeat (apply elem_of_cons in Hin as [Hin|Hin]; [try discriminate|]).
  - injection Hin as ->. exact Hres.
  - apply elem_of_nil in Hin. destruct Hin.
Qed.

Lemma safe_awaited ps args :
  thenable (VObj ps) = false → polite_args args →
  safe (fsa ← actionWith (VObj ps) args; await_ fsa).
Proof.
  intros Hthen Hargs σ e σ'. rewrite bind_run.
  destruct (actionWith (VObj ps) args σ) as [[fsa|e'|v] σ1] eqn:Ha.
  - rewrite (await_plain _ _ (actionWith_no_then _ _ _ _ _ Hthen Ha)). discriminate.
  - destruct (safe_actionWith ps args Hargs _ _ _ Ha).
  - discriminate.
Qed.

Lemma safe_assoc {A B C} (m : eff A) (f : A → eff B) (g : B → eff C) :
  safe (m ≫= f) → (∀ b, safe (g b)) → safe (a ← m; b ← f a; g b).
Proof.
  intros Hmf Hg σ e σ'. rewrite bind_run.
  specialize (Hmf σ). rewrite bind_run in Hmf.
  destruct (m σ) as [[a|e'|v] σ1].
  - rewrite bind_run. destruct (f a σ1) as [[b|e'|v] σ2]; [apply Hg| |discriminate].
    destruct (Hmf e' σ2 eq_refl).
  - destruct (Hmf e' σ1 eq_refl).
  - discriminate.
Qed.

Lemma safe_request_error {A} action requestType message :
  no_then requestType →
  safe (@request_error A action requestType message).
Proof.
  intros Hthen. unfold request_error.
  apply safe_bind; [apply safe_getState|]. intros state.
  apply safe_assoc; [|intros fsa; apply safe_return_next].
  unfold _extends. apply safe_awaited; [|exact (polite_args_values [action; state])].
  cbn [foldl own_props]. unfold thenable, then_of.
  rewrite (right_id ∅ (∪)), lookup_union_r by reflexivity. exact Hthen.
Qed.

Lemma safe_bail_out action c :
  no_then (c_requestType c) → safe (bail_out action c).
Proof.
  intros Hthen. unfold bail_out. apply safe_bind; [apply safe_try|].
  intros [[|]|e]; [apply safe_return|apply safe_ret|apply safe_request_error, Hthen].
Qed.

Lemma safe_process action c name field :
  no_then (c_requestType c) → safe (process action c name field).
Proof.
  intros Hthen. unfold process. destruct (String.eqb _ _); [|apply safe_ret].
  apply safe_bind; [apply safe_try|].
  intros [v|e]; [apply safe_ret|apply safe_request_error, Hthen].
Qed.

Lemma polite_args_held action state : polite_args [held action; AVal state].
Proof.
  intros res Hin. unfold held in Hin.
  destruct (shared action);
    repeat (apply elem_of_cons in Hin as [Hin|Hin]; [discriminate|]);
    apply elem_of_nil in Hin; destruct Hin.
Qed.

(** A computation that never throws, with a fact about what it returns. *)
Lemma safe_bind_post {A B} (m : eff A) (Q : A → Prop) (f : A → eff B) :
  safe m →
  (∀ σ a σ', m σ = (Ok a, σ') → Q a) →
  (∀ a, Q a → safe (f a)) →
  safe (m ≫= f).
Proof.
  intros Hm HQ Hf σ e σ'. rewrite bind_run.
  destruct (m σ) as [[a|e'|v] σ1] eqn:E; [|destruct (Hm _ _ _ E)|discriminate].
  apply Hf. exact (HQ _ _ _ E).
Qed.

Lemma dispatch_request_no_then action c rps σ requestType σ' :
  c_requestType c = VObj rps → thenable (VObj rps) = false →
  dispatch_request action c σ = (Ok requestType, σ') →
  is_obj requestType ∧ thenable requestType = false
  ∧ type_of requestType = type_of (VObj rps).
Proof.
  intros Hreq Hthen H. unfold dispatch_request in H.
  rewrite bind_run in H. cbn [getState_] in H. rewrite bind_run, Hreq in H.
  destruct (actionWith _ _ σ) as [[d|e|v] σ1] eqn:Ha; try discriminate.
  rewrite bind_run in H. destruct (await_ d σ1) as [[fsa|e|v] σ2]; try discriminate.
  rewrite bind_run in H. destruct (next_ fsa σ2) as [[v|e|v] σ3]; try discriminate.
  injection H as <- _.
  split; [exact (actionWith_obj (VObj rps) _ _ _ _ I Ha)|].
  split; [exact (actionWith_no_then _ _ _ _ _ Hthen Ha)|].
  exact (proj2 (actionWith_type _ _ _ _ _ Ha)).
Qed.

Lemma safe_dispatch_request action c rps :
  c_requestType c = VObj rps → thenable (VObj rps) = false →
  safe (dispatch_request action c).
Proof.
  intros Hreq Hthen. unfold dispatch_request. rewrite Hreq.
  apply safe_bind; [apply safe_getState|]. intros state.
  eapply safe_bind_post with (Q := λ d, thenable d = false).
  - apply safe_actionWith, polite_args_held.
  - intros σ d σ' Ha. exact (actionWith_no_then _ _ _ _ _ Hthen Ha).
  - intros d Hd. apply safe_bind.
    + intros σ e σ'. rewrite (await_plain _ _ Hd). discriminate.
    + intros fsa. apply safe_bind; [apply safe_next|]. intros _. apply safe_ret.
Qed.

Lemma safe_call_api action c endpoint headers options requestType sp :
  c_successType c = VObj sp →
  no_then requestType → no_then (c_successType c) → no_then (c_failureType c) →
  safe (call_api action c endpoint headers options requestType).
Proof.
  intros Hsp Hrt Hst Hft σ e σ'. unfold call_api. rewrite bind_run, try_run, fetch_run.
  destruct (fetch endpoint _ (world σ)) as [[res|e'] w] eqn:Hfetch.
  - pose proof (response_polite _ _ _ _ _ Hfetch) as Hres.
    destruct (ok res).
    + rewrite Hsp in *.
      apply (safe_bind getState_); [apply safe_getState|]. intros state.
      apply safe_assoc; [|intros fsa; apply safe_return_next].
      apply safe_awaited; [exact Hst|]. apply polite_args_response, Hres.
    + apply (safe_bind getState_); [apply safe_getState|]. intros state.
      apply safe_assoc; [|intros fsa; apply safe_return_next].
      unfold _extends. apply safe_awaited; [|apply polite_args_response, Hres].
      cbn [foldl own_props]. unfold thenable, then_of.
      rewrite (right_id ∅ (∪)), lookup_union_r by reflexivity. exact Hft.
  - destruct (fetch_polite _ _ _ _ _ Hfetch) as [message Hmsg].
    cbn [lift]. rewrite bind_run, Hmsg. apply safe_request_error, Hrt.
Qed.

Lemma valid_run_safe action c σ rps :
  isRSAA action = true → validateRSAA action = [] →
  parse action σ = (Ok c, σ) → c_requestType c = VObj rps →
  thenable (VObj rps) = false →
  no_then (c_successType c) → no_then (c_failureType c) →
  ∀ e σ', apiMiddleware action σ ≠ (Throw e, σ').
Proof.
  intros Hr Hv Hp Hreq Hthen Hst Hft.
  assert (Hrt : no_then (c_requestType c)) by (rewrite Hreq; exact Hthen).
  destruct (parse_normalized _ _ _ _ Hp) as (slot & sp & fp & _ & Hsp & _).
  intros e σ'. rewrite (apiMiddleware_valid _ _ _ Hr Hv Hp).
  revert σ e σ' Hp.
  assert (Hsafe : safe (bail_out action c;;
     endpoint ← process action c "endpoint" (c_endpoint c);
     headers ← process action c "headers" (c_headers c);
     options ← process action c "options" (c_options c);
     requestType ← dispatch_request action c;
     call_api action c endpoint headers options requestType)).
  { apply safe_bind; [apply safe_bail_out, Hrt|]. intros _.
    apply safe_bind; [apply safe_process, Hrt|]. intros endpoint.
    apply safe_bind; [apply safe_process, Hrt|]. intros headers.
    apply safe_bind; [apply safe_process, Hrt|]. intros options.
    eapply safe_bind_post with
      (Q := λ requestType, is_obj requestType ∧ thenable requestType = false).
    - eapply safe_dispatch_request; eassumption.
    - intros σ requestType σ' H.
      destruct (dispatch_request_no_then _ _ _ _ _ _ Hreq Hthen H) as (H1 & H2 & _).
      auto.
    - intros requestType [Hobj Hno]. eapply safe_call_api; eauto.
      destruct requestType; try contradiction. exact Hno. }
  intros σ e σ' _. apply Hsafe.
Qed.

End Polite.


(** ** The types of the notifications *)

Lemma emits_bind_post (P : event → Prop) {A B} (m : eff A) (Q : A → Prop)
      (f : A → eff B) :
  emits P m →
  (∀ σ a σ', m σ = (Ok a, σ') → Q a) →
  (∀ a, Q a → emits P (f a)) →
  emits P (m ≫= f).
Proof.
  intros Hm HQ Hf σ r σ' H. rewrite bind_run in H.
  destruct (m σ) as [[a|e|v] σ1] eqn:E.
  - destruct (Hm _ _ _ E) as (evs1 & T1 & F1).
    destruct (Hf a (HQ _ _ _ E) _ _ _ H) as (evs2 & T2 & F2).
    exists (evs1 ++ evs2). rewrite T2, T1, app_assoc. split; [reflexivity|].
    apply Forall_app; auto.
  - injection H as <- <-. eauto.
  - injection H as <- <-. eauto.
Qed.

Section Typed.

Variable T : list value.

Lemma typed_of_silent {A} (m : eff A) : emits silent m → emits (typed T) m.
Proof. apply emits_weaken. intros [] Hs; try contradiction; exact I. Qed.

Lemma typed_return_next {A} fsa : type_of fsa ∈ T → emits (typed T) (@return_next A fsa).
Proof.
  intros Hin. unfold return_next, next_.
  apply emits_bind; [|auto with emits].
  apply emits_bind; [apply emits_log; exact Hin|auto with emits].
Qed.

Lemma typed_next fsa : type_of fsa ∈ T → emits (typed T) (next_ fsa).
Proof.
  intros Hin. unfold next_.
  apply emits_bind; [apply emits_log; exact Hin|auto with emits].
Qed.

Lemma typed_awaited {A} ps args (f : value → eff A) :
  thenable (VObj ps) = false →
  (∀ fsa, type_of fsa = type_of (VObj ps) → emits (typed T) (f fsa)) →
  emits (typed T) (d ← actionWith (VObj ps) args; fsa ← await_ d; f fsa).
Proof.
  intros Hthen Hf.
  eapply emits_bind_post with
    (Q := λ d, type_of d = type_of (VObj ps) ∧ thenable d = false).
  - apply typed_of_silent, silent_actionWith.
  - intros σ d σ' H. split; [exact (proj2 (actionWith_type _ _ _ _ _ H))|].
    exact (actionWith_no_then _ _ _ _ _ Hthen H).
  - intros d [Hty Hno].
    eapply emits_bind_post with (Q := λ fsa, fsa = d).
    + apply typed_of_silent, silent_await.
    + intros σ fsa σ' H. rewrite (await_plain _ _ Hno) in H. congruence.
    + intros fsa ->. apply Hf, Hty.
Qed.

Lemma typed_request_error {A} action requestType message :
  no_then requestType →
  type_of requestType ∈ T →
  emits (typed T) (@request_error A action requestType message).
Proof.
  intros Hthen Hin. unfold request_error.
  apply emits_bind; [auto with emits|]. intros state. rewrite extends_error.
  apply typed_awaited.
  - rewrite !thenable_insert by discriminate. exact Hthen.
  - intros fsa Hfsa. apply typed_return_next. rewrite Hfsa.
    unfold type_of. cbn [own_props].
    rewrite !lookup_insert_ne by discriminate. exact Hin.
Qed.

Lemma typed_bail_out action c :
  no_then (c_requestType c) →
  type_of (c_requestType c) ∈ T → emits (typed T) (bail_out action c).
Proof.
  intros Hthen Hin. unfold bail_out. apply emits_bind.
  - apply typed_of_silent, emits_try.
    repeat apply emits_if; auto 8 using silent_call with emits.
  - intros [[|]|e]; auto using typed_request_error with emits.
Qed.

Lemma typed_process action c name field :
  no_then (c_requestType c) →
  type_of (c_requestType c) ∈ T → emits (typed T) (process action c name field).
Proof.
  intros Hthen Hin. unfold process. apply emits_if; [|auto with emits].
  apply emits_bind.
  - apply typed_of_silent. auto 8 using silent_call with emits.
  - intros [v|e]; auto using typed_request_error with emits.
Qed.

Lemma typed_call_api action c endpoint headers options requestType sp :
  c_successType c = VObj sp →
  no_then requestType → no_then (c_successType c) → no_then (c_failureType c) →
  type_of requestType ∈ T →
  type_of (c_successType c) ∈ T →
  type_of (c_failureType c) ∈ T →
  emits (typed T) (call_api action c endpoint headers options requestType).
Proof.
  intros Hsp Hrt Hst Hft Hr Hs Hf. unfold call_api.
  apply emits_bind.
  { apply emits_try. unfold fetch_.
    apply emits_bind; [apply emits_log; exact I|auto with emits]. }
  intros [res|e].
  - apply emits_if.
    + apply emits_bind; [auto with emits|]. intros state. rewrite Hsp in *.
      apply typed_awaited; [exact Hst|].
      intros fsa Hfsa. apply typed_return_next. rewrite Hfsa. exact Hs.
    + apply emits_bind; [auto with emits|]. intros state. rewrite extends_failure.
      apply typed_awaited.
      * rewrite thenable_insert by discriminate. exact Hft.
      * intros fsa Hfsa. apply typed_return_next. rewrite Hfsa.
        unfold type_of. cbn [own_props].
        rewrite !lookup_insert_ne by discriminate. exact Hf.
  - apply emits_bind; [auto with emits|]. intros message.
    apply typed_request_error; assumption.
Qed.

Lemma typed_dispatch_then_call action c endpoint headers options rps sp :
  c_requestType c = VObj rps →
  c_successType c = VObj sp →
  thenable (VObj rps) = false →
  no_then (c_successType c) → no_then (c_failureType c) →
  type_of (c_requestType c) ∈ T →
  type_of (c_successType c) ∈ T →
  type_of (c_failureType c) ∈ T →
  emits (typed T)
    (requestType ← dispatch_request action c;
     call_api action c endpoint headers options requestType).
Proof.
  intros Hreq Hsp Hthen Hst Hft Hr Hs Hf.
  eapply emits_bind_post with
    (Q := λ requestType, is_obj requestType ∧ thenable requestType = false
                         ∧ type_of requestType = type_of (VObj rps)).
  - unfold dispatch_request. apply emits_bind; [auto with emits|]. intros state.
    rewrite Hreq.
    eapply emits_bind_post with
      (Q := λ d, type_of d = type_of (VObj rps) ∧ thenable d = false).
    + apply typed_of_silent, silent_actionWith.
    + intros σ d σ' H. split; [exact (proj2 (actionWith_type _ _ _ _ _ H))|].
      exact (actionWith_no_then _ _ _ _ _ Hthen H).
    + intros d [Hty Hno].
      eapply emits_bind_post with (Q := λ fsa, fsa = d).
      * apply typed_of_silent, silent_await.
      * intros σ fsa σ' H. rewrite (await_plain _ _ Hno) in H. congruence.
      * intros fsa ->. apply emits_bind; [|auto with emits].
        apply typed_next. rewrite Hty, <- Hreq. exact Hr.
  - intros σ requestType σ' H.
    exact (dispatch_request_no_then _ _ _ _ _ _ Hreq Hthen H).
  - intros requestType (Hobj & Hno & Hrt). eapply typed_call_api; eauto.
    + destruct requestType; try contradiction. exact Hno.
    + rewrite Hrt, <- Hreq. exact Hr.
Qed.

End Typed.

(** X5.  Every notification that a validated request forwards has the type
    of one of its three descriptors (request, success or failure), as long
    as its request descriptor is a plain object and no descriptor has a
    [then] to call: the error notifications reuse the request type, and no
    resolver can change a type. *)
Theorem notification_types (action : value) (c : rsaa) (σ : state)
    (rps : gmap string value) :
  isRSAA action = true →
  validateRSAA action = [] →
  parse action σ = (Ok c, σ) →
  c_requestType c = VObj rps →
  thenable (VObj rps) = false →
  no_then (c_successType c) →
  no_then (c_failureType c) →
  ∃ evs,
    trace (snd (run action σ)) = trace σ ++ evs
    ∧ ∀ a, ENext a ∈ evs →
           type_of a = type_of (c_requestType c)
           ∨ type_of a = type_of (c_successType c)
           ∨ type_of a = type_of (c_failureType c).
Proof.
  intros Hr Hv Hp Hreq Hthen Hst Hft.
  assert (Hrt : no_then (c_requestType c)) by (rewrite Hreq; exact Hthen).
  destruct (parse_normalized _ _ _ _ Hp) as (slot & sp & fp & _ & Hsp & _).
  set (T := [type_of (c_requestType c); type_of (c_successType c);
             type_of (c_failureType c)]).
  assert (H1 : type_of (c_requestType c) ∈ T) by (unfold T; repeat constructor).
  assert (H2 : type_of (c_successType c) ∈ T) by (unfold T; repeat constructor).
  assert (H3 : type_of (c_failureType c) ∈ T) by (unfold T; repeat constructor).
  assert (Hall : emits (typed T)
    (bail_out action c;;
     endpoint ← process action c "endpoint" (c_endpoint c);
     headers ← process action c "headers" (c_headers c);
     options ← process action c "options" (c_options c);
     requestType ← dispatch_request action c;
     call_api action c endpoint headers options requestType)).
  { apply emits_bind; [apply typed_bail_out; assumption|]. intros _.
    apply emits_bind; [apply typed_process; assumption|]. intros endpoint.
    apply emits_bind; [apply typed_process; assumption|]. intros headers.
    apply emits_bind; [apply typed_process; assumption|]. intros options.
    eapply typed_dispatch_then_call; eauto. }
  destruct (apiMiddleware action σ) as [r σ'] eqn:H.
  pose proof H as H'. rewrite (apiMiddleware_valid _ _ _ Hr Hv Hp) in H'.
  destruct (Hall _ _ _ H') as (evs & Tr & F).
  exists evs. split.
  - unfold run. rewrite H. destruct r; exact Tr.
  - intros a Hin. rewrite Forall_forall in F. specialize (F _ Hin).
    cbn [typed] in F. unfold T in F.
    repeat (apply elem_of_cons in F as [F|F]; [auto|]).
    apply elem_of_nil in F. destruct F.
Qed.

(** ** The transport call and its two branches *)

(** X6.  The configuration handed to the transport: [method], [body],
    [credentials] and [headers] are the call descriptor's (the resolved
    headers), also when [options] has a property of that name and also when
    the descriptor's value is [undefined]; every other property is the one
    of the resolved [options]. *)
Theorem transport_config (c : rsaa) (options headers : value) (k : string) :
  get_prop (config_of c options headers) k =
  Done (if String.eqb k "method" then c_method c
        else if String.eqb k "body" then c_body c
        else if String.eqb k "credentials" then c_credentials c
        else if String.eqb k "headers" then headers
        else default VUndef (own_props options !! k)).
Proof.
  unfold config_of, _extends, obj. cbn [foldl own_props list_to_map foldr uncurry get_prop].
  rewrite (right_id ∅ (∪)). cbn [fst snd]. f_equal.
  destruct (String.eqb_spec k "method") as [->|H1];
    [erewrite lookup_union_Some_l; reflexivity|].
  destruct (String.eqb_spec k "body") as [->|H2];
    [erewrite lookup_union_Some_l; reflexivity|].
  destruct (String.eqb_spec k "credentials") as [->|H3];
    [erewrite lookup_union_Some_l; reflexivity|].
  destruct (String.eqb_spec k "headers") as [->|H4];
    [erewrite lookup_union_Some_l; reflexivity|].
  rewrite lookup_union_r; [reflexivity|].
  rewrite !lookup_insert_ne by congruence. apply lookup_empty.
Qed.

Lemma call_api_ok action c endpoint headers options requestType σ res w
      sp v σ3 m σ4 :
  fetch endpoint (config_of c options headers) (world σ) = (Done res, w) →
  ok res = true →
  c_successType c = VObj sp →
  thenable (VObj sp) = false →
  settle (default VUndef (sp !! "payload"))
    [AVal (seen action requestType); AVal (getState w); ARes res]
    (after_fetch σ endpoint (config_of c options headers) w) = (Ok v, σ3) →
  settle (default VUndef (sp !! "meta"))
    [AVal (seen action requestType); AVal (getState w); ARes res] σ3
    = (Ok m, σ4) →
  call_api action c endpoint headers options requestType σ
  = return_next (fsa_of sp v m) σ4.
Proof.
  intros Hfetch Hok Hsp Hthen Hpayload Hmeta. unfold call_api.
  rewrite bind_run, try_run, fetch_run, Hfetch, Hok. eff_simpl. rewrite Hsp.
  erewrite actionWith_settled; [|exact Hpayload|exact Hmeta].
  rewrite bind_run, await_plain; [reflexivity|].
  rewrite !thenable_insert by discriminate. exact Hthen.
Qed.

Lemma call_api_not_ok action c endpoint headers options requestType σ res w
      v σ3 m σ4 :
  fetch endpoint (config_of c options headers) (world σ) = (Done res, w) →
  ok res = false →
  no_then (c_failureType c) →
  settle (default VUndef (own_props (c_failureType c) !! "payload"))
    [AVal (seen action requestType); AVal (getState w); ARes res]
    (after_fetch σ endpoint (config_of c options headers) w) = (Ok v, σ3) →
  settle (meta_of (c_failureType c))
    [AVal (seen action requestType); AVal (getState w); ARes res] σ3
    = (Ok m, σ4) →
  call_api action c endpoint headers options requestType σ
  = return_next
      (fsa_of (<["error" := VBool true]> (own_props (c_failureType c))) v m) σ4.
Proof.
  intros Hfetch Hok Hthen Hpayload Hmeta. unfold call_api.
  rewrite bind_run, try_run, fetch_run, Hfetch, Hok. eff_simpl.
  rewrite extends_failure. erewrite actionWith_settled.
  - rewrite bind_run, await_plain; [reflexivity|].
    rewrite !thenable_insert by discriminate. exact Hthen.
  - rewrite lookup_insert_ne by discriminate. exact Hpayload.
  - rewrite lookup_insert_ne by discriminate. exact Hmeta.
Qed.

Lemma second_forwarded σ0 σ1 requestType fsa σ :
  forwarded (trace σ1) = forwarded (trace σ0) ++ [requestType] →
  forwarded (trace σ) = forwarded (trace σ1) →
  forwarded (trace (snd (handed_to_next fsa σ)))
  = forwarded (trace σ0) ++ [requestType; fsa].
Proof.
  intros H1 H. unfold handed_to_next. cbn [snd trace].
  rewrite forwarded_app, H, H1, <- app_assoc. reflexivity.
Qed.

Lemma after_fetch_forwarded σ endpoint config w :
  forwarded (trace (after_fetch σ endpoint config w)) = forwarded (trace σ).
Proof. cbn [after_fetch trace]. rewrite forwarded_app. apply app_nil_r. Qed.

Lemma child_put_child holder s c c' :
  child holder s = Some c → child (put_child holder s c') s = Some c'.
Proof.
  destruct s as [k|i], holder; cbn [child put_child]; try discriminate; intros Hc.
  all: try apply lookup_insert_eq.
  apply list_lookup_insert_eq. eapply lookup_lt_Some, Hc.
Qed.

Lemma get_at_plug holder place x d :
  get_at holder place = Some x → get_at (plug holder place d) place = Some d.
Proof.
  revert holder. induction place as [|s place IH]; intros holder; cbn [get_at plug].
  - reflexivity.
  - destruct (child holder s) as [c|] eqn:Hc; [|discriminate].
    cbn [mbind option_bind]. intros Hx.
    rewrite (child_put_child _ _ _ _ Hc). cbn [mbind option_bind]. exact (IH _ Hx).
Qed.

(** What the action shows of its request type descriptor. *)
Lemma seen_slot action requestType :
  (shared action = true →
   get_at (seen action requestType) request_slot = Some requestType)
  ∧ (shared action = false → seen action requestType = action).
Proof.
  unfold seen. split; intros Hs; rewrite Hs; [|reflexivity].
  unfold shared in Hs.
  destruct (get_at action request_slot) as [slot|] eqn:Hslot; [|discriminate].
  exact (get_at_plug _ _ _ _ Hslot).
Qed.

(** X7.  For a validated request that got as far as the transport and was
    answered: the second notification is the descriptor of the branch
    taken (success when the response is [ok], failure otherwise, the
    latter with [error] true) with its payload and meta replaced by what
    their resolvers settle to, provided the descriptor has no [then] to
    call.  Both resolvers are applied to the action, the state read after
    the transport call, and the response; the action they are given is the
    action as it stands by then: when its first types slot holds an object,
    that slot is the request type descriptor as [actionWith] left it,
    payload and meta resolved; when the slot holds a string or a symbol it
    is the action as received. *)
Theorem response_resolved (action : value) (c : rsaa)
    (endpoint headers options requestType : value) (σ0 σ1 : state)
    (res : response) (w : W) (v : value) (σ3 : state) (m : value) (σ4 : state) :
  isRSAA action = true →
  validateRSAA action = [] →
  reaches_transport action c endpoint headers options requestType σ0 σ1 →
  let config := config_of c options headers in
  let args := [AVal (seen action requestType); AVal (getState w); ARes res] in
  let descriptor := if ok res then c_successType c else c_failureType c in
  fetch endpoint config (world σ1) = (Done res, w) →
  no_then descriptor →
  settle (default VUndef (own_props descriptor !! "payload")) args
    (after_fetch σ1 endpoint config w) = (Ok v, σ3) →
  settle (meta_of descriptor) args σ3 = (Ok m, σ4) →
  let fsa := fsa_of (if ok res then own_props descriptor
                     else <["error" := VBool true]> (own_props descriptor)) v m in
  run action σ0 = handed_to_next fsa σ4
  ∧ forwarded (trace (snd (run action σ0)))
    = forwarded (trace σ0) ++ [requestType; fsa]
  ∧ type_of fsa = type_of descriptor
  ∧ get_prop fsa "payload" = Done v
  ∧ get_prop fsa "meta" = Done m
  ∧ (shared action = true →
     get_at (seen action requestType) request_slot = Some requestType)
  ∧ (shared action = false → seen action requestType = action).
Proof.
  intros Hr Hv Hreach config args descriptor Hfetch Hthen Hpayload Hmeta fsa.
  pose proof (reaches_transport_run _ _ _ _ _ _ _ _ Hr Hv Hreach) as Hrun.
  destruct (reaches_transport_forwarded _ _ _ _ _ _ _ _ Hreach) as [Hf1 _].
  destruct (silent_run _ _ _ _ (silent_settle _ _) Hpayload) as [Hf2 _].
  destruct (silent_run _ _ _ _ (silent_settle _ _) Hmeta) as [Hf3 _].
  rewrite after_fetch_forwarded in Hf2.
  destruct Hreach as (_ & _ & _ & _ & Hp & _).
  destruct (parse_normalized _ _ _ _ Hp) as (slot & sp & fp & _ & Hsp & _).
  assert (Hrun' : run action σ0 = handed_to_next fsa σ4).
  { apply run_return_next. rewrite Hrun. unfold fsa, descriptor in *.
    destruct (ok res) eqn:Hok.
    - rewrite Hsp in *. unfold meta_of in Hmeta. unfold no_then in Hthen.
      cbn [own_props] in *. eapply call_api_ok; eauto.
    - eapply call_api_not_ok; eauto. }
  rewrite Hrun'. split; [reflexivity|]. split; [|split; [|split; [|split]]].
  - apply (second_forwarded σ0 σ1); congruence.
  - unfold type_of, fsa, fsa_of. cbn [own_props].
    destruct (ok res); rewrite !lookup_insert_ne by discriminate; reflexivity.
  - unfold fsa, fsa_of. cbn [get_prop].
    rewrite lookup_insert_ne, lookup_insert_eq by discriminate. reflexivity.
  - unfold fsa, fsa_of. cbn [get_prop]. rewrite lookup_insert_eq. reflexivity.
  - apply seen_slot.
Qed.

(** X8.  A response made by [fakeJsonResponse] is treated like one of the
    transport: when the transport call of a validated request returns
    [fakeJsonResponse j] for a [j] that is no thenable, the success
    descriptor carries the default payload resolver and no [then] to call,
    and the success descriptor's meta resolver settles, the decoder of the
    fake response is invoked and the second notification is the success
    descriptor with payload [j]. *)
Theorem synthesized_response (action : value) (c : rsaa)
    (endpoint headers options requestType : value) (σ0 σ1 : state)
    (j : value) (w : W) (m : value) (σ4 : state) :
  isRSAA action = true →
  validateRSAA action = [] →
  reaches_transport action c endpoint headers options requestType σ0 σ1 →
  let config := config_of c options headers in
  let res := fakeJsonResponse j in
  fetch endpoint config (world σ1) = (Done res, w) →
  no_then (c_successType c) →
  own_props (c_successType c) !! "payload" = Some (VFun FSuccessPayload ∅) →
  thenable j = false →
  settle (meta_of (c_successType c))
    [AVal (seen action requestType); AVal (getState w); ARes res]
    {| world := w; trace := trace σ1 ++ [EFetch endpoint config; EJson res] |}
    = (Ok m, σ4) →
  let fsa := fsa_of (own_props (c_successType c)) j m in
  run action σ0 = handed_to_next fsa σ4
  ∧ forwarded (trace (snd (run action σ0)))
    = forwarded (trace σ0) ++ [requestType; fsa]
  ∧ get_prop fsa "payload" = Done j.
Proof.
  intros Hr Hv Hreach config res Hfetch Hthen Hpayload Hj Hmeta fsa.
  pose proof (reaches_transport_run _ _ _ _ _ _ _ _ Hr Hv Hreach) as Hrun.
  destruct (reaches_transport_forwarded _ _ _ _ _ _ _ _ Hreach) as [Hf1 _].
  destruct (silent_run _ _ _ _ (silent_settle _ _) Hmeta) as [Hf3 _].
  cbn [trace] in Hf3. rewrite forwarded_app in Hf3. cbn in Hf3.
  rewrite app_nil_r in Hf3.
  pose proof Hreach as (_ & _ & _ & _ & Hp & _).
  destruct (parse_normalized _ _ _ _ Hp) as (slot & sp & fp & _ & Hsp & _).
  assert (Hrun' : run action σ0 = handed_to_next fsa σ4).
  { apply run_return_next. rewrite Hrun.
    assert (Hjson : getJSON res (after_fetch σ1 endpoint config w)
              = (Ok j, {| world := w;
                          trace := trace σ1 ++ [EFetch endpoint config; EJson res] |})).
    { rewrite getJSON_run. unfold after_fetch. cbn. rewrite <- app_assoc. reflexivity. }
    exact (call_api_success _ _ _ _ _ _ _ _ _ _ _ _ _ Hfetch eq_refl
             (ex_intro _ sp Hsp) Hthen Hpayload Hjson Hj Hmeta). }
  rewrite Hrun'. split; [reflexivity|]. split.
  - apply (second_forwarded σ0 σ1); congruence.
  - unfold fsa, fsa_of. cbn [get_prop].
    rewrite lookup_insert_ne, lookup_insert_eq by discriminate. reflexivity.
Qed.

Lemma default_resolver_throws f action state res σ e :
  f = FSuccessPayload ∨ f = FFailurePayload →
  empty_body res = false →
  json res = Fail e →
  settle (VFun f ∅) [AVal action; AVal state; ARes res] σ
  = (Throw e, {| world := world σ; trace := trace σ ++ [EJson res] |}).
Proof.
  intros [-> | ->] Hbody Hjson; apply settle_call_throws; try reflexivity;
    cbn [call apply_fn lookup list_lookup];
    rewrite ?bind_run, getJSON_run, Hbody, Hjson; reflexivity.
Qed.

(** X9.  A body that cannot be decoded does not change the branch: when
    the decoder of the response rejects (with a value that has a message)
    under the default payload resolver, and the meta resolver of the
    branch's descriptor, which has no [then] to call, settles, the second
    notification is still the success descriptor for an [ok] response and
    the failure descriptor otherwise, with [error] true and the Internal
    Error of that message as payload, not the body and not an API error. *)
Theorem undecodable_body (action : value) (c : rsaa)
    (endpoint headers options requestType : value) (σ0 σ1 : state)
    (res : response) (w : W) (e message m : value) (σ4 : state) :
  isRSAA action = true →
  validateRSAA action = [] →
  reaches_transport action c endpoint headers options requestType σ0 σ1 →
  let config := config_of c options headers in
  let args := [AVal (seen action requestType); AVal (getState w); ARes res] in
  let descriptor := if ok res then c_successType c else c_failureType c in
  fetch endpoint config (world σ1) = (Done res, w) →
  no_then descriptor →
  empty_body res = false →
  json res = Fail e →
  get_prop e "message" = Done message →
  own_props descriptor !! "payload"
    = Some (VFun (if ok res then FSuccessPayload else FFailurePayload) ∅) →
  settle (meta_of descriptor) args
    {| world := w; trace := trace σ1 ++ [EFetch endpoint config; EJson res] |}
    = (Ok m, σ4) →
  let fsa := VObj (<["meta" := m]>
                   (<["error" := VBool true]>
                    (<["payload" := InternalError message]>
                     (own_props descriptor)))) in
  run action σ0 = handed_to_next fsa σ4
  ∧ forwarded (trace (snd (run action σ0)))
    = forwarded (trace σ0) ++ [requestType; fsa]
  ∧ type_of fsa = type_of descriptor
  ∧ get_prop fsa "error" = Done (VBool true)
  ∧ get_prop fsa "payload" = Done (InternalError message).
Proof.
  intros Hr Hv Hreach config args descriptor Hfetch Hthen Hbody Hjson Hmsg Hpayload Hmeta
         fsa.
  pose proof (reaches_transport_run _ _ _ _ _ _ _ _ Hr Hv Hreach) as Hrun.
  destruct (reaches_transport_forwarded _ _ _ _ _ _ _ _ Hreach) as [Hf1 _].
  destruct (silent_run _ _ _ _ (silent_settle _ _) Hmeta) as [Hf3 _].
  cbn [trace] in Hf3. rewrite forwarded_app in Hf3. cbn in Hf3.
  rewrite app_nil_r in Hf3.
  pose proof Hreach as (_ & _ & _ & _ & Hp & _).
  destruct (parse_normalized _ _ _ _ Hp) as (slot & sp & fp & _ & Hsp & _).
  assert (Hthrow : ∀ f, f = FSuccessPayload ∨ f = FFailurePayload →
            settle (VFun f ∅) args (after_fetch σ1 endpoint config w)
            = (Throw e, {| world := w;
                           trace := trace σ1 ++ [EFetch endpoint config; EJson res] |})).
  { intros f Hf. unfold args. rewrite (default_resolver_throws f _ _ _ _ e Hf Hbody Hjson).
    unfold after_fetch. cbn [world trace]. rewrite <- app_assoc. reflexivity. }
  assert (Hrun' : run action σ0 = handed_to_next fsa σ4).
  { apply run_return_next. rewrite Hrun. unfold call_api.
    rewrite bind_run, try_run, fetch_run. fold config. rewrite Hfetch.
    unfold fsa, descriptor in *. destruct (ok res) eqn:Hok.
    - eff_simpl. rewrite Hsp in *. unfold meta_of in Hmeta. unfold no_then in Hthen.
      cbn [own_props] in *.
      erewrite actionWith_payload_throws; [| |exact Hmsg|exact Hmeta].
      + rewrite bind_run, await_plain; [reflexivity|].
        rewrite !thenable_insert by discriminate. exact Hthen.
      + rewrite Hpayload. apply Hthrow. auto.
    - eff_simpl. rewrite extends_failure.
      erewrite actionWith_payload_throws; [| |exact Hmsg|].
      + rewrite (insert_insert_ne _ "payload" "error") by discriminate.
        rewrite insert_insert_eq.
        rewrite bind_run, await_plain; [reflexivity|].
        rewrite !thenable_insert by discriminate. exact Hthen.
      + rewrite lookup_insert_ne by discriminate. rewrite Hpayload.
        apply Hthrow. auto.
      + rewrite lookup_insert_ne by discriminate. exact Hmeta. }
  rewrite Hrun'. split; [reflexivity|]. split; [|split; [|split]].
  - apply (second_forwarded σ0 σ1); congruence.
  - unfold type_of, fsa. cbn [own_props].
    rewrite !lookup_insert_ne by discriminate. reflexivity.
  - unfold fsa. cbn [get_prop].
    rewrite lookup_insert_ne, lookup_insert_eq by discriminate. reflexivity.
  - unfold fsa. cbn [get_prop].
    rewrite lookup_insert_ne, lookup_insert_ne, lookup_insert_eq by discriminate.
    reflexivity.
Qed.

(** ** The normalizer and the fake header, at the edges *)

Lemma normalize_items types items :
  iterate types = Done items →
  normalizeTypeDescriptors types
  = Done [wrap (nth 0 items VUndef);
          VObj (with_default FSuccessPayload (descriptor_of (nth 1 items VUndef)));
          VObj (with_default FFailurePayload (descriptor_of (nth 2 items VUndef)))].
Proof.
  intros Hit. unfold normalizeTypeDescriptors. rewrite Hit.
  rewrite !spread_default, !own_props_wrap. reflexivity.
Qed.

(** X10.  The normalizer throws exactly on a types value that is neither
    an array nor a string.  On an array of any length it returns three
    descriptors, the second and third plain objects that carry a payload:
    a missing slot counts as [undefined] (the request descriptor is then
    [undefined], the other two hold the default resolver alone), and
    slots past the third are ignored. *)
Theorem normalize_any_array :
  (∀ types,
     (∃ l, normalizeTypeDescriptors types = Done l)
     ↔ isArray types = true ∨ typeof types = "string")
  ∧ (∀ types l,
       normalizeTypeDescriptors types = Done l →
       ∃ r sp fp, l = [r; VObj sp; VObj fp]
                  ∧ is_Some (sp !! "payload") ∧ is_Some (fp !! "payload"))
  ∧ (∀ r s f rest ps,
       normalizeTypeDescriptors (VArr (r :: s :: f :: rest) ps)
       = normalizeTypeDescriptors (arr [r; s; f]))
  ∧ (∀ ps,
       normalizeTypeDescriptors (VArr [] ps)
       = Done [VUndef;
               obj [("payload", VFun FSuccessPayload ∅)];
               obj [("payload", VFun FFailurePayload ∅)]])
  ∧ (∀ r ps,
       normalizeTypeDescriptors (VArr [r] ps)
       = Done [wrap r;
               obj [("payload", VFun FSuccessPayload ∅)];
               obj [("payload", VFun FFailurePayload ∅)]]).
Proof.
  split; [|split; [|split; [|split]]].
  - intros types. split.
    + intros [l Hl]. unfold normalizeTypeDescriptors in Hl.
      destruct types; try discriminate; auto.
    + intros [Harr | Hstr].
      * destruct types; try discriminate. eexists. apply normalize_items. reflexivity.
      * destruct types; try discriminate. eexists. apply normalize_items. reflexivity.
  - intros types l Hl. destruct (normalize_shape _ _ Hl) as (r & sp & fp & -> & Hs & Hf).
    eauto 6.
  - intros r s f rest ps.
    rewrite (normalize_items _ (r :: s :: f :: rest)) by reflexivity.
    rewrite (normalize_items (arr [r; s; f]) [r; s; f]) by reflexivity. reflexivity.
  - intros ps. rewrite (normalize_items _ []) by reflexivity. reflexivity.
  - intros r ps. rewrite (normalize_items _ [r]) by reflexivity. reflexivity.
Qed.

(** X11.  [_fakeHeader] answers 'application/json' exactly for the header
    names that read 'content-type' once lowercased, the default name
    (the empty one) not among them; for every other name it answers its
    fixed text, never [null]; and every answer mentions [json]. *)
Theorem fakeHeader_content_type (header : option string) :
  (_fakeHeader header = "application/json"
   ↔ toLowerCase (default "" header) = "content-type")
  ∧ (toLowerCase (default "" header) ≠ "content-type" →
     _fakeHeader header = faked_header)
  ∧ _fakeHeader None = faked_header
  ∧ indicates_json (Some (_fakeHeader header)) = true.
Proof.
  unfold _fakeHeader.
  destruct (String.eqb_spec (toLowerCase (default "" header)) "content-type") as [He|He].
  - split; [split; auto|]. split; [intros Hne; destruct (Hne He)|].
    split; reflexivity.
  - split; [split; [discriminate|intros H; destruct (He H)]|].
    split; [reflexivity|]. split; reflexivity.
Qed.

(** ** More paths of the middleware *)

(** X12.  The request is abandoned only for a [bailout] that is the boolean
    [true] or a function returning a truthy value: a [bailout] that is
    neither a boolean nor a function lets the request pass even when it is
    truthy (1, 'yes', an object), and so do [false] and a function
    returning a falsy value. *)
Theorem bailout_decides (action : value) (c : rsaa) (σ : state) :
  (is_function (c_bailout c) = false →
   bail_out action c σ
   = if match c_bailout c with VBool true => true | _ => false end
     then (Return VUndef, σ) else (Ok tt, σ))
  ∧ (∀ b σ1,
       is_function (c_bailout c) = true →
       call (c_bailout c) [AVal (getState (world σ))] σ = (Ok b, σ1) →
       bail_out action c σ
       = if truthy b then (Return VUndef, σ1) else (Ok tt, σ1)).
Proof.
  split.
  - intros Hf. rewrite bail_out_run. unfold is_function in Hf. rewrite Hf.
    destruct (c_bailout c) as [| |[|]| | | | | | |]; reflexivity.
  - intros b σ1 Hf Hcall. unfold is_function in Hf.
    rewrite bail_out_function, Hcall; [reflexivity|].
    destruct (c_bailout c); try discriminate. reflexivity.
Qed.

(** X13.  An invalid request whose call descriptor is [undefined] or [null]
    makes the middleware's promise reject: reading its [types] throws
    before anything is forwarded, and the state is left as it was. *)
Theorem invalid_without_descriptor (action callAPI : value) (σ : state) :
  isRSAA action = true →
  validateRSAA action ≠ [] →
  get_prop action CALL_API = Done callAPI →
  callAPI = VUndef ∨ callAPI = VNull →
  ∃ e, run action σ = (Fail e, σ) ∧ has_message e.
Proof.
  intros Hr Hv Hc Hnull. unfold run, apiMiddleware. rewrite Hr.
  destruct (validateRSAA action); [congruence|]. cbn [negb List.length Nat.eqb].
  unfold dispatch_invalid. rewrite bind_run, Hc. cbn [lift mret eff_ret].
  rewrite bind_run.
  destruct Hnull as [-> | ->]; cbn [get_prop lift throw];
    (eexists; split; [reflexivity|eexists; reflexivity]).
Qed.

(** X14.  When a field function (endpoint, headers or options) throws and
    the meta resolver of the request descriptor, which has no [then] to
    call, throws too (a value that has a message), the one notification
    forwarded is the request descriptor without [meta], with [error] true
    and the Internal Error of the meta failure as payload: the request
    error of the field is lost. *)
Theorem field_error_meta_fails (action : value) (c : rsaa) (name : string)
    (field : value) (σ : state) (e : value) (σ1 : state) (e' message' : value)
    (σ2 : state) :
  no_then (c_requestType c) →
  evaluate field [AVal (getState (world σ))] σ = (Throw e, σ1) →
  settle (meta_of (c_requestType c)) [AVal action; AVal (getState (world σ1))] σ1
    = (Throw e', σ2) →
  get_prop e' "message" = Done message' →
  let fsa := VObj (<["error" := VBool true]>
                   (<["payload" := InternalError message']>
                    (delete "meta" (own_props (c_requestType c))))) in
  process action c name field σ = return_next fsa σ2
  ∧ type_of fsa = type_of (c_requestType c)
  ∧ get_prop fsa "meta" = Done VUndef
  ∧ get_prop fsa "payload" = Done (InternalError message').
Proof.
  intros Hthen Hf Hm He fsa. split; [|split; [|split]].
  - rewrite process_run, Hf.
    exact (request_error_meta_throws _ _ _ _ _ _ _ Hthen Hm He).
  - unfold type_of, fsa. cbn [own_props].
    rewrite !lookup_insert_ne by discriminate.
    rewrite lookup_delete_ne by discriminate. reflexivity.
  - unfold fsa. cbn [get_prop]. rewrite !lookup_insert_ne by discriminate.
    rewrite lookup_delete_eq. reflexivity.
  - unfold fsa. cbn [get_prop].
    rewrite lookup_insert_ne, lookup_insert_eq by discriminate. reflexivity.
Qed.

(** ** Thenables and the shared request type descriptor *)

(** X16.  [actionWith] awaits a payload that is not a function as well: a
    payload that is a thenable is adopted.  Its [then] is called, with the
    two resolving functions.  When that resolves, the descriptor gets the
    value it resolves with, not the thenable; when it rejects with a value
    that has a message, the descriptor gets the internal error of that
    message and [error] true.  In both cases the meta resolver, which is
    taken to settle, runs after it. *)
Theorem actionWith_adopts_thenable (ps : gmap string value) (args : list arg)
    (σ : state) (p then_ : value) :
  ps !! "payload" = Some p →
  is_function p = false →
  then_of p = Some then_ →
  (∀ x σ1 m σ2,
     call then_ [AResolve; AReject] σ = (Ok x, σ1) →
     settle (default VUndef (ps !! "meta"))
       (present (VObj (<["payload" := x]> ps)) args) σ1 = (Ok m, σ2) →
     actionWith (VObj ps) args σ = (Ok (fsa_of ps x m), σ2))
  ∧ (∀ e message σ1 m σ2,
       call then_ [AResolve; AReject] σ = (Throw e, σ1) →
       get_prop e "message" = Done message →
       settle (default VUndef (ps !! "meta"))
         (present (VObj (<["error" := VBool true]>
                         (<["payload" := InternalError message]> ps))) args) σ1
         = (Ok m, σ2) →
       actionWith (VObj ps) args σ
       = (Ok (VObj (<["meta" := m]>
                    (<["error" := VBool true]>
                     (<["payload" := InternalError message]> ps)))), σ2)).
Proof.
  intros Hp Hf Hthen.
  assert (Hsettle : ∀ a, settle p a σ = call then_ [AResolve; AReject] σ).
  { intros a. rewrite settle_run, (evaluate_static _ _ _ Hf).
    unfold await_. rewrite Hthen. reflexivity. }
  split.
  - intros x σ1 m σ2 Hcall Hm. unfold fsa_of.
    apply (actionWith_settled ps args σ x σ1 m σ2); [|exact Hm].
    rewrite Hp. cbn [default]. rewrite Hsettle. exact Hcall.
  - intros e message σ1 m σ2 Hcall He Hm.
    apply (actionWith_payload_throws ps args σ e message σ1 m σ2); [|exact He|exact Hm].
    rewrite Hp. cbn [default]. rewrite Hsettle. exact Hcall.
Qed.

(** X17.  A request type descriptor that is the first slot of the types
    array is resolved inside the action.  Its payload resolver is given the
    action as received; its meta resolver is given the action whose first
    types slot already holds the resolved payload, not the payload function;
    and once both have settled the action holds, in that slot, the
    notification that is forwarded (the descriptor having no [then] to
    call). *)
Theorem request_resolved_in_place (action : value) (c : rsaa) (σ : state)
    (rps : gmap string value) (p : value) (σ1 : state) (m : value) (σ2 : state)
    (v : value) (w : W) :
  parse action σ = (Ok c, σ) →
  shared action = true →
  c_requestType c = VObj rps →
  thenable (VObj rps) = false →
  let state := getState (world σ) in
  let resolving := VObj (<["payload" := p]> rps) in
  let request := fsa_of rps p m in
  settle (default VUndef (rps !! "payload")) [AVal action; AVal state] σ = (Ok p, σ1) →
  settle (default VUndef (rps !! "meta")) [AVal (seen action resolving); AVal state] σ1
    = (Ok m, σ2) →
  next request (world σ2) = (Done v, w) →
  dispatch_request action c σ
  = (Ok request, {| world := w; trace := trace σ2 ++ [ENext request] |})
  ∧ get_at action request_slot = Some (VObj rps)
  ∧ get_at (seen action resolving) request_slot = Some resolving
  ∧ get_at (seen action request) request_slot = Some request.
Proof.
  intros Hparse Hshared Hreq Hthen state resolving request Hp Hm Hnext.
  pose proof (seen_untouched _ _ _ _ Hparse) as Hseen. rewrite Hreq in Hseen.
  split; [|split; [|split]].
  - unfold dispatch_request. eff_simpl. rewrite Hreq.
    erewrite actionWith_settled.
    + rewrite bind_run, await_plain
        by (rewrite !thenable_insert by discriminate; exact Hthen).
      eff_simpl. rewrite next_run. unfold request, fsa_of in *. cbn [world].
      rewrite Hnext. reflexivity.
    + rewrite present_held, Hseen. exact Hp.
    + rewrite present_held. exact Hm.
  - destruct (seen_slot action (VObj rps)) as [Hs _].
    rewrite <- (Hs Hshared), Hseen. reflexivity.
  - apply seen_slot, Hshared.
  - apply seen_slot, Hshared.
Qed.

Lemma then_of_resolved ps args σ d σ' then_ :
  actionWith (VObj ps) args σ = (Ok d, σ') →
  then_of (VObj ps) = Some then_ →
  then_of d = Some then_.
Proof.
  intros Ha Hthen.
  pose proof (actionWith_obj (VObj ps) _ _ _ _ I Ha) as Hobj.
  destruct (actionWith_only_resolved _ _ _ _ _ Ha) as [Hkeep _].
  destruct d as [| | | | | |ps'| | |]; try contradiction.
  specialize (Hkeep "then" ltac:(discriminate) ltac:(discriminate)
                ltac:(discriminate)).
  cbn [then_of get_prop] in *. injection Hkeep as Heq.
  destruct (ps !! "then") as [t|] eqn:E; [|discriminate].
  destruct t; try discriminate. injection Hthen as <-.
  cbn [default] in Heq.
  destruct (ps' !! "then") as [t'|]; cbn [default] in Heq; [|discriminate].
  unfold id in Heq. rewrite Heq. reflexivity.
Qed.

(** X18.  What is forwarded as the request notification is what awaiting
    [actionWith] yields, and that await is outside every [try] (line 196).
    A request type descriptor with a [then] that can be called is adopted
    once [actionWith] has resolved it: when its [then] resolves, the value
    it resolves with is forwarded in place of the descriptor; when it
    rejects, nothing is forwarded, the transport is not called and the
    promise of the middleware rejects with what [then] rejected with. *)
Theorem descriptor_adopted (action : value) (c : rsaa) (σ0 σ σ1 : state)
    (endpoint headers options : value) (rps : gmap string value) (then_ d : value) :
  isRSAA action = true →
  validateRSAA action = [] →
  parse action σ0 = (Ok c, σ0) →
  (∃ σa σb σc,
     bail_out action c σ0 = (Ok tt, σa)
     ∧ process action c "endpoint" (c_endpoint c) σa = (Ok endpoint, σb)
     ∧ process action c "headers" (c_headers c) σb = (Ok headers, σc)
     ∧ process action c "options" (c_options c) σc = (Ok options, σ)) →
  c_requestType c = VObj rps →
  then_of (VObj rps) = Some then_ →
  actionWith (VObj rps) [held action; AVal (getState (world σ))] σ = (Ok d, σ1) →
  (∀ x σ2 v w,
     call then_ [AResolve; AReject] σ1 = (Ok x, σ2) →
     next x (world σ2) = (Done v, w) →
     dispatch_request action c σ
     = (Ok d, {| world := w; trace := trace σ2 ++ [ENext x] |}))
  ∧ (∀ e σ2,
       call then_ [AResolve; AReject] σ1 = (Throw e, σ2) →
       run action σ0 = (Fail e, σ2)
       ∧ forwarded (trace σ2) = forwarded (trace σ0)
       ∧ fetched (trace σ2) = fetched (trace σ0)).
Proof.
  intros Hr Hv Hp (σa & σb & σc & Hb & He & Hh & Ho) Hreq Hthen Ha.
  pose proof (then_of_resolved _ _ _ _ _ _ Ha Hthen) as Hd.
  assert (Hawait : await_ d σ1 = call then_ [AResolve; AReject] σ1)
    by (unfold await_; rewrite Hd; reflexivity).
  split.
  - intros x σ2 v w Hcall Hnext. unfold dispatch_request. eff_simpl.
    rewrite Hreq, Ha, bind_run, Hawait, Hcall, bind_run, next_run, Hnext.
    reflexivity.
  - intros e σ2 Hcall.
    destruct (bail_out_passed _ _ _ _ Hb) as [Hf1 Hg1].
    destruct (process_passed _ _ _ _ _ _ _ He) as [Hf2 Hg2].
    destruct (process_passed _ _ _ _ _ _ _ Hh) as [Hf3 Hg3].
    destruct (process_passed _ _ _ _ _ _ _ Ho) as [Hf4 Hg4].
    destruct (silent_run _ _ _ _ (silent_actionWith _ _) Ha) as [Hf5 Hg5].
    destruct (silent_run _ _ _ _ (silent_call _ _) Hcall) as [Hf6 Hg6].
    split; [|split; congruence].
    unfold run. rewrite (apiMiddleware_valid _ _ _ Hr Hv Hp).
    rewrite bind_run, Hb, bind_run, He, bind_run, Hh, bind_run, Ho, bind_run.
    unfold dispatch_request. eff_simpl.
    rewrite Hreq, Ha, bind_run, Hawait, Hcall. reflexivity.
Qed.

End Middleware.

(** ** The middleware at work in the small host *)

Local Abbreviation demo_run :=
  (run demo_getState demo_next demo_fetch demo_call_user
       demo_isRSAA demo_validateRSAA demo_CALL_API).

Local Abbreviation start := {| world := 0%nat; trace := [] |}.

Lemma demo_isRSAA_carries (a : value) :
  demo_isRSAA a = true → carries a demo_CALL_API.
Proof.
  destruct a; try discriminate. intros H. exact (bool_decide_eq_true_1 _ H).
Defined.

(** A plain action goes straight through. *)
Lemma passthrough_unchanged_witness :
  demo_run plain_action start
  = (Done plain_action, {| world := 1%nat; trace := [ENext plain_action] |}).
Proof.
  refine (proj1 (passthrough_unchanged demo_getState demo_next demo_fetch
                   demo_call_user demo_isRSAA demo_validateRSAA demo_CALL_API
                   plain_action start demo_isRSAA_carries _)).
  intros [v Hv]. vm_compute in Hv. discriminate Hv.
Defined.

(** A triple of full descriptors with their own payloads comes back as it
    is, and a bare triple gets the defaults. *)
Lemma normalize_defaults_witness :
  normalizeTypeDescriptors
    (arr [VObj {[ "type" := VStr "REQUEST" ]};
          VObj (<["payload" := VStr "cached"]> {[ "type" := VStr "SUCCESS" ]});
          VObj (<["payload" := VNull]> {[ "type" := VStr "FAILURE" ]})])
  = Done [VObj {[ "type" := VStr "REQUEST" ]};
          VObj (<["payload" := VStr "cached"]> {[ "type" := VStr "SUCCESS" ]});
          VObj (<["payload" := VNull]> {[ "type" := VStr "FAILURE" ]})]
  ∧ normalizeTypeDescriptors
      (arr [obj [("type", VStr "REQUEST")];
            obj [("payload", VFun FSuccessPayload ∅); ("type", VStr "SUCCESS")];
            obj [("payload", VFun FFailurePayload ∅); ("type", VStr "FAILURE")]])
    = Done [obj [("type", VStr "REQUEST")];
            obj [("payload", VFun FSuccessPayload ∅); ("type", VStr "SUCCESS")];
            obj [("payload", VFun FFailurePayload ∅); ("type", VStr "FAILURE")]]
  ∧ with_default FSuccessPayload (descriptor_of (VStr "SUCCESS")) !! "type"
    = Some (VStr "SUCCESS").
Proof.
  destruct (normalize_defaults demo_call_user) as (Hshape & Hkeep & Hfull & Hidem & _).
  split; [|split].
  - apply Hfull; eexists; reflexivity.
  - apply (Hidem bare_types). apply (Hshape (VStr "REQUEST") (VStr "SUCCESS") (VStr "FAILURE")).
  - apply Hkeep. reflexivity.
Defined.

(** C6, at an input where the code breaks the claim: the payload function
    of the descriptor rejects with no reason, the handler of [actionWith]
    reads [e.message] of [undefined], and [actionWith] itself throws a
    [TypeError] instead of returning a notification. *)
Theorem actionWith_rejects_on_empty_rejection :
  actionWith demo_call_user rejecting_descriptor
    [AVal plain_action; AVal (demo_getState 0)] start
  = (Throw (TypeError "Cannot read property message"),
     {| world := 0%nat;
        trace := [ECall 2 [AVal plain_action; AVal (demo_getState 0)]] |}).
Proof. vm_compute. reflexivity. Qed.

(** C3, at an input where the code breaks the claim: validation fails on
    a request whose types array is empty, so no request-type identifier can
    be told from it; the code takes the missing first slot for the request
    type and forwards one notification all the same, of type [undefined],
    where the claim has none forwarded. *)
Theorem invalid_request_empty_types :
  demo_isRSAA empty_types_action = true
  ∧ demo_validateRSAA empty_types_action
    = ["[CALL_API].types property must be an array of length 3"]
  ∧ get_prop empty_types_action demo_CALL_API
    = Done (obj [("endpoint", VStr "http://api/ok"); ("types", arr [])])
  ∧ request_type_identifier (arr []) = None
  ∧ demo_run empty_types_action start
    = (Done VUndef,
       {| world := 1%nat;
          trace := [ENext (obj [("type", VUndef);
                                ("payload",
                                 InvalidRSAA ["[CALL_API].types property must be an array of length 3"]);
                                ("error", VBool true)])] |})
  ∧ forwarded (trace (snd (demo_run empty_types_action start))) ≠ [].
Proof. repeat split; try (vm_compute; reflexivity). vm_compute. discriminate. Qed.

(** A types array that is too short, with a full descriptor in its first
    slot; an empty types array; and types that are not an array. *)
Lemma invalid_request_witness :
  (trace (snd (demo_run short_types_action start))
   = [ENext (invalid_fsa (arr [obj [("type", VStr "REQUEST")]])
               (demo_validateRSAA short_types_action))]
   ∧ get_prop (invalid_fsa (arr [obj [("type", VStr "REQUEST")]])
                 (demo_validateRSAA short_types_action)) "type"
     = Done (VStr "REQUEST"))
  ∧ trace (snd (demo_run empty_types_action start))
    = [ENext (invalid_fsa (arr []) (demo_validateRSAA empty_types_action))]
  ∧ demo_run no_types_action start = (Done VUndef, start).
Proof.
  split; [|split].
  - pose proof (invalid_request demo_getState demo_next demo_fetch demo_call_user
                  demo_isRSAA demo_validateRSAA demo_CALL_API
                  short_types_action
                  (obj [("endpoint", VStr "http://api/ok");
                        ("types", arr [obj [("type", VStr "REQUEST")]])])
                  (arr [obj [("type", VStr "REQUEST")]]) start) as H.
    destruct H as (Htrace & _ & _ & _ & _ & Hid);
      [reflexivity|discriminate|reflexivity|reflexivity|].
    split; [exact Htrace|]. apply Hid; reflexivity.
  - pose proof (invalid_request demo_getState demo_next demo_fetch demo_call_user
                  demo_isRSAA demo_validateRSAA demo_CALL_API
                  empty_types_action
                  (obj [("endpoint", VStr "http://api/ok"); ("types", arr [])])
                  (arr []) start) as H.
    destruct H as [H _]; [reflexivity|discriminate|reflexivity|reflexivity|].
    exact H.
  - apply (invalid_request demo_getState demo_next demo_fetch demo_call_user
             demo_isRSAA demo_validateRSAA demo_CALL_API
             no_types_action (obj [("endpoint", VStr "http://api/ok")]) VUndef start);
      [reflexivity|discriminate|reflexivity|reflexivity].
Defined.





Local Abbreviation request_sent :=
  (obj [("type", VStr "REQUEST"); ("payload", VUndef); ("meta", VUndef)]).

(** A 404 with an empty body, and a transport that throws. *)
Lemma transport_outcomes_witness :
  forwarded (trace (snd (demo_run (static_action "http://api/missing") start)))
  = [request_sent;
     obj [("type", VStr "FAILURE");
          ("payload", ApiError 404 "Not Found" VUndef);
          ("error", VBool true);
          ("meta", VUndef)]]
  ∧ forwarded (trace (snd (demo_run (static_action "http://api/down") start)))
    = [request_sent;
       obj [("type", VStr "REQUEST");
            ("payload", RequestError (VStr "Failed to fetch"));
            ("error", VBool true);
            ("meta", VUndef)]].
Proof.
  split.
  - pose proof (λ c rt σ1, transport_outcomes demo_getState demo_next demo_fetch
                  demo_call_user demo_isRSAA demo_validateRSAA demo_CALL_API
                  (static_action "http://api/missing") c
                  (VStr "http://api/missing") VUndef (obj []) rt start σ1
                  eq_refl eq_refl) as H.
    edestruct H as [Hfail _];
      [do 4 eexists; repeat split; reflexivity|].
    edestruct (Hfail response_not_found) as (_ & Hfw & _);
      [reflexivity|reflexivity|reflexivity|reflexivity|reflexivity|reflexivity
      |reflexivity|].
    exact Hfw.
  - pose proof (λ c rt σ1, transport_outcomes demo_getState demo_next demo_fetch
                  demo_call_user demo_isRSAA demo_validateRSAA demo_CALL_API
                  (static_action "http://api/down") c
                  (VStr "http://api/down") VUndef (obj []) rt start σ1
                  eq_refl eq_refl) as H.
    edestruct H as [_ Hthrow];
      [do 4 eexists; repeat split; reflexivity|].
    edestruct (Hthrow network_error) as (_ & Hfw & _);
      [reflexivity|reflexivity|reflexivity|reflexivity|].
    exact Hfw.
Defined.

(** The failure slot brings its own payload: the failure notification
    carries it, not an API error. *)
Lemma failure_payload_kept :
  demo_isRSAA own_failure_payload_action = true
  ∧ demo_validateRSAA own_failure_payload_action = []
  ∧ demo_fetch (VStr "http://api/missing") VUndef 1%nat
    = (Done response_not_found, 1%nat)
  ∧ ok response_not_found = false
  ∧ status response_not_found = 404
  ∧ statusText response_not_found = "Not Found"
  ∧ forwarded (trace (snd (demo_run own_failure_payload_action start)))
    = [request_sent;
       obj [("type", VStr "FAILURE"); ("payload", VStr "gone");
            ("error", VBool true); ("meta", VUndef)]]
  ∧ VStr "gone" ≠ ApiError 404 "Not Found" VUndef.
Proof. repeat split; try (vm_compute; reflexivity). discriminate. Qed.

(** A static request, answered 200 with the JSON body [{a: 1}]. *)
Lemma static_request_success_witness :
  (∃ rest,
     trace (snd (demo_run (static_action "http://api/ok") start))
     = ENext request_sent
       :: EFetch (VStr "http://api/ok")
            (obj [("method", VStr "GET"); ("body", VUndef);
                  ("credentials", VUndef); ("headers", VUndef)])
       :: rest)
  ∧ forwarded (trace (snd (demo_run (static_action "http://api/ok") start)))
    = [request_sent;
       obj [("type", VStr "SUCCESS");
            ("payload", obj [("a", VNum 1)]);
            ("meta", VUndef)]].
Proof.
  pose proof (λ c rps, static_request_success demo_getState demo_next demo_fetch
                demo_call_user demo_isRSAA demo_validateRSAA demo_CALL_API
                (static_action "http://api/ok") c start rps request_sent 1%nat
                eq_refl eq_refl) as H.
  edestruct H as (Hfirst & _ & _ & Hsuccess);
    [reflexivity|left; reflexivity|reflexivity|reflexivity|reflexivity|reflexivity
    |reflexivity|reflexivity|reflexivity|reflexivity|reflexivity|reflexivity
    |reflexivity|reflexivity|].
  split; [exact Hfirst|].
  edestruct (Hsuccess response_ok 1%nat) as (_ & Hfw & _);
    [reflexivity|reflexivity|reflexivity|reflexivity|reflexivity|reflexivity
    |reflexivity|].
  exact Hfw.
Defined.

(** The success slot brings its own payload: the success notification
    carries it, not the body of the response. *)
Lemma success_payload_kept :
  demo_isRSAA own_success_payload_action = true
  ∧ demo_validateRSAA own_success_payload_action = []
  ∧ demo_fetch (VStr "http://api/ok") VUndef 1%nat = (Done response_ok, 1%nat)
  ∧ ok response_ok = true
  ∧ status response_ok = 200
  ∧ statusText response_ok = "OK"
  ∧ headers_get response_ok "Content-Type" = Some "application/json"
  ∧ json response_ok = Done (obj [("a", VNum 1)])
  ∧ forwarded (trace (snd (demo_run own_success_payload_action start)))
    = [request_sent;
       obj [("type", VStr "SUCCESS"); ("payload", VStr "cached"); ("meta", VUndef)]]
  ∧ VStr "cached" ≠ obj [("a", VNum 1)].
Proof. repeat split; try (vm_compute; reflexivity). discriminate. Qed.

(** ** The further properties at work in the small host *)

Lemma demo_next_accepts (a : value) (w : nat) :
  ∃ v w', demo_next a w = (Done v, w').
Proof. eexists _, _. reflexivity. Defined.

Lemma polite_call_user_polite n a w e w' :
  polite_call_user n a w = (Fail e, w') → has_message e.
Proof.
  destruct n as [|[|[|[|[|n]]]]]; cbn; intros H; try discriminate H.
  injection H as <- _. eexists. reflexivity.
Defined.

Lemma demo_fetch_polite ep cf w e w' :
  demo_fetch ep cf w = (Fail e, w') → has_message e.
Proof.
  assert (Hnet : has_message network_error) by (eexists; reflexivity).
  unfold demo_fetch. destruct ep; try (intros [= <- _]; exact Hnet).
  destruct (String.eqb s "http://api/ok"); [discriminate|].
  destruct (String.eqb s "http://api/missing"); [discriminate|].
  intros [= <- _]. exact Hnet.
Defined.

Lemma demo_fetch_responses ep cf w res w' :
  demo_fetch ep cf w = (Done res, w') → polite res.
Proof.
  unfold demo_fetch. destruct ep; try discriminate.
  destruct (String.eqb s "http://api/ok").
  - intros [= <- _] e He. discriminate He.
  - destruct (String.eqb s "http://api/missing"); [|discriminate].
    intros [= <- _] e He. injection He as <-. eexists. reflexivity.
Defined.

Lemma values_polite (vs : list value) : polite_args (AVal <$> vs).
Proof.
  intros res Hin. apply list_elem_of_fmap in Hin as (v & Hv & _). discriminate Hv.
Defined.

(** The payload function throws, the meta function returns: the type and
    the descriptor's own field are as they were. *)
Lemma actionWith_keeps_fields_witness :
  ∃ fsa σ',
    actionWith demo_call_user busy_descriptor
      [AVal plain_action; AVal (demo_getState 0)] start = (Ok fsa, σ')
    ∧ get_prop fsa "type" = Done (VStr "REQUEST")
    ∧ get_prop fsa "source" = Done (VStr "test")
    ∧ get_prop fsa "error" = Done (VBool true).
Proof.
  pose proof (λ fsa σ', actionWith_keeps_fields demo_call_user busy_descriptor
                [AVal plain_action; AVal (demo_getState 0)] start fsa σ') as H.
  eexists _, _. split; [reflexivity|].
  specialize (H _ _ eq_refl). destruct H as (Hk & Ht & _ & _).
  split; [exact Ht|]. split; [|reflexivity].
  apply (Hk "source"); discriminate.
Defined.


Local Abbreviation polite_run :=
  (run demo_getState demo_next demo_fetch polite_call_user
       demo_isRSAA demo_validateRSAA demo_CALL_API).


Lemma notification_types_witness :
  ∃ evs : list event,
    trace (snd (demo_run (static_action "http://api/missing") start)) = ([] ++ evs)%list
    ∧ ∀ a, ENext a ∈ evs →
           type_of a = VStr "REQUEST" ∨ type_of a = VStr "SUCCESS"
           ∨ type_of a = VStr "FAILURE".
Proof.
  pose proof (λ c rps, notification_types demo_getState demo_next demo_fetch
                demo_call_user demo_isRSAA demo_validateRSAA demo_CALL_API
                (static_action "http://api/missing") c start rps eq_refl eq_refl) as H.
  exact (H _ _ eq_refl eq_refl eq_refl eq_refl eq_refl).
Defined.

Local Abbreviation more_run :=
  (run demo_getState demo_next demo_fetch more_call_user
       demo_isRSAA demo_validateRSAA demo_CALL_API).

(** The first types slot is an object: the meta function of the request
    descriptor and the payload function of the success descriptor both find
    the resolved request payload in the action they are given. *)
Lemma response_resolved_witness :
  forwarded (trace (snd (more_run sharing_action start)))
  = [obj [("type", VStr "REQUEST"); ("payload", VStr "http://api/ok");
          ("meta", VStr "http://api/ok")];
     obj [("type", VStr "SUCCESS"); ("payload", VStr "http://api/ok");
          ("meta", VUndef)]].
Proof.
  pose proof (λ c rt σ1, response_resolved demo_getState demo_next demo_fetch
                more_call_user demo_isRSAA demo_validateRSAA demo_CALL_API
                sharing_action c
                (VStr "http://api/ok") VUndef (obj []) rt start σ1
                response_ok 1%nat (VStr "http://api/ok")) as H.
  edestruct H as (_ & Hfw & _);
    [reflexivity|reflexivity|do 4 eexists; repeat split; reflexivity
    |reflexivity|reflexivity|reflexivity|reflexivity|].
  exact Hfw.
Defined.

Local Abbreviation cache_run :=
  (run demo_getState demo_next cache_fetch demo_call_user
       demo_isRSAA demo_validateRSAA demo_CALL_API).

Lemma synthesized_response_witness :
  forwarded (trace (snd (cache_run (static_action "http://api/ok") start)))
  = [obj [("type", VStr "REQUEST"); ("payload", VUndef); ("meta", VUndef)];
     obj [("type", VStr "SUCCESS"); ("payload", cached_body); ("meta", VUndef)]].
Proof.
  pose proof (λ c rt σ1, synthesized_response demo_getState demo_next cache_fetch
                demo_call_user demo_isRSAA demo_validateRSAA demo_CALL_API
                (static_action "http://api/ok") c
                (VStr "http://api/ok") VUndef (obj []) rt start σ1
                cached_body 1%nat) as H.
  edestruct H as (_ & Hfw & _);
    [reflexivity|reflexivity|do 4 eexists; repeat split; reflexivity
    |reflexivity|reflexivity|reflexivity|reflexivity|reflexivity|].
  exact Hfw.
Defined.

Local Abbreviation garbled_run :=
  (run demo_getState demo_next garbled_fetch demo_call_user
       demo_isRSAA demo_validateRSAA demo_CALL_API).

Lemma undecodable_body_witness :
  forwarded (trace (snd (garbled_run (static_action "http://api/ok") start)))
  = [obj [("type", VStr "REQUEST"); ("payload", VUndef); ("meta", VUndef)];
     obj [("type", VStr "SUCCESS");
          ("payload", InternalError (VStr "Unexpected token <"));
          ("error", VBool true);
          ("meta", VUndef)]].
Proof.
  pose proof (λ c rt σ1, undecodable_body demo_getState demo_next garbled_fetch
                demo_call_user demo_isRSAA demo_validateRSAA demo_CALL_API
                (static_action "http://api/ok") c
                (VStr "http://api/ok") VUndef (obj []) rt start σ1
                response_garbled 1%nat) as H.
  edestruct H as (_ & Hfw & _);
    [reflexivity|reflexivity|do 4 eexists; repeat split; reflexivity
    |reflexivity|reflexivity|reflexivity|reflexivity|reflexivity|reflexivity
    |reflexivity|].
  exact Hfw.
Defined.

Lemma normalize_any_array_witness :
  (∃ l, normalizeTypeDescriptors (arr [VStr "ONLY"]) = Done l)
  ∧ ∃ r sp fp,
      [obj [("type", VStr "ONLY")];
       obj [("payload", VFun FSuccessPayload ∅)];
       obj [("payload", VFun FFailurePayload ∅)]] = [r; VObj sp; VObj fp]
      ∧ is_Some (sp !! "payload") ∧ is_Some (fp !! "payload").
Proof.
  destruct normalize_any_array as (Hiff & Hshape & _).
  split.
  - apply Hiff. left. reflexivity.
  - apply (Hshape (arr [VStr "ONLY"])). reflexivity.
Defined.

Lemma fakeHeader_content_type_witness :
  _fakeHeader (Some "CONTENT-Type") = "application/json"
  ∧ _fakeHeader (Some "Accept") = faked_header.
Proof.
  split.
  - apply (proj1 (fakeHeader_content_type (Some "CONTENT-Type"))). reflexivity.
  - apply (proj1 (proj2 (fakeHeader_content_type (Some "Accept")))). discriminate.
Defined.

(** A truthy [bailout] that is not a boolean, and a bailout function that
    returns [undefined]: the request passes both times. *)
Lemma bailout_decides_witness :
  let c b := RSAA (VStr "http://api/ok") VUndef VUndef (VStr "GET") VUndef VUndef b
               (obj [("type", VStr "REQUEST")])
               (obj [("type", VStr "SUCCESS")]) (obj [("type", VStr "FAILURE")]) in
  bail_out demo_getState demo_next demo_call_user plain_action (c (VNum 1)) start
  = (Ok tt, start)
  ∧ bail_out demo_getState demo_next demo_call_user plain_action (c (user 5)) start
    = (Ok tt, {| world := 0%nat; trace := [ECall 5 [AVal (VNum 0)]] |}).
Proof.
  intros c. split.
  - rewrite (proj1 (bailout_decides demo_getState demo_next demo_call_user
                      plain_action (c (VNum 1)) start)); reflexivity.
  - rewrite (proj2 (bailout_decides demo_getState demo_next demo_call_user
                      plain_action (c (user 5)) start) VUndef
               {| world := 0%nat; trace := [ECall 5 [AVal (VNum 0)]] |});
      reflexivity.
Defined.

Lemma invalid_without_descriptor_witness :
  ∃ e, demo_run undefined_descriptor_action start = (Fail e, start) ∧ has_message e.
Proof.
  apply (invalid_without_descriptor demo_getState demo_next demo_fetch demo_call_user
           demo_isRSAA demo_validateRSAA demo_CALL_API
           undefined_descriptor_action VUndef start);
    [reflexivity|discriminate|reflexivity|left; reflexivity].
Defined.

(** The endpoint function and the meta function of the request descriptor
    both throw. *)
Lemma field_error_meta_fails_witness :
  let c := RSAA (user 0) VUndef VUndef (VStr "GET") VUndef VUndef VUndef
             (obj [("type", VStr "REQUEST"); ("meta", user 0)])
             (obj [("type", VStr "SUCCESS")]) (obj [("type", VStr "FAILURE")]) in
  process demo_getState demo_next demo_call_user plain_action c "endpoint" (user 0) start
  = return_next demo_next
      (obj [("type", VStr "REQUEST");
            ("payload", InternalError (VStr "boom"));
            ("error", VBool true)])
      {| world := 0%nat;
         trace := [ECall 0 [AVal (VNum 0)];
                   ECall 0 [AVal plain_action; AVal (VNum 0)]] |}.
Proof.
  intros c.
  destruct (field_error_meta_fails demo_getState demo_next demo_call_user
              plain_action c "endpoint" (user 0) start
              (VErr "Error" {[ "message" := VStr "boom" ]})
              {| world := 0%nat; trace := [ECall 0 [AVal (VNum 0)]] |}
              (VErr "Error" {[ "message" := VStr "boom" ]}) (VStr "boom")
              {| world := 0%nat;
                 trace := [ECall 0 [AVal (VNum 0)];
                           ECall 0 [AVal plain_action; AVal (VNum 0)]] |})
    as [H _]; [reflexivity|reflexivity|reflexivity|reflexivity|].
  rewrite H. reflexivity.
Defined.

(** A payload that is a thenable: one that resolves with 'adopted', one
    that rejects with an error. *)
Lemma actionWith_adopts_thenable_witness :
  actionWith more_call_user (thenable_descriptor resolving_thenable)
    [AVal plain_action; AVal (demo_getState 0)] start
  = (Ok (obj [("type", VStr "REQUEST"); ("payload", VStr "adopted"); ("meta", VUndef)]),
     {| world := 0%nat; trace := [ECall 7 [AResolve; AReject]] |})
  ∧ actionWith more_call_user (thenable_descriptor rejecting_thenable)
      [AVal plain_action; AVal (demo_getState 0)] start
    = (Ok (obj [("type", VStr "REQUEST");
                ("payload", InternalError (VStr "too late"));
                ("error", VBool true); ("meta", VUndef)]),
       {| world := 0%nat; trace := [ECall 8 [AResolve; AReject]] |}).
Proof.
  split.
  - edestruct (actionWith_adopts_thenable more_call_user
                 (list_to_map [("type", VStr "REQUEST"); ("payload", resolving_thenable)])
                 [AVal plain_action; AVal (demo_getState 0)] start
                 resolving_thenable (user 7)) as [H _];
      [reflexivity|reflexivity|reflexivity|].
    apply (H (VStr "adopted")
             {| world := 0%nat; trace := [ECall 7 [AResolve; AReject]] |} VUndef);
      reflexivity.
  - edestruct (actionWith_adopts_thenable more_call_user
                 (list_to_map [("type", VStr "REQUEST"); ("payload", rejecting_thenable)])
                 [AVal plain_action; AVal (demo_getState 0)] start
                 rejecting_thenable (user 8)) as [_ H];
      [reflexivity|reflexivity|reflexivity|].
    apply (H (VErr "Error" {[ "message" := VStr "too late" ]}) (VStr "too late")
             {| world := 0%nat; trace := [ECall 8 [AResolve; AReject]] |} VUndef);
      reflexivity.
Defined.

(** The meta function of the request descriptor finds the resolved payload,
    a string, where the action it was dispatched with has a function. *)
Lemma request_resolved_in_place_witness :
  ∃ c,
    parse demo_CALL_API sharing_action start = (Ok c, start)
    ∧ dispatch_request demo_getState demo_next more_call_user demo_CALL_API
        sharing_action c start
      = (Ok (obj [("type", VStr "REQUEST"); ("payload", VStr "http://api/ok");
                  ("meta", VStr "http://api/ok")]),
         {| world := 1%nat;
            trace :=
              [ECall 1 [AVal sharing_action; AVal (VNum 0)];
               ECall 6 [AVal (seen demo_CALL_API sharing_action
                                (obj [("type", VStr "REQUEST");
                                      ("payload", VStr "http://api/ok");
                                      ("meta", user 6)]));
                        AVal (VNum 0)];
               ENext (obj [("type", VStr "REQUEST");
                           ("payload", VStr "http://api/ok");
                           ("meta", VStr "http://api/ok")])] |}).
Proof.
  eexists. split; [reflexivity|].
  pose proof (λ c rps, request_resolved_in_place demo_getState demo_next
                more_call_user demo_CALL_API sharing_action c start rps
                (VStr "http://api/ok")
                {| world := 0%nat;
                   trace := [ECall 1 [AVal sharing_action; AVal (VNum 0)]] |}
                (VStr "http://api/ok")) as H.
  edestruct H as (Hrun & _);
    [reflexivity|reflexivity|reflexivity|reflexivity|reflexivity|reflexivity
    |reflexivity|].
  exact Hrun.
Defined.

(** The [then] of the request type descriptor resolves with 'adopted',
    which is what the next stage gets; and a [then] that rejects makes the
    promise of the middleware reject, with nothing forwarded. *)
Lemma descriptor_adopted_witness :
  (∃ c,
     parse demo_CALL_API (then_action (user 7)) start = (Ok c, start)
     ∧ dispatch_request demo_getState demo_next more_call_user demo_CALL_API
         (then_action (user 7)) c start
       = (Ok (obj [("type", VStr "REQUEST"); ("then", user 7);
                   ("payload", VUndef); ("meta", VUndef)]),
          {| world := 1%nat;
             trace := [ECall 7 [AResolve; AReject]; ENext (VStr "adopted")] |}))
  ∧ more_run (then_action (user 8)) start
    = (Fail (VErr "Error" {[ "message" := VStr "too late" ]}),
       {| world := 0%nat; trace := [ECall 8 [AResolve; AReject]] |}).
Proof.
  split.
  - eexists. split; [reflexivity|].
    pose proof (λ c rps d, descriptor_adopted demo_getState demo_next demo_fetch
                  more_call_user demo_isRSAA demo_validateRSAA demo_CALL_API
                  (then_action (user 7)) c start start start
                  (VStr "http://api/ok") VUndef (obj []) rps (user 7) d
                  eq_refl eq_refl) as H.
    edestruct H as [Hresolves _];
      [reflexivity|do 3 eexists; repeat split; reflexivity|reflexivity|reflexivity
      |reflexivity|].
    apply (Hresolves (VStr "adopted")
             {| world := 0%nat; trace := [ECall 7 [AResolve; AReject]] |}
             (VStr "adopted") 1%nat); reflexivity.
  - pose proof (λ c rps d, descriptor_adopted demo_getState demo_next demo_fetch
                  more_call_user demo_isRSAA demo_validateRSAA demo_CALL_API
                  (then_action (user 8)) c start start start
                  (VStr "http://api/ok") VUndef (obj []) rps (user 8) d
                  eq_refl eq_refl) as H.
    edestruct H as [_ Hrejects];
      [reflexivity|do 3 eexists; repeat split; reflexivity|reflexivity|reflexivity
      |reflexivity|].
    edestruct (Hrejects (VErr "Error" {[ "message" := VStr "too late" ]})
                 {| world := 0%nat; trace := [ECall 8 [AResolve; AReject]] |})
      as [Hrun _]; [reflexivity|].
    exact Hrun.
Defined.
